(** * xDS endpoint load balancing: a shallow embedding of the Go sources

    The development follows the layout of the repository:

    - [xds/pkg/resolver/watch_service.go]: the domain matcher
      ([findBestMatchingVirtualHost]) and the LDS/RDS service watcher;
    - the EDS proto parser ([parseEDSRespProto]);
    - [xds/pkg/balancer/edsbalancer/util.go] and [eds_impl.go]: droppers, the
      drop picker and the EDS balancer;
    - the cache lookup [FindEndpointsByListenerName].

    Go values are modelled as follows.  A [string] is a Rocq [string] (a
    sequence of bytes, [String.length] is Go's [len]).  A [uint32] is an [N]
    with the wrap-around of the arithmetic written out ([uint32_sub]).  A
    slice is a [list]; the model does not distinguish a nil slice from an
    empty one (the updates built by [parseEDSRespProto] start from nil and
    only [append], so for them empty and nil coincide).  A Go [map] is a
    [gmap]; the order in which [range] visits it is left to the runtime and
    is an explicit parameter of the functions that range over a map.  Calls
    made on collaborators (the client connection, balancer groups,
    aggregators, the load reporter, the xDS client) are recorded in a trace
    of events, in the order in which the code makes them. *)

From stdpp Require Import gmap strings list fin_maps fin_sets pretty.
From Stdlib Require Import ZArith NArith Ascii.

Set Warnings "-clear-no-such-hyp".

(** ** Go's [strings] package, the part the sources use *)

Module strings.

(** [len(s) >= len(prefix) && s[0:len(prefix)] == prefix] *)
Definition HasPrefix (s pre : string) : bool :=
  (String.length pre <=? String.length s)%nat
  && String.eqb (String.substring 0 (String.length pre) s) pre.

(** [len(s) >= len(suffix) && s[len(s)-len(suffix):] == suffix] *)
Definition HasSuffix (s suf : string) : bool :=
  (String.length suf <=? String.length s)%nat
  && String.eqb
       (String.substring (String.length s - String.length suf)
          (String.length suf) s) suf.

(** [Index(s, substr) >= 0] *)
Definition Contains (s sub : string) : bool :=
  match String.index 0 sub s with Some _ => true | None => false end.

Definition TrimPrefix (s pre : string) : string :=
  if HasPrefix s pre
  then String.substring (String.length pre)
         (String.length s - String.length pre) s
  else s.

Definition TrimSuffix (s suf : string) : string :=
  if HasSuffix s suf
  then String.substring 0 (String.length s - String.length suf) s
  else s.

End strings.

(** ** Machine integers *)

Definition uint32_modulus : N := 4294967296%N.

(** The conversion [uint32(i)] of a non-negative [int]. *)
Definition uint32 (i : N) : N := (i mod uint32_modulus)%N.

(** [a - b] on [uint32]: the difference wraps around modulo 2^32. *)
Definition uint32_sub (a b : N) : N :=
  Z.to_N ((Z.of_N a - Z.of_N b) mod Z.of_N uint32_modulus)%Z.

(** ** The shapes of package [xdsclient] that the sources consume *)

Module xdsclient.

Record Route := {
  WeightedClusters : gmap string N
}.

Record VirtualHost := {
  Domains : list string;
  Routes : list Route
}.

Record HTTPFilter := {
  FilterName : string
}.

Record ListenerUpdate := {
  RouteConfigName : string;
  MaxStreamDuration : Z;
  HTTPFilters : list HTTPFilter
}.

Record RouteConfigUpdate := {
  VirtualHosts : list VirtualHost
}.

Record ClusterUpdate := {
  ServiceName : string
}.

(** [type EndpointHealthStatus int32], with its constants in [iota] order. *)
Definition EndpointHealthStatus := Z.
Definition EndpointHealthStatusUnknown : EndpointHealthStatus := 0%Z.
Definition EndpointHealthStatusHealthy : EndpointHealthStatus := 1%Z.
Definition EndpointHealthStatusUnhealthy : EndpointHealthStatus := 2%Z.
Definition EndpointHealthStatusDraining : EndpointHealthStatus := 3%Z.
Definition EndpointHealthStatusTimeout : EndpointHealthStatus := 4%Z.
Definition EndpointHealthStatusDegraded : EndpointHealthStatus := 5%Z.

Record Endpoint := {
  Address : string;
  HealthStatus : EndpointHealthStatus;
  EWeight : N
}.

(** [pkg.LocalityID] *)
Record LocalityID := {
  Region : string;
  Zone : string;
  SubZone : string
}.

Record Locality := {
  Endpoints : list Endpoint;
  ID : LocalityID;
  Priority : N;
  Weight : N
}.

Record OverloadDropConfig := {
  Category : string;
  Numerator : N;
  Denominator : N
}.

Record EndpointsUpdate := {
  Drops : list OverloadDropConfig;
  Localities : list Locality
}.

(** The zero value [EndpointsUpdate{}]. *)
Definition EndpointsUpdate_zero : EndpointsUpdate :=
  {| Drops := []; Localities := [] |}.

(** The kinds an xDS client error is inspected for with [ErrType]. *)
Inductive ErrorType :=
| ErrorTypeUnknown
| ErrorTypeConnection
| ErrorTypeResourceNotFound.

#[global] Instance ErrorType_eq_dec : EqDecision ErrorType.
Proof. solve_decision. Defined.
#[global] Instance HTTPFilter_eq_dec : EqDecision HTTPFilter.
Proof. solve_decision. Defined.
#[global] Instance Route_eq_dec : EqDecision Route.
Proof. solve_decision. Defined.
#[global] Instance VirtualHost_eq_dec : EqDecision VirtualHost.
Proof. solve_decision. Defined.
#[global] Instance Endpoint_eq_dec : EqDecision Endpoint.
Proof. solve_decision. Defined.
#[global] Instance LocalityID_eq_dec : EqDecision LocalityID.
Proof. solve_decision. Defined.
#[global] Instance Locality_eq_dec : EqDecision Locality.
Proof. solve_decision. Defined.
#[global] Instance OverloadDropConfig_eq_dec : EqDecision OverloadDropConfig.
Proof. solve_decision. Defined.
#[global] Instance EndpointsUpdate_eq_dec : EqDecision EndpointsUpdate.
Proof. solve_decision. Defined.

#[global] Instance LocalityID_countable : Countable LocalityID.
Proof.
  refine (inj_countable'
            (fun l => (Region l, Zone l, SubZone l))
            (fun t => {| Region := t.1.1; Zone := t.1.2; SubZone := t.2 |}) _).
  by intros [].
Defined.

End xdsclient.

(** A Go [error] as the sources build and inspect it: the xDS client's errors
    carry a kind, [status.Errorf] builds a status error from a code and a
    message, and [fmt.Errorf] and [errors.New] build the remaining ones
    ([Errorf] keeps the format string; the formatted arguments are not
    modelled). *)
Inductive Code := Unavailable | OtherCode (c : N).

Inductive error :=
| XdsError (t : xdsclient.ErrorType) (msg : string)
| StatusError (c : Code) (msg : string)
| Errorf (format : string).

#[global] Instance Code_eq_dec : EqDecision Code.
Proof. solve_decision. Defined.
#[global] Instance error_eq_dec : EqDecision error.
Proof. solve_decision. Defined.

(** * The domain matcher ([watch_service.go]) *)

Module resolver.
Import xdsclient.

Inductive domainMatchType :=
| domainMatchTypeInvalid
| domainMatchTypeUniversal
| domainMatchTypePrefix
| domainMatchTypeSuffix
| domainMatchTypeExact.

#[global] Instance domainMatchType_eq_dec : EqDecision domainMatchType.
Proof. solve_decision. Defined.

(** The [iota] value of each constant: [domainMatchType] is an [int]. *)
Definition iota (t : domainMatchType) : Z :=
  match t with
  | domainMatchTypeInvalid => 0
  | domainMatchTypeUniversal => 1
  | domainMatchTypePrefix => 2
  | domainMatchTypeSuffix => 3
  | domainMatchTypeExact => 4
  end.

Definition betterThan (t b : domainMatchType) : bool := (iota b <? iota t)%Z.

Definition matchTypeForDomain (d : string) : domainMatchType :=
  if String.eqb d "" then domainMatchTypeInvalid
  else if String.eqb d "*" then domainMatchTypeUniversal
  else if strings.HasPrefix d "*" then domainMatchTypeSuffix
  else if strings.HasSuffix d "*" then domainMatchTypePrefix
  else if strings.Contains d "*" then domainMatchTypeInvalid
  else domainMatchTypeExact.

Definition match_ (domain host : string) : domainMatchType * bool :=
  let typ := matchTypeForDomain domain in
  match typ with
  | domainMatchTypeInvalid => (typ, false)
  | domainMatchTypeUniversal => (typ, true)
  | domainMatchTypePrefix =>
      (typ, strings.HasPrefix host (strings.TrimSuffix domain "*"))
  | domainMatchTypeSuffix =>
      (typ, strings.HasSuffix host (strings.TrimPrefix domain "*"))
  | domainMatchTypeExact => (typ, String.eqb domain host)
  end.

(** The three loop variables of [findBestMatchingVirtualHost]. *)
Record matchState := {
  matchVh : option VirtualHost;
  matchType : domainMatchType;
  matchLen : nat
}.

Definition matchState_init : matchState :=
  {| matchVh := None; matchType := domainMatchTypeInvalid; matchLen := 0 |}.

(** One iteration of the inner loop; [None] is the early [return nil]. *)
Definition visitDomain (host : string) (vh : VirtualHost) (domain : string)
    (st : matchState) : option matchState :=
  let '(typ, matched) := match_ domain host in
  if decide (typ = domainMatchTypeInvalid) then None
  else if betterThan (matchType st) typ
          || (bool_decide (matchType st = typ)
              && (String.length domain <=? matchLen st)%nat)
          || negb matched
       then Some st
       else Some {| matchVh := Some vh; matchType := typ;
                    matchLen := String.length domain |}.

(** [for _, domain := range vh.Domains] *)
Fixpoint rangeDomains (host : string) (vh : VirtualHost)
    (domains : list string) (st : matchState) : option matchState :=
  match domains with
  | [] => Some st
  | domain :: rest =>
      match visitDomain host vh domain st with
      | None => None
      | Some st' => rangeDomains host vh rest st'
      end
  end.

(** [for _, vh := range vHosts] *)
Fixpoint rangeVHosts (host : string) (vHosts : list VirtualHost)
    (st : matchState) : option matchState :=
  match vHosts with
  | [] => Some st
  | vh :: rest =>
      match rangeDomains host vh (Domains vh) st with
      | None => None
      | Some st' => rangeVHosts host rest st'
      end
  end.

Definition findBestMatchingVirtualHost (host : string)
    (vHosts : list VirtualHost) : option VirtualHost :=
  match rangeVHosts host vHosts matchState_init with
  | None => None
  | Some st => matchVh st
  end.

(** ** The service watcher *)

Record ldsConfig := {
  maxStreamDuration : Z;
  httpFilterConfig : list HTTPFilter
}.

Record serviceUpdate := {
  virtualHost : option VirtualHost;
  su_ldsConfig : ldsConfig
}.

(** The zero values [ldsConfig{}] and [serviceUpdate{}]. *)
Definition ldsConfig_zero : ldsConfig :=
  {| maxStreamDuration := 0; httpFilterConfig := [] |}.
Definition serviceUpdate_zero : serviceUpdate :=
  {| virtualHost := None; su_ldsConfig := ldsConfig_zero |}.

(** [xdsclient.ErrType(err)] *)
Definition ErrType (err : error) : ErrorType :=
  match err with
  | XdsError t _ => t
  | _ => ErrorTypeUnknown
  end.

(** The calls a watcher makes on its collaborators.  A cancel function is
    identified by the watch it cancels: RDS watches are numbered in the
    order in which [WatchRouteConfig] starts them. *)
Inductive call :=
| WatchListener (name : string)
| WatchRouteConfig (name : string)
| ldsCancelCalled
| rdsCancelCalled (watch : nat)
| serviceCb (u : serviceUpdate) (err : option error).

(** The mutable fields of [serviceUpdateWatcher]; [rdsCancel] is [None] for
    nil. *)
Record serviceUpdateWatcher := {
  serviceName : string;
  lastUpdate : serviceUpdate;
  closed : bool;
  rdsName : string;
  rdsCancel : option nat
}.

(** A watcher together with the xDS client's count of RDS watches started
    and the calls made so far. *)
Record watcherConf := {
  watcher : serviceUpdateWatcher;
  rdsWatches : nat;
  calls : list call
}.

Definition watchService (name : string) : watcherConf :=
  {| watcher := {| serviceName := name; lastUpdate := serviceUpdate_zero;
                   closed := false; rdsName := ""; rdsCancel := None |};
     rdsWatches := 0;
     calls := [WatchListener name] |}.

Definition handleLDSResp (update : ListenerUpdate) (err : option error)
    (cf : watcherConf) : watcherConf :=
  let w := watcher cf in
  if closed w then cf
  else
    match err with
    | Some e =>
        (* ErrType(err) == ErrorTypeResourceNotFound && w.rdsCancel != nil *)
        match (if bool_decide (ErrType e = ErrorTypeResourceNotFound)
               then rdsCancel w else None) with
        | Some k =>
            {| watcher := {| serviceName := serviceName w;
                             lastUpdate := serviceUpdate_zero;
                             closed := closed w;
                             rdsName := "";
                             rdsCancel := None |};
               rdsWatches := rdsWatches cf;
               calls := calls cf
                        ++ [rdsCancelCalled k;
                            serviceCb serviceUpdate_zero (Some e)] |}
        | None =>
            {| watcher := w; rdsWatches := rdsWatches cf;
               calls := calls cf ++ [serviceCb serviceUpdate_zero (Some e)] |}
        end
    | None =>
        let lu := {| virtualHost := virtualHost (lastUpdate w);
                     su_ldsConfig :=
                       {| maxStreamDuration := MaxStreamDuration update;
                          httpFilterConfig := HTTPFilters update |} |} in
        if String.eqb (rdsName w) (RouteConfigName update) then
          {| watcher := {| serviceName := serviceName w; lastUpdate := lu;
                           closed := closed w; rdsName := rdsName w;
                           rdsCancel := rdsCancel w |};
             rdsWatches := rdsWatches cf;
             calls := calls cf ++ [serviceCb lu None] |}
        else
          {| watcher := {| serviceName := serviceName w; lastUpdate := lu;
                           closed := closed w;
                           rdsName := RouteConfigName update;
                           rdsCancel := Some (rdsWatches cf) |};
             rdsWatches := S (rdsWatches cf);
             calls := calls cf
                      ++ match rdsCancel w with
                         | Some k => [rdsCancelCalled k]
                         | None => []
                         end
                      ++ [WatchRouteConfig (RouteConfigName update)] |}
    end.

Definition handleRDSResp (update : RouteConfigUpdate) (err : option error)
    (cf : watcherConf) : watcherConf :=
  let w := watcher cf in
  if closed w then cf
  else
    match rdsCancel w with
    | None => cf
    | Some _ =>
        match err with
        | Some e =>
            {| watcher := w; rdsWatches := rdsWatches cf;
               calls := calls cf ++ [serviceCb serviceUpdate_zero (Some e)] |}
        | None =>
            match findBestMatchingVirtualHost (serviceName w)
                    (VirtualHosts update) with
            | None =>
                {| watcher := w; rdsWatches := rdsWatches cf;
                   calls := calls cf
                            ++ [serviceCb serviceUpdate_zero
                                  (Some (Errorf "no matching virtual host found for %q"))] |}
            | Some matchVh =>
                let lu := {| virtualHost := Some matchVh;
                             su_ldsConfig := su_ldsConfig (lastUpdate w) |} in
                {| watcher := {| serviceName := serviceName w;
                                 lastUpdate := lu; closed := closed w;
                                 rdsName := rdsName w;
                                 rdsCancel := rdsCancel w |};
                   rdsWatches := rdsWatches cf;
                   calls := calls cf ++ [serviceCb lu None] |}
            end
        end
    end.

Definition close (cf : watcherConf) : watcherConf :=
  let w := watcher cf in
  {| watcher := {| serviceName := serviceName w; lastUpdate := lastUpdate w;
                   closed := true; rdsName := rdsName w;
                   rdsCancel := None |};
     rdsWatches := rdsWatches cf;
     calls := calls cf ++ [ldsCancelCalled]
              ++ match rdsCancel w with
                 | Some k => [rdsCancelCalled k]
                 | None => []
                 end |}.

(** The configurations a watcher can be in: it is created by
    [watchService], and then the xDS client delivers LDS and RDS callbacks
    and the owner may call [close], in any order. *)
Inductive reachable (name : string) : watcherConf -> Prop :=
| reach_watchService : reachable name (watchService name)
| reach_handleLDSResp update err cf :
    reachable name cf -> reachable name (handleLDSResp update err cf)
| reach_handleRDSResp update err cf :
    reachable name cf -> reachable name (handleRDSResp update err cf)
| reach_close cf :
    reachable name cf -> reachable name (close cf).

End resolver.

(** * Outcomes of Go calls that may panic *)

Inductive result (A : Type) :=
| Returns (a : A)
| Panics (msg : string).
Arguments Returns {A} a.
Arguments Panics {A} msg.

(** The order in which a [range] over a map visits its entries is chosen by
    the Go runtime.  A [rangeOrder] is that choice: it rearranges the entries
    of the map, and the properties below are proved for every choice that is
    a permutation. *)
Definition rangeOrder : Type := forall A : Type, list A -> list A.

Definition rangeOrder_valid (ro : rangeOrder) : Prop :=
  forall (A : Type) (l : list A), ro A l ≡ₚ l.

(** The runtime that visits the entries in the order of [map_to_list]. *)
Definition rangeOrder_id : rangeOrder := fun _ l => l.

(** * The EDS proto parser *)

Module xdspb.

(** [FractionalPercent_DenominatorType], an [int32] enum. *)
Definition FractionalPercent_HUNDRED : Z := 0.
Definition FractionalPercent_TEN_THOUSAND : Z := 1.
Definition FractionalPercent_MILLION : Z := 2.

Record FractionalPercent := {
  FP_Numerator : N;
  FP_Denominator : Z
}.

Record DropOverload := {
  DO_Category : string;
  DropPercentage : option FractionalPercent
}.

Record Policy := {
  DropOverloads : list DropOverload
}.

Record SocketAddress := {
  SA_Address : string;
  PortValue : N
}.

(** [GetEndpoint().GetAddress().GetSocketAddress()] is nil as soon as one of
    the three messages is: the chain is one optional field here. *)
Record LbEndpoint := {
  LE_HealthStatus : Z;
  LE_SocketAddress : option SocketAddress;
  LE_LoadBalancingWeight : option N
}.

Record Locality := {
  L_Region : string;
  L_Zone : string;
  L_SubZone : string
}.

Record LocalityLbEndpoints := {
  LLE_Locality : option Locality;
  LbEndpoints : list LbEndpoint;
  LoadBalancingWeight : option N;
  LLE_Priority : N
}.

Record ClusterLoadAssignment := {
  CLA_Policy : option Policy;
  CLA_Endpoints : list LocalityLbEndpoints
}.

End xdspb.

Module edsparse.
Import xdsclient xdspb.

(** [net.JoinHostPort]: a host with a colon is taken for an IPv6 literal. *)
Definition JoinHostPort (host port : string) : string :=
  if strings.Contains host ":" then "[" +:+ host +:+ "]:" +:+ port
  else host +:+ ":" +:+ port.

(** [strconv.Itoa] on a non-negative number. *)
Definition Itoa (n : N) : string := pretty n.

(** The getters of a nil socket address return zero values. *)
Definition parseAddress (socketAddress : option SocketAddress) : string :=
  match socketAddress with
  | Some sa => JoinHostPort (SA_Address sa) (Itoa (PortValue sa))
  | None => JoinHostPort "" (Itoa 0)
  end.

Definition parseDropPolicy (dropPolicy : DropOverload) : OverloadDropConfig :=
  let numerator :=
    match DropPercentage dropPolicy with
    | Some pc => FP_Numerator pc
    | None => 0%N
    end in
  let denomType :=
    match DropPercentage dropPolicy with
    | Some pc => FP_Denominator pc
    | None => FractionalPercent_HUNDRED
    end in
  let denominator :=
    if decide (denomType = FractionalPercent_HUNDRED) then 100%N
    else if decide (denomType = FractionalPercent_TEN_THOUSAND) then 10000%N
    else if decide (denomType = FractionalPercent_MILLION) then 1000000%N
    else 0%N in
  {| Category := DO_Category dropPolicy;
     Numerator := numerator;
     Denominator := denominator |}.

Definition parseEndpoints (lbEndpoints : list LbEndpoint) : list Endpoint :=
  fold_left
    (fun endpoints lbEndpoint =>
       endpoints ++
       [{| HealthStatus := LE_HealthStatus lbEndpoint;
           Address := parseAddress (LE_SocketAddress lbEndpoint);
           EWeight := default 0%N (LE_LoadBalancingWeight lbEndpoint) |}])
    lbEndpoints [].

(** [for _, locality := range m.Endpoints]: the loop carries
    [ret.Localities] and the set [priorities]; [None] is the return with
    the error about a locality without ID. *)
Fixpoint rangeEndpoints (ls : list LocalityLbEndpoints)
    (localities : list xdsclient.Locality) (priorities : gset N)
    : option (list xdsclient.Locality * gset N) :=
  match ls with
  | [] => Some (localities, priorities)
  | locality :: rest =>
      match LLE_Locality locality with
      | None => None
      | Some l =>
          let lid := {| Region := L_Region l; Zone := L_Zone l;
                        SubZone := L_SubZone l |} in
          let priority := LLE_Priority locality in
          rangeEndpoints rest
            (localities ++
             [{| ID := lid;
                 Endpoints := parseEndpoints (LbEndpoints locality);
                 Weight := default 0%N (LoadBalancingWeight locality);
                 Priority := priority |}])
            ({[priority]} ∪ priorities)
      end
  end.

(** [for i := 0; i < len(priorities); i++]: [todo] is [len(priorities) - i];
    the result is the first [i] for which [priorities[uint32(i)]] is
    missing. *)
Fixpoint missingPriority (priorities : gset N) (i : N) (todo : nat)
    : option N :=
  match todo with
  | O => None
  | S todo' =>
      if bool_decide (uint32 i ∈ priorities)
      then missingPriority priorities (N.succ i) todo'
      else Some i
  end.

Definition parseEDSRespProto (m : ClusterLoadAssignment)
    : EndpointsUpdate * option error :=
  let drops :=
    fold_left (fun ds dropPolicy => ds ++ [parseDropPolicy dropPolicy])
      (match CLA_Policy m with
       | Some pol => DropOverloads pol
       | None => []
       end) [] in
  match rangeEndpoints (CLA_Endpoints m) [] ∅ with
  | None =>
      (EndpointsUpdate_zero,
       Some (Errorf "EDS response contains a locality without ID, locality: %+v"))
  | Some (localities, priorities) =>
      match missingPriority priorities 0 (size priorities) with
      | Some _ =>
          (EndpointsUpdate_zero,
           Some (Errorf "priority %v missing (with different priorities %v received)"))
      | None => ({| Drops := drops; Localities := localities |}, None)
      end
  end.

End edsparse.

(** * The cache lookup *)

Module cache.
Import xdsclient.

Definition errResourceNotFound : error := Errorf "resource not found".

Record UpdateCache := {
  LDSCache : gmap string ListenerUpdate;
  RDSCache : gmap string RouteConfigUpdate;
  CDSCache : gmap string ClusterUpdate;
  EDSCache : gmap string EndpointsUpdate
}.

(** A Go run-time panic for [s[i]] with [i] out of range. *)
Definition index {A} (s : list A) (i : nat) : result A :=
  match s !! i with
  | Some x => Returns x
  | None => Panics "index out of range"
  end.

(** [len(rt.VirtualHosts) <= 0 && len(rt.VirtualHosts[0].Routes) <= 0]:
    [&&] evaluates its right operand only when the left one is true. *)
Definition noRoutes (rt : RouteConfigUpdate) : result bool :=
  if (length (VirtualHosts rt) <=? 0)%nat then
    match index (VirtualHosts rt) 0 with
    | Returns vh => Returns (length (Routes vh) <=? 0)%nat
    | Panics msg => Panics msg
    end
  else Returns false.

(** The pair that the function returns (a pointer to an [EndpointsUpdate],
    [None] for nil, and an error), or the panic it raises. *)
Definition FindEndpointsByListenerName (ro : rangeOrder) (u : UpdateCache)
    (name : string) : result (option EndpointsUpdate * option error) :=
  match LDSCache u !! name with
  | None => Returns (None, Some errResourceNotFound)
  | Some ls =>
      match RDSCache u !! RouteConfigName ls with
      | None => Returns (None, Some errResourceNotFound)
      | Some rt =>
          match noRoutes rt with
          | Panics msg => Panics msg
          | Returns true => Returns (None, Some errResourceNotFound)
          | Returns false =>
              match index (VirtualHosts rt) 0 with
              | Panics msg => Panics msg
              | Returns vh =>
                  match index (Routes vh) 0 with
                  | Panics msg => Panics msg
                  | Returns route =>
                      (* the first key the range visits, or the empty string *)
                      let cluster :=
                        match ro _ (map_to_list (WeightedClusters route)) with
                        | (key, _) :: _ => key
                        | [] => ""
                        end in
                      match CDSCache u !! cluster with
                      | None => Returns (None, Some errResourceNotFound)
                      | Some cs =>
                          match EDSCache u !! ServiceName cs with
                          | None => Returns (None, Some errResourceNotFound)
                          | Some es => Returns (Some es, None)
                          end
                      end
                  end
              end
          end
      end
  end.

End cache.

(** * Weighted random selection *)

(** Package [internal/wrr] is not among the sources; the spec has the
    weighted-random WRR as an array of items with cumulative weights plus a
    random sample in [0, total). *)

Module wrr.

(** Modelled from the spec: an item with its weight, an [int64]. *)
Record weightedItem (A : Type) := {
  Item : A;
  ItemWeight : Z
}.
Arguments Item {A} _.
Arguments ItemWeight {A} _.

(** Modelled from the spec: the array of items and the total of their
    weights. *)
Record randomWRR (A : Type) := {
  items : list (weightedItem A);
  sumOfWeights : Z
}.
Arguments items {A} _.
Arguments sumOfWeights {A} _.

(** Modelled from the spec: the WRR without items. *)
Definition NewRandom {A : Type} : randomWRR A :=
  {| items := []; sumOfWeights := 0 |}.

(** Modelled from the spec: [Add] appends the item and adds its weight to the
    total. *)
Definition Add {A : Type} (w : randomWRR A) (item : A) (weight : Z)
    : randomWRR A :=
  {| items := items w ++ [{| Item := item; ItemWeight := weight |}];
     sumOfWeights := sumOfWeights w + weight |}.

(** Modelled from the spec: the first item whose cumulative weight exceeds the
    sample. *)
Fixpoint pick {A : Type} (its : list (weightedItem A)) (sample : Z)
    : option A :=
  match its with
  | [] => None
  | it :: rest =>
      if (sample <? ItemWeight it)%Z then Some (Item it)
      else pick rest (sample - ItemWeight it)%Z
  end.

(** Modelled from the spec: [Next] draws a random sample in [0, total) and
    returns the item it falls on.  [raw] is what the random source yields and
    the sample is [raw] reduced into that range.  With a total of zero there
    is no sample and no item ([None]): the type assertion of [dropper.drop]
    on it panics. *)
Definition Next {A : Type} (w : randomWRR A) (raw : N) : option A :=
  if (sumOfWeights w <=? 0)%Z then None
  else pick (items w) (Z.of_N raw mod sumOfWeights w)%Z.

End wrr.

(** * The EDS balancer ([util.go], [eds_impl.go]) *)

Module edsbalancer.
Import xdsclient.

(** ** Droppers *)

Record dropper := {
  dropper_c : OverloadDropConfig;
  dropper_w : wrr.randomWRR bool
}.

(** [c.Denominator-c.Numerator] is computed on [uint32] and then converted
    to [int64]. *)
Definition newDropper (c : OverloadDropConfig) : dropper :=
  let w := wrr.NewRandom in
  let w := wrr.Add w true (Z.of_N (Numerator c)) in
  let w := wrr.Add w false
             (Z.of_N (uint32_sub (Denominator c) (Numerator c))) in
  {| dropper_c := c; dropper_w := w |}.

(** [d.w.Next().(bool)] on the raw sample that the random source yields;
    [None] is the panic of the type assertion. *)
Definition roll (d : dropper) (raw : N) : option bool :=
  wrr.Next (dropper_w d) raw.

(** ** Pickers *)

Record PickInfo := {
  FullMethodName : string
}.

Record DoneInfo := {
  DoneErr : option error
}.

(** [load.PerClusterReporter], identified by a name. *)
Definition PerClusterReporter := string.

(** A [*client.ServiceRequestsCounter]: the process-wide registry hands out
    one counter per service name, so the name identifies the counter. *)
Definition ServiceRequestsCounter := string.

(** [balancer.PickResult]; [Done] acts on the world of type [W]. *)
Record PickResult (W : Type) := {
  SubConn : option nat;
  Done : option (DoneInfo -> W -> W)
}.
Arguments SubConn {W} _.
Arguments Done {W} _.

Definition PickResult_zero {W : Type} : PickResult W :=
  {| SubConn := None; Done := None |}.

(** The fields of [dropPicker]; [P] is the type of pickers. *)
Record dropPicker (P : Type) := {
  dp_drops : list dropper;
  dp_p : P;
  dp_loadStore : option PerClusterReporter;
  dp_counter : option ServiceRequestsCounter;
  dp_countMax : N
}.
Arguments dp_drops {P} _.
Arguments dp_p {P} _.
Arguments dp_loadStore {P} _.
Arguments dp_counter {P} _.
Arguments dp_countMax {P} _.

Section Pickers.
(** The state of the child balancers and of the host library, on which
    the pickers of the child balancers and their [Done] callbacks act. *)
Context {I : Type}.

(** The implementations of [balancer.Picker] that occur: the error picker
    of [base.NewErrPicker], the pickers published by child balancers, and
    the drop picker.  Package [base] is not among the sources; the spec has
    the error picker as a picker that returns its error on every pick. *)
#[warnings="-register-all"]
Inductive Picker :=
| ErrPicker (err : error)
| ChildPicker (pick : PickInfo -> I -> (PickResult I * option error) * I)
| DropPicker (d : dropPicker Picker).

(** The calls a pick makes on its collaborators. *)
Inductive pickCall :=
| dropCalled (c : OverloadDropConfig)
| CallDropped (loadStore : PerClusterReporter) (category : string)
| StartRequestCalled (counter : ServiceRequestsCounter) (max : N)
| EndRequestCalled (counter : ServiceRequestsCounter)
| PickCalled (info : PickInfo)
| oldDoneCalled (doneInfo : DoneInfo).

(** What a pick acts on: the state of the children, the in-flight count
    of every service counter, the random source (an infinite sequence of
    raw samples and the position of the next one), and the calls made so
    far. *)
Record world := {
  child : I;
  inflight : gmap string N;
  rand : nat -> N;
  randPos : nat;
  pcalls : list pickCall
}.

Definition logCall (c : pickCall) (w : world) : world :=
  {| child := child w; inflight := inflight w; rand := rand w;
     randPos := randPos w; pcalls := pcalls w ++ [c] |}.

Definition numRequests (w : world) (counter : ServiceRequestsCounter) : N :=
  default 0%N (inflight w !! counter).

Definition set_numRequests (counter : ServiceRequestsCounter) (n : N)
    (w : world) : world :=
  {| child := child w; inflight := <[counter := n]> (inflight w);
     rand := rand w; randPos := randPos w; pcalls := pcalls w |}.

(** Modelled from the spec: [client.ServiceRequestsCounter] is not among
    the sources.  The spec has the counter as an in-flight count with a
    cap: [StartRequest] fails when the cap is reached and increments the
    count otherwise; [EndRequest] decrements it.  The count is a
    [uint32]. *)
Definition StartRequest (counter : ServiceRequestsCounter) (max : N)
    (w : world) : option error * world :=
  let w := logCall (StartRequestCalled counter max) w in
  if (max <=? numRequests w counter)%N
  then (Some (Errorf "max requests %v exceeded on service %v"), w)
  else (None,
        set_numRequests counter (uint32 (numRequests w counter + 1)) w).

(** Modelled from the spec: [EndRequest] decrements the in-flight count, a
    [uint32]. *)
Definition EndRequest (counter : ServiceRequestsCounter) (w : world)
    : world :=
  let w := logCall (EndRequestCalled counter) w in
  set_numRequests counter (uint32_sub (numRequests w counter) 1) w.

(** [err.Error()] *)
Definition Error_ (err : error) : string :=
  match err with
  | XdsError _ msg => msg
  | StatusError _ msg => msg
  | Errorf format => format
  end.

(** [dp.drop()]: one sample is taken from the random source. *)
Definition drop (dp : dropper) (w : world) : option bool * world :=
  (roll dp (rand w (randPos w)),
   {| child := child w; inflight := inflight w; rand := rand w;
      randPos := S (randPos w);
      pcalls := pcalls w ++ [dropCalled (dropper_c dp)] |}).

(** [for _, dp := range d.drops], with its [break]: the values of [drop]
    and [category] after the loop, or [None] when a dropper panics. *)
Fixpoint rangeDrops (ds : list dropper) (w : world)
    : option (bool * string) * world :=
  match ds with
  | [] => (Some (false, ""), w)
  | dp :: rest =>
      match drop dp w with
      | (None, w') => (None, w')
      | (Some true, w') => (Some (true, Category (dropper_c dp)), w')
      | (Some false, w') => rangeDrops rest w'
      end
  end.

(** A result of a child picker, seen from the world. *)
Definition liftDone (f : DoneInfo -> I -> I) (di : DoneInfo) (w : world)
    : world :=
  {| child := f di (child w); inflight := inflight w; rand := rand w;
     randPos := randPos w; pcalls := pcalls w |}.

Definition liftResult (pr : PickResult I) : PickResult world :=
  {| SubConn := SubConn pr;
     Done := match Done pr with
             | Some f => Some (liftDone f)
             | None => None
             end |}.

(** The [Done] callback that [dropPicker.Pick] installs. *)
Definition wrappedDone (counter : ServiceRequestsCounter)
    (oldDone : option (DoneInfo -> world -> world))
    (doneInfo : DoneInfo) (w : world) : world :=
  let w := EndRequest counter w in
  match oldDone with
  | Some f => f doneInfo (logCall (oldDoneCalled doneInfo) w)
  | None => w
  end.

Definition reportDrop (loadStore : option PerClusterReporter)
    (category : string) (w : world) : world :=
  match loadStore with
  | Some ls => logCall (CallDropped ls category) w
  | None => w
  end.

(** [Pick] of each picker; for the drop picker this is
    [dropPicker.Pick]. *)
Fixpoint Pick (pk : Picker) (info : PickInfo) (w : world)
    : result (PickResult world * option error) * world :=
  match pk with
  | ErrPicker err => (Returns (PickResult_zero, Some err), w)
  | ChildPicker pick =>
      let '((pr, err), i) := pick info (child w) in
      (Returns (liftResult pr, err),
       {| child := i; inflight := inflight w; rand := rand w;
          randPos := randPos w; pcalls := pcalls w |})
  | DropPicker d =>
      match rangeDrops (dp_drops d) w with
      | (None, w) => (Panics "interface conversion: interface is nil, not bool", w)
      | (Some (true, category), w) =>
          (Returns (PickResult_zero,
                    Some (StatusError Unavailable "RPC is dropped")),
           reportDrop (dp_loadStore d) category w)
      | (Some (false, _), w) =>
          match dp_counter d with
          | Some counter =>
              match StartRequest counter (dp_countMax d) w with
              | (Some err, w) =>
                  (Returns (PickResult_zero,
                            Some (StatusError Unavailable (Error_ err))),
                   reportDrop (dp_loadStore d) "" w)
              | (None, w) =>
                  match Pick (dp_p d) info (logCall (PickCalled info) w) with
                  | (Panics msg, w) => (Panics msg, w)
                  | (Returns (pr, Some err), w) =>
                      (Returns (pr, Some err), EndRequest counter w)
                  | (Returns (pr, None), w) =>
                      (Returns ({| SubConn := SubConn pr;
                                   Done := Some (wrappedDone counter (Done pr)) |},
                                None), w)
                  end
              end
          | None => Pick (dp_p d) info (logCall (PickCalled info) w)
          end
      end
  end.

(** [newDropPicker] *)
Definition newDropPicker (p : Picker) (drops : list dropper)
    (loadStore : option PerClusterReporter)
    (counter : option ServiceRequestsCounter) (countMax : N)
    : dropPicker Picker :=
  {| dp_drops := drops; dp_p := p; dp_loadStore := loadStore;
     dp_counter := counter; dp_countMax := countMax |}.

End Pickers.
Arguments Picker : clear implicits.
Arguments world : clear implicits.

(** ** Priorities *)

(** Modelled from the spec: [priorityType] and its methods are declared in
    a file that is not among the sources.  The spec has a priority as an
    unsigned integer, 0 the highest, with a sentinel "unset" value that is
    distinct from priority 0. *)
Record priorityType := {
  priority_set : bool;
  priority_p : N
}.

#[global] Instance priorityType_eq_dec : EqDecision priorityType.
Proof. solve_decision. Defined.

#[global] Instance priorityType_countable : Countable priorityType.
Proof.
  refine (inj_countable'
            (fun x => (priority_set x, priority_p x))
            (fun t => {| priority_set := t.1; priority_p := t.2 |}) _).
  by intros [].
Defined.

(** Modelled from the spec: a priority that is set. *)
Definition newPriorityType (p : N) : priorityType :=
  {| priority_set := true; priority_p := p |}.

(** Modelled from the spec: the sentinel "unset" value. *)
Definition newPriorityTypeUnset : priorityType :=
  {| priority_set := false; priority_p := 0 |}.

(** Modelled from the spec: whether the priority is set. *)
Definition isSet (p : priorityType) : bool := priority_set p.

(** Modelled from the spec: priority 0 is the highest, so the smaller number
    is the higher priority. *)
Definition higherThan (p p2 : priorityType) : bool :=
  (priority_p p <? priority_p p2)%N.

(** ** The state of the balancer *)

Inductive connectivityState :=
| Idle
| Connecting
| Ready
| TransientFailure
| Shutdown.

(** [resolver.Address]: [weightedroundrobin.SetAddrInfo] stores the weight
    in [Attributes], and the code stores it in [Metadata] as well. *)
Record AddrInfo := {
  AddrWeight : N
}.

Record Address := {
  Addr : string;
  Attributes : option AddrInfo;
  Metadata : option AddrInfo
}.

#[global] Instance AddrInfo_eq_dec : EqDecision AddrInfo.
Proof. solve_decision. Defined.
#[global] Instance Address_eq_dec : EqDecision Address.
Proof. solve_decision. Defined.

Record localityConfig := {
  weight : N;
  addrs : list Address
}.

(** The balancer group [bg] and the [stateAggregator] of a priority are
    collaborators: the calls on them are events that carry the priority. *)
Record balancerGroupWithConfig := {
  configs : gmap LocalityID localityConfig
}.

(** The names under which the two child policies are registered. *)
Definition roundrobin_Name : string := "round_robin".
Definition weightedroundrobin_Name : string := "weighted_round_robin".

Definition defaultServiceRequestCountMax : N := 1024.

(** Modelled from the spec: the error of the picker that is published when
    all priorities are removed is declared in a file that is not among the
    sources. *)
Definition errAllPrioritiesRemoved : error :=
  Errorf "eds: no locality is provided, all priorities are removed".

Section EDS.
Context {I : Type}.

(** [balancer.State]; the picker is [None] for nil. *)
Record balancerState := {
  ConnectivityState : connectivityState;
  StatePicker : option (Picker I)
}.

Definition balancerState_zero : balancerState :=
  {| ConnectivityState := Idle; StatePicker := None |}.

(** The calls the balancer makes on its collaborators. *)
Inductive event :=
| ccUpdateState (s : balancerState)
| aggregatorNew (priority : priorityType)
| balancergroupNew (priority : priorityType)
| aggregatorAdd (priority : priorityType) (id : string) (w : N)
| aggregatorUpdateWeight (priority : priorityType) (id : string) (w : N)
| aggregatorRemove (priority : priorityType) (id : string)
| aggregatorBuildAndUpdate (priority : priorityType)
| bgAdd (priority : priorityType) (id : string) (builder : string)
| bgUpdateClientConnState (priority : priorityType) (id : string)
    (addresses : list Address)
| bgRemove (priority : priorityType) (id : string)
| bgClose (priority : priorityType)
| priorityEvent (description : string).

Record edsBalancerImpl := {
  loadReporter : option PerClusterReporter;
  subBalancerBuilder : string;
  priorityToLocalities : gmap priorityType balancerGroupWithConfig;
  respReceived : bool;
  priorityInUse : priorityType;
  priorityLowest : priorityType;
  priorityToState : gmap priorityType balancerState;
  priorityInitTimer : option nat;
  subConnToPriority : gmap nat priorityType;
  dropConfig : list OverloadDropConfig;
  drops : list dropper;
  innerState : balancerState;
  serviceRequestsCounter : option ServiceRequestsCounter;
  serviceRequestCountMax : N
}.

Definition newEDSBalancerImpl (lr : option PerClusterReporter)
    : edsBalancerImpl :=
  {| loadReporter := lr;
     subBalancerBuilder := roundrobin_Name;
     priorityToLocalities := ∅;
     respReceived := false;
     priorityInUse := newPriorityTypeUnset;
     priorityLowest := newPriorityTypeUnset;
     priorityToState := ∅;
     priorityInitTimer := None;
     subConnToPriority := ∅;
     dropConfig := [];
     drops := [];
     innerState := balancerState_zero;
     serviceRequestsCounter := None;
     serviceRequestCountMax := defaultServiceRequestCountMax |}.

(** The fields that the priority manager owns. *)
Record priorityFields := {
  pf_priorityInUse : priorityType;
  pf_priorityToState : gmap priorityType balancerState;
  pf_priorityInitTimer : option nat
}.

(** [pkg.LocalityID.ToString] is not among the sources: it is a
    parameter, [None] standing for its error. *)
Variable ToString : LocalityID -> option string.

(** [handlePriorityChange] belongs to the priority manager, which is not
    among the sources: it is a parameter.  It reads the balancer, writes
    the fields that the priority manager owns and makes calls on the
    collaborators. *)
Variable handlePriorityChange :
  edsBalancerImpl -> priorityFields * list event.

Definition set_respReceived (b : bool) (e : edsBalancerImpl)
    : edsBalancerImpl :=
  {| loadReporter := loadReporter e;
     subBalancerBuilder := subBalancerBuilder e;
     priorityToLocalities := priorityToLocalities e;
     respReceived := b;
     priorityInUse := priorityInUse e;
     priorityLowest := priorityLowest e;
     priorityToState := priorityToState e;
     priorityInitTimer := priorityInitTimer e;
     subConnToPriority := subConnToPriority e;
     dropConfig := dropConfig e;
     drops := drops e;
     innerState := innerState e;
     serviceRequestsCounter := serviceRequestsCounter e;
     serviceRequestCountMax := serviceRequestCountMax e |}.

Definition set_drops (dc : list OverloadDropConfig) (ds : list dropper)
    (e : edsBalancerImpl) : edsBalancerImpl :=
  {| loadReporter := loadReporter e;
     subBalancerBuilder := subBalancerBuilder e;
     priorityToLocalities := priorityToLocalities e;
     respReceived := respReceived e;
     priorityInUse := priorityInUse e;
     priorityLowest := priorityLowest e;
     priorityToState := priorityToState e;
     priorityInitTimer := priorityInitTimer e;
     subConnToPriority := subConnToPriority e;
     dropConfig := dc;
     drops := ds;
     innerState := innerState e;
     serviceRequestsCounter := serviceRequestsCounter e;
     serviceRequestCountMax := serviceRequestCountMax e |}.

Definition set_priorityToLocalities
    (m : gmap priorityType balancerGroupWithConfig) (e : edsBalancerImpl)
    : edsBalancerImpl :=
  {| loadReporter := loadReporter e;
     subBalancerBuilder := subBalancerBuilder e;
     priorityToLocalities := m;
     respReceived := respReceived e;
     priorityInUse := priorityInUse e;
     priorityLowest := priorityLowest e;
     priorityToState := priorityToState e;
     priorityInitTimer := priorityInitTimer e;
     subConnToPriority := subConnToPriority e;
     dropConfig := dropConfig e;
     drops := drops e;
     innerState := innerState e;
     serviceRequestsCounter := serviceRequestsCounter e;
     serviceRequestCountMax := serviceRequestCountMax e |}.

Definition set_priorityLowest (p : priorityType) (e : edsBalancerImpl)
    : edsBalancerImpl :=
  {| loadReporter := loadReporter e;
     subBalancerBuilder := subBalancerBuilder e;
     priorityToLocalities := priorityToLocalities e;
     respReceived := respReceived e;
     priorityInUse := priorityInUse e;
     priorityLowest := p;
     priorityToState := priorityToState e;
     priorityInitTimer := priorityInitTimer e;
     subConnToPriority := subConnToPriority e;
     dropConfig := dropConfig e;
     drops := drops e;
     innerState := innerState e;
     serviceRequestsCounter := serviceRequestsCounter e;
     serviceRequestCountMax := serviceRequestCountMax e |}.

Definition set_priorityFields (pf : priorityFields) (e : edsBalancerImpl)
    : edsBalancerImpl :=
  {| loadReporter := loadReporter e;
     subBalancerBuilder := subBalancerBuilder e;
     priorityToLocalities := priorityToLocalities e;
     respReceived := respReceived e;
     priorityInUse := pf_priorityInUse pf;
     priorityLowest := priorityLowest e;
     priorityToState := pf_priorityToState pf;
     priorityInitTimer := pf_priorityInitTimer pf;
     subConnToPriority := subConnToPriority e;
     dropConfig := dropConfig e;
     drops := drops e;
     innerState := innerState e;
     serviceRequestsCounter := serviceRequestsCounter e;
     serviceRequestCountMax := serviceRequestCountMax e |}.

(** [delete(edsImpl.priorityToLocalities, p)] and
    [delete(edsImpl.priorityToState, p)] *)
Definition delete_priority (p : priorityType) (e : edsBalancerImpl)
    : edsBalancerImpl :=
  {| loadReporter := loadReporter e;
     subBalancerBuilder := subBalancerBuilder e;
     priorityToLocalities := delete p (priorityToLocalities e);
     respReceived := respReceived e;
     priorityInUse := priorityInUse e;
     priorityLowest := priorityLowest e;
     priorityToState := delete p (priorityToState e);
     priorityInitTimer := priorityInitTimer e;
     subConnToPriority := subConnToPriority e;
     dropConfig := dropConfig e;
     drops := drops e;
     innerState := innerState e;
     serviceRequestsCounter := serviceRequestsCounter e;
     serviceRequestCountMax := serviceRequestCountMax e |}.

(** ** [updateDrops] *)

Definition updateDrops (newConfig : list OverloadDropConfig)
    (e : edsBalancerImpl) : edsBalancerImpl * list event :=
  if bool_decide (newConfig = dropConfig e) then (e, [])
  else
    let newDrops :=
      fold_left (fun ds c => ds ++ [newDropper c]) newConfig [] in
    let e := set_drops newConfig newDrops e in
    match StatePicker (innerState e) with
    | Some p =>
        (e,
         [ccUpdateState
            {| ConnectivityState := ConnectivityState (innerState e);
               StatePicker :=
                 Some (DropPicker
                         (newDropPicker p newDrops (loadReporter e)
                            (serviceRequestsCounter e)
                            (serviceRequestCountMax e))) |}])
    | None => (e, [])
    end.

(** ** [handleEDSResponsePerPriority] *)

(** One iteration of [for _, lbEndpoint := range locality.Endpoints]. *)
Definition visitEndpoint (builderName : string)
    (newAddrs : list Address) (lbEndpoint : Endpoint) : list Address :=
  if negb (bool_decide (HealthStatus lbEndpoint = EndpointHealthStatusHealthy))
     && negb (bool_decide (HealthStatus lbEndpoint = EndpointHealthStatusUnknown))
  then newAddrs
  else
    let address :=
      {| Addr := xdsclient.Address lbEndpoint;
         Attributes := None; Metadata := None |} in
    let address :=
      if String.eqb builderName weightedroundrobin_Name
         && negb (EWeight lbEndpoint =? 0)%N
      then
        let ai := {| AddrWeight := EWeight lbEndpoint |} in
        {| Addr := Addr address; Attributes := Some ai;
           Metadata := Some ai |}
      else address in
    newAddrs ++ [address].

Definition newAddrsOf (builderName : string) (locality : Locality)
    : list Address :=
  fold_left (visitEndpoint builderName) (Endpoints locality) [].

(** The variables of [handleEDSResponsePerPriority] that its loops
    carry. *)
Record perPriority := {
  pp_configs : gmap LocalityID localityConfig;
  newLocalitiesSet : gset LocalityID;
  rebuildStateAndPicker : bool
}.

(** One iteration of [for _, locality := range newLocalities].  The
    config of the locality is a pointer stored in [bgwc.configs]: the
    writes to its fields are writes to the entry of the map. *)
Definition visitLocality (builderName : string) (priority : priorityType)
    (locality : Locality) (pp : perPriority) : perPriority * list event :=
  let lid := ID locality in
  match ToString lid with
  | None => (pp, [])
  | Some lidJSON =>
      let newSet := {[lid]} ∪ newLocalitiesSet pp in
      let newWeight := Weight locality in
      let newAddrs := newAddrsOf builderName locality in
      let '(config, weightChanged, addrsChanged, ev1) :=
        match pp_configs pp !! lid with
        | None =>
            ({| weight := newWeight; addrs := [] |}, false, true,
             [aggregatorAdd priority lidJSON newWeight;
              bgAdd priority lidJSON builderName])
        | Some config =>
            (config,
             negb (bool_decide (weight config = newWeight)),
             negb (bool_decide (addrs config = newAddrs)),
             [])
        end in
      let '(config, rebuild, ev2) :=
        if weightChanged : bool
        then ({| weight := newWeight; addrs := addrs config |}, true,
              [aggregatorUpdateWeight priority lidJSON newWeight])
        else (config, rebuildStateAndPicker pp, []) in
      let '(config, ev3) :=
        if addrsChanged : bool
        then ({| weight := weight config; addrs := newAddrs |},
              [bgUpdateClientConnState priority lidJSON newAddrs])
        else (config, []) in
      ({| pp_configs := <[lid := config]> (pp_configs pp);
          newLocalitiesSet := newSet;
          rebuildStateAndPicker := rebuild |},
       ev1 ++ ev2 ++ ev3)
  end.

Fixpoint rangeLocalities (builderName : string) (priority : priorityType)
    (newLocalities : list Locality) (pp : perPriority)
    : perPriority * list event :=
  match newLocalities with
  | [] => (pp, [])
  | locality :: rest =>
      let '(pp, ev1) := visitLocality builderName priority locality pp in
      let '(pp, ev2) := rangeLocalities builderName priority rest pp in
      (pp, ev1 ++ ev2)
  end.

(** One iteration of [for lid := range bgwc.configs]. *)
Definition visitConfig (priority : priorityType) (lid : LocalityID)
    (pp : perPriority) : perPriority * list event :=
  match ToString lid with
  | None => (pp, [])
  | Some lidJSON =>
      if bool_decide (lid ∈ newLocalitiesSet pp) then (pp, [])
      else
        ({| pp_configs := delete lid (pp_configs pp);
            newLocalitiesSet := newLocalitiesSet pp;
            rebuildStateAndPicker := true |},
         [aggregatorRemove priority lidJSON; bgRemove priority lidJSON])
  end.

Fixpoint rangeConfigs (priority : priorityType) (lids : list LocalityID)
    (pp : perPriority) : perPriority * list event :=
  match lids with
  | [] => (pp, [])
  | lid :: rest =>
      let '(pp, ev1) := visitConfig priority lid pp in
      let '(pp, ev2) := rangeConfigs priority rest pp in
      (pp, ev1 ++ ev2)
  end.

Definition handleEDSResponsePerPriority (ro : rangeOrder)
    (e : edsBalancerImpl) (priority : priorityType)
    (bgwc : balancerGroupWithConfig) (newLocalities : list Locality)
    : balancerGroupWithConfig * list event :=
  let pp := {| pp_configs := configs bgwc; newLocalitiesSet := ∅;
               rebuildStateAndPicker := false |} in
  let '(pp, ev1) :=
    rangeLocalities (subBalancerBuilder e) priority newLocalities pp in
  let '(pp, ev2) :=
    rangeConfigs priority (ro _ (map_to_list (pp_configs pp))).*1 pp in
  ({| configs := pp_configs pp |},
   ev1 ++ ev2 ++
   if rebuildStateAndPicker pp then [aggregatorBuildAndUpdate priority]
   else []).

(** ** [handleEDSResponse] *)

(** [newLocalitiesWithPriority]: the localities of non-zero weight,
    bucketed by priority. *)
Definition bucket (m : gmap priorityType (list Locality))
    (locality : Locality) : gmap priorityType (list Locality) :=
  if (Weight locality =? 0)%N then m
  else
    let priority := newPriorityType (Priority locality) in
    <[priority := default [] (m !! priority) ++ [locality]]> m.

Definition newLocalitiesWithPriority (edsResp : EndpointsUpdate)
    : gmap priorityType (list Locality) :=
  fold_left bucket (Localities edsResp) ∅.

(** The variables that the loop over the new priorities carries. *)
Record priorityLoop := {
  pl_impl : edsBalancerImpl;
  pl_priorityLowest : priorityType;
  pl_priorityChanged : bool
}.

(** One iteration of
    [for priority, newLocalities := range newLocalitiesWithPriority]. *)
Definition visitPriority (ro : rangeOrder)
    (entry : priorityType * list Locality) (pl : priorityLoop)
    : priorityLoop * list event :=
  let '(priority, newLocalities) := entry in
  let e := pl_impl pl in
  let lowest :=
    if negb (isSet (pl_priorityLowest pl))
       || higherThan (pl_priorityLowest pl) priority
    then priority else pl_priorityLowest pl in
  let '(bgwc, changed, ev1) :=
    match priorityToLocalities e !! priority with
    | Some bgwc => (bgwc, pl_priorityChanged pl, [])
    | None =>
        ({| configs := ∅ |}, true,
         [aggregatorNew priority; balancergroupNew priority])
    end in
  let '(bgwc, ev2) :=
    handleEDSResponsePerPriority ro e priority bgwc newLocalities in
  ({| pl_impl :=
        set_priorityToLocalities
          (<[priority := bgwc]> (priorityToLocalities e)) e;
      pl_priorityLowest := lowest;
      pl_priorityChanged := changed |},
   ev1 ++ ev2).

Fixpoint rangePriorities (ro : rangeOrder)
    (entries : list (priorityType * list Locality)) (pl : priorityLoop)
    : priorityLoop * list event :=
  match entries with
  | [] => (pl, [])
  | entry :: rest =>
      let '(pl, ev1) := visitPriority ro entry pl in
      let '(pl, ev2) := rangePriorities ro rest pl in
      (pl, ev1 ++ ev2)
  end.

(** One iteration of [for p, bgwc := range edsImpl.priorityToLocalities],
    the loop that deletes the priorities that the response removed. *)
Definition visitOldPriority
    (new : gmap priorityType (list Locality)) (p : priorityType)
    (st : edsBalancerImpl * bool) : (edsBalancerImpl * bool) * list event :=
  match new !! p with
  | Some _ => (st, [])
  | None => ((delete_priority p st.1, true), [bgClose p])
  end.

Fixpoint rangeOldPriorities (new : gmap priorityType (list Locality))
    (ps : list priorityType) (st : edsBalancerImpl * bool)
    : (edsBalancerImpl * bool) * list event :=
  match ps with
  | [] => (st, [])
  | p :: rest =>
      let '(st, ev1) := visitOldPriority new p st in
      let '(st, ev2) := rangeOldPriorities new rest st in
      (st, ev1 ++ ev2)
  end.

Definition handleEDSResponse (ro : rangeOrder) (edsResp : EndpointsUpdate)
    (e : edsBalancerImpl) : edsBalancerImpl * list event :=
  let ev0 :=
    if negb (respReceived e)
       && bool_decide (edsResp = EndpointsUpdate_zero)
    then [ccUpdateState
            {| ConnectivityState := TransientFailure;
               StatePicker := Some (ErrPicker errAllPrioritiesRemoved) |}]
    else [] in
  let e := set_respReceived true e in
  let '(e, ev1) := updateDrops (Drops edsResp) e in
  let new := newLocalitiesWithPriority edsResp in
  let '(pl, ev2) :=
    rangePriorities ro (ro _ (map_to_list new))
      {| pl_impl := e; pl_priorityLowest := newPriorityTypeUnset;
         pl_priorityChanged := false |} in
  let e := set_priorityLowest (pl_priorityLowest pl) (pl_impl pl) in
  let '((e, priorityChanged), ev3) :=
    rangeOldPriorities new
      (ro _ (map_to_list (priorityToLocalities e))).*1
      (e, pl_priorityChanged pl) in
  if priorityChanged
  then
    let '(pf, ev4) := handlePriorityChange e in
    (set_priorityFields pf e, ev0 ++ ev1 ++ ev2 ++ ev3 ++ ev4)
  else (e, ev0 ++ ev1 ++ ev2 ++ ev3).

End EDS.
Arguments balancerState : clear implicits.
Arguments event : clear implicits.
Arguments edsBalancerImpl : clear implicits.
Arguments priorityFields : clear implicits.

End edsbalancer.

(** * The remaining operations of the EDS balancer ([eds_impl.go]) *)

Module edsops.
Import xdsclient edsbalancer.

Section Ops.
Context {I : Type}.

(** The calls of these operations on their collaborators: the calls of
    [event], and those that [event] does not have.  A drop picker around a
    nil picker is not among the pickers of [Picker]: publishing one is a call
    of its own, which carries the fields of the drop picker other than the
    inner picker. *)
Inductive opEvent :=
| edsEvent (ev : event I)
| ccUpdateStateNilPicker (cs : connectivityState) (d : dropPicker unit)
| ccNewSubConn (addresses : list Address)
| bgUpdateSubConnState (priority : priorityType) (sc : nat)
    (s : connectivityState)
| aggregatorStop (priority : priorityType).

(** [pkg.LocalityID.ToString], as for [handleEDSResponse]. *)
Variable ToString : LocalityID -> option string.

(** [balancer.Get]: the registry of the balancer builders is not among the
    sources.  It is a parameter that gives the [Name()] of the builder
    registered under a name, [None] for nil. *)
Variable balancer_Get : string -> option string.

(** [handlePriorityWithNewState] belongs to the priority manager, as
    [handlePriorityChange] does: it is a parameter that reads the balancer,
    writes the fields that the priority manager owns, makes calls on the
    collaborators and tells whether the state is to be forwarded. *)
Variable handlePriorityWithNewState :
  edsBalancerImpl I -> priorityType -> balancerState I ->
  (priorityFields I * list (event I)) * bool.

Definition set_subBalancerBuilder (b : string) (e : edsBalancerImpl I)
    : edsBalancerImpl I :=
  {| loadReporter := loadReporter e;
     subBalancerBuilder := b;
     priorityToLocalities := priorityToLocalities e;
     respReceived := respReceived e;
     priorityInUse := priorityInUse e;
     priorityLowest := priorityLowest e;
     priorityToState := priorityToState e;
     priorityInitTimer := priorityInitTimer e;
     subConnToPriority := subConnToPriority e;
     dropConfig := dropConfig e;
     drops := drops e;
     innerState := innerState e;
     serviceRequestsCounter := serviceRequestsCounter e;
     serviceRequestCountMax := serviceRequestCountMax e |}.

Definition set_subConnToPriority (m : gmap nat priorityType)
    (e : edsBalancerImpl I) : edsBalancerImpl I :=
  {| loadReporter := loadReporter e;
     subBalancerBuilder := subBalancerBuilder e;
     priorityToLocalities := priorityToLocalities e;
     respReceived := respReceived e;
     priorityInUse := priorityInUse e;
     priorityLowest := priorityLowest e;
     priorityToState := priorityToState e;
     priorityInitTimer := priorityInitTimer e;
     subConnToPriority := m;
     dropConfig := dropConfig e;
     drops := drops e;
     innerState := innerState e;
     serviceRequestsCounter := serviceRequestsCounter e;
     serviceRequestCountMax := serviceRequestCountMax e |}.

Definition set_serviceRequests (counter : option ServiceRequestsCounter)
    (countMax : N) (e : edsBalancerImpl I) : edsBalancerImpl I :=
  {| loadReporter := loadReporter e;
     subBalancerBuilder := subBalancerBuilder e;
     priorityToLocalities := priorityToLocalities e;
     respReceived := respReceived e;
     priorityInUse := priorityInUse e;
     priorityLowest := priorityLowest e;
     priorityToState := priorityToState e;
     priorityInitTimer := priorityInitTimer e;
     subConnToPriority := subConnToPriority e;
     dropConfig := dropConfig e;
     drops := drops e;
     innerState := innerState e;
     serviceRequestsCounter := counter;
     serviceRequestCountMax := countMax |}.

Definition set_innerState (s : balancerState I) (e : edsBalancerImpl I)
    : edsBalancerImpl I :=
  {| loadReporter := loadReporter e;
     subBalancerBuilder := subBalancerBuilder e;
     priorityToLocalities := priorityToLocalities e;
     respReceived := respReceived e;
     priorityInUse := priorityInUse e;
     priorityLowest := priorityLowest e;
     priorityToState := priorityToState e;
     priorityInitTimer := priorityInitTimer e;
     subConnToPriority := subConnToPriority e;
     dropConfig := dropConfig e;
     drops := drops e;
     innerState := s;
     serviceRequestsCounter := serviceRequestsCounter e;
     serviceRequestCountMax := serviceRequestCountMax e |}.

(** ** [handleChildPolicy] *)

(** One iteration of [for lid, config := range bgwc.configs]. *)
Definition visitChildConfig (builderName : string) (priority : priorityType)
    (entry : LocalityID * localityConfig) : list (event I) :=
  match ToString entry.1 with
  | None => []
  | Some lidJSON =>
      [bgRemove priority lidJSON;
       bgAdd priority lidJSON builderName;
       bgUpdateClientConnState priority lidJSON (addrs entry.2)]
  end.

(** One iteration of [for _, bgwc := range edsImpl.priorityToLocalities].
    The map holds no nil pointer: the only code that stores into it stores
    a pointer to a new [balancerGroupWithConfig]. *)
Definition visitChildPriority (ro : rangeOrder) (builderName : string)
    (entry : priorityType * balancerGroupWithConfig) : list (event I) :=
  flat_map (visitChildConfig builderName entry.1)
    (ro _ (map_to_list (configs entry.2))).

(** The [json.RawMessage] argument is not used by the code. *)
Definition handleChildPolicy (ro : rangeOrder) (name : string)
    (e : edsBalancerImpl I) : edsBalancerImpl I * list (event I) :=
  if String.eqb (subBalancerBuilder e) name then (e, [])
  else
    match balancer_Get name with
    | None => (e, [])
    | Some newSubBalancerBuilder =>
        let e := set_subBalancerBuilder newSubBalancerBuilder e in
        (e,
         flat_map (visitChildPriority ro (subBalancerBuilder e))
           (ro _ (map_to_list (priorityToLocalities e))))
    end.

(** ** [handleSubConnStateChange] *)

(** The balancer group of a [balancerGroupWithConfig] is never nil: the
    only code that builds one gives it a new balancer group. *)
Definition handleSubConnStateChange (sc : nat) (s : connectivityState)
    (e : edsBalancerImpl I) : edsBalancerImpl I * list opEvent :=
  match subConnToPriority e !! sc with
  | Some p =>
      let e' :=
        match s with
        | Shutdown =>
            set_subConnToPriority (delete sc (subConnToPriority e)) e
        | _ => e
        end in
      match priorityToLocalities e !! p with
      | Some _ => (e', [bgUpdateSubConnState p sc s])
      | None => (e', [])
      end
  | None => (e, [])
  end.

(** ** [updateServiceRequestsConfig] *)

(** [env.CircuitBreakingSupport] is a parameter; [max] is [None] for nil.
    A counter is identified by the name of its service. *)
Definition updateServiceRequestsConfig (CircuitBreakingSupport : bool)
    (serviceName : string) (max : option N) (e : edsBalancerImpl I)
    : edsBalancerImpl I * list (event I) :=
  if negb CircuitBreakingSupport then (e, [])
  else
    let '(counter, updatePicker) :=
      match serviceRequestsCounter e with
      | Some c =>
          if negb (String.eqb c serviceName) then (Some serviceName, true)
          else (Some c, false)
      | None => (Some serviceName, true)
      end in
    let newMax := default defaultServiceRequestCountMax max in
    let '(countMax, updatePicker) :=
      if negb (bool_decide (serviceRequestCountMax e = newMax))
      then (newMax, true)
      else (serviceRequestCountMax e, updatePicker) in
    let e := set_serviceRequests counter countMax e in
    match (if updatePicker : bool then StatePicker (innerState e)
           else None) with
    | Some p =>
        (e,
         [ccUpdateState
            {| ConnectivityState := ConnectivityState (innerState e);
               StatePicker :=
                 Some (DropPicker
                         (newDropPicker p (drops e) (loadReporter e)
                            (serviceRequestsCounter e)
                            (serviceRequestCountMax e))) |}])
    | None => (e, [])
    end.

(** ** [updateState] *)

Definition updateState (priority : priorityType) (s : balancerState I)
    (e : edsBalancerImpl I) : edsBalancerImpl I * list opEvent :=
  match priorityToLocalities e !! priority with
  | None => (e, [])
  | Some _ =>
      let '((pf, ev), forward) :=
        handlePriorityWithNewState e priority s in
      let e := set_priorityFields pf e in
      if forward : bool then
        let e := set_innerState s e in
        (e,
         (edsEvent <$> ev) ++
         [match StatePicker s with
          | Some p =>
              edsEvent
                (ccUpdateState
                   {| ConnectivityState := ConnectivityState s;
                      StatePicker :=
                        Some (DropPicker
                                (newDropPicker p (drops e) (loadReporter e)
                                   (serviceRequestsCounter e)
                                   (serviceRequestCountMax e))) |})
          | None =>
              ccUpdateStateNilPicker (ConnectivityState s)
                {| dp_drops := drops e; dp_p := tt;
                   dp_loadStore := loadReporter e;
                   dp_counter := serviceRequestsCounter e;
                   dp_countMax := serviceRequestCountMax e |}
          end])
      else (e, edsEvent <$> ev)
  end.

(** ** [newSubConn] *)

(** [ccResult] is what [cc.NewSubConn] returns: a new SubConn or an
    error. *)
Definition newSubConn (priority : priorityType) (addresses : list Address)
    (ccResult : nat + error) (e : edsBalancerImpl I)
    : (option nat * option error) * edsBalancerImpl I * list opEvent :=
  match ccResult with
  | inr err => ((None, Some err), e, [ccNewSubConn addresses])
  | inl sc =>
      ((Some sc, None),
       set_subConnToPriority (<[sc := priority]> (subConnToPriority e)) e,
       [ccNewSubConn addresses])
  end.

(** ** [close] *)

Definition close (ro : rangeOrder) (e : edsBalancerImpl I) : list opEvent :=
  flat_map (fun entry : priorityType * balancerGroupWithConfig =>
              [aggregatorStop entry.1; edsEvent (bgClose entry.1)])
    (ro _ (map_to_list (priorityToLocalities e))).

End Ops.
Arguments opEvent : clear implicits.

End edsops.

(** * The cache lookups by name *)

Module cachefind.
Import xdsclient cache.

(** The lookups return a pointer to a copy of the entry, or nil and
    [errResourceNotFound]. *)
Definition FindListenerByName (u : UpdateCache) (name : string)
    : option ListenerUpdate * option error :=
  match LDSCache u !! name with
  | None => (None, Some errResourceNotFound)
  | Some lis => (Some lis, None)
  end.

Definition FindRouteByName (u : UpdateCache) (name : string)
    : option RouteConfigUpdate * option error :=
  match RDSCache u !! name with
  | None => (None, Some errResourceNotFound)
  | Some rt => (Some rt, None)
  end.

Definition FindClusterByName (u : UpdateCache) (name : string)
    : option ClusterUpdate * option error :=
  match CDSCache u !! name with
  | None => (None, Some errResourceNotFound)
  | Some ct => (Some ct, None)
  end.

Definition FindEndpointsByName (u : UpdateCache) (name : string)
    : option EndpointsUpdate * option error :=
  match EDSCache u !! name with
  | None => (None, Some errResourceNotFound)
  | Some es => (Some es, None)
  end.

End cachefind.

(** * Notions used in the statements *)

Module matcher_spec.
Import xdsclient resolver.

(** The domain patterns of the virtual hosts with their owners, in the
    order in which the two nested loops visit them. *)
Definition candidates (vHosts : list VirtualHost)
    : list (VirtualHost * string) :=
  flat_map (fun vh => map (pair vh) (Domains vh)) vHosts.

(** The two loops as one loop over the candidates. *)
Fixpoint scan (host : string) (cands : list (VirtualHost * string))
    (st : matchState) : option matchState :=
  match cands with
  | [] => Some st
  | (vh, domain) :: rest =>
      match visitDomain host vh domain st with
      | None => None
      | Some st' => scan host rest st'
      end
  end.

Definition matches (domain host : string) : Prop :=
  (match_ domain host).2 = true.

(** A pattern beats another one when its kind is better, or when the kinds
    are the same and it is longer. *)
Definition beats (d d' : string) : Prop :=
  (iota (matchTypeForDomain d') < iota (matchTypeForDomain d))%Z
  ∨ (iota (matchTypeForDomain d') = iota (matchTypeForDomain d)
     ∧ String.length d' < String.length d).

(** The candidate at position [i] is the best match: it matches the host,
    it beats every match seen before it, and no match seen after it beats
    it. *)
Definition bestAt (host : string) (cands : list (VirtualHost * string))
    (i : nat) (vh : VirtualHost) : Prop :=
  ∃ d, cands !! i = Some (vh, d) ∧ matches d host
    ∧ ∀ j vh' d', cands !! j = Some (vh', d') → matches d' host →
        (j < i → beats d d') ∧ (i < j → ¬ beats d' d).

(** The patterns that the code treats as invalid: the empty one, and those
    with a star that neither begin nor end with a star. *)
Definition invalidPattern (d : string) : Prop :=
  d = ""
  ∨ (strings.Contains d "*" = true
     ∧ strings.HasPrefix d "*" = false
     ∧ strings.HasSuffix d "*" = false).

(** A star in the middle of the pattern: at a position that is neither the
    first nor the last. *)
Definition starMidString (d : string) : Prop :=
  ∃ i, 0 < i ∧ S i < String.length d ∧ String.get i d = Some "*"%char.

(** The invariant of the loop after the candidates [seen]. *)
Definition scanInv (host : string) (seen : list (VirtualHost * string))
    (st : matchState) : Prop :=
  (matchVh st = None ∧ matchType st = domainMatchTypeInvalid
   ∧ ∀ vh d, (vh, d) ∈ seen → ¬ matches d host)
  ∨ (∃ i vh d, seen !! i = Some (vh, d) ∧ matchVh st = Some vh
      ∧ matchType st = matchTypeForDomain d
      ∧ matchLen st = String.length d
      ∧ matches d host
      ∧ ∀ j vh' d', seen !! j = Some (vh', d') → matches d' host →
          (j < i → beats d d') ∧ (i < j → ¬ beats d' d)).

(** ** The kinds of pattern by their shape *)

(** The pattern has a star, begins with one, ends with one. *)
Definition hasStar (d : string) : Prop := ∃ a b, d = a +:+ "*" +:+ b.
Definition beginsWithStar (d : string) : Prop := ∃ x, d = "*" +:+ x.
Definition endsWithStar (d : string) : Prop := ∃ x, d = x +:+ "*".

(** The table of the kinds.  The universal pattern is the star.  A suffix
    pattern is a star followed by a text that is not empty; a prefix pattern
    is a text that is not empty followed by a star, and does not begin with a
    star.  An exact pattern is not empty and has no star.  The remaining
    patterns are invalid: the empty one, and those with a star that neither
    begin nor end with one. *)
Definition patternKind (d : string) (k : domainMatchType) : Prop :=
  match k with
  | domainMatchTypeInvalid =>
      d = "" ∨ (hasStar d ∧ ¬ beginsWithStar d ∧ ¬ endsWithStar d)
  | domainMatchTypeUniversal => d = "*"
  | domainMatchTypeSuffix => ∃ x, x ≠ "" ∧ d = "*" +:+ x
  | domainMatchTypePrefix =>
      ∃ x, x ≠ "" ∧ d = x +:+ "*" ∧ ¬ beginsWithStar d
  | domainMatchTypeExact => d ≠ "" ∧ ¬ hasStar d
  end.

(** When a pattern matches a host: the universal pattern always; a suffix
    pattern when the host ends with the text after the star; a prefix
    pattern when the host begins with the text before the star; an exact
    pattern when the host is equal to it; an invalid pattern never. *)
Definition patternMatches (d host : string) : Prop :=
  d = "*"
  ∨ (∃ x, x ≠ "" ∧ d = "*" +:+ x ∧ ∃ t, host = t +:+ x)
  ∨ (∃ x, x ≠ "" ∧ d = x +:+ "*" ∧ ¬ beginsWithStar d
          ∧ ∃ t, host = x +:+ t)
  ∨ (d ≠ "" ∧ ¬ hasStar d ∧ host = d).

(** Exact > Suffix > Prefix > Universal. *)
Definition kindRank (k : domainMatchType) : nat :=
  match k with
  | domainMatchTypeExact => 4
  | domainMatchTypeSuffix => 3
  | domainMatchTypePrefix => 2
  | domainMatchTypeUniversal => 1
  | domainMatchTypeInvalid => 0
  end.

(** A pattern outranks another one when its kind is better, or when the
    kinds are the same and it is longer. *)
Definition outranks (d d' : string) : Prop :=
  ∃ k k', patternKind d k ∧ patternKind d' k'
    ∧ (kindRank k' < kindRank k
       ∨ (k' = k ∧ String.length d' < String.length d)).

(** The candidate at position [i] is the best match: it matches the host,
    it outranks every match before it, and no match after it outranks it. *)
Definition bestMatchAt (host : string) (cands : list (VirtualHost * string))
    (i : nat) (vh : VirtualHost) : Prop :=
  ∃ d, cands !! i = Some (vh, d) ∧ patternMatches d host
    ∧ ∀ j vh' d', cands !! j = Some (vh', d') → patternMatches d' host →
        (j < i → outranks d d') ∧ (i < j → ¬ outranks d' d).

End matcher_spec.

Module parse_spec.
Import xdsclient xdspb.

(** The priorities that appear across the localities of a message. *)
Definition prioritiesOf (m : ClusterLoadAssignment) : gset N :=
  list_to_set (LLE_Priority <$> CLA_Endpoints m).

(** A set of [n] distinct priorities is the dense prefix when it is exactly
    the set of the numbers below [n]. *)
Definition densePrefix (ps : gset N) : Prop :=
  ∀ i : N, i ∈ ps ↔ (i < N.of_nat (size ps))%N.

(** The endpoint that an [LbEndpoint] is parsed to. *)
Definition parsedEndpoint (lb : LbEndpoint) : Endpoint :=
  {| HealthStatus := LE_HealthStatus lb;
     Address := edsparse.parseAddress (LE_SocketAddress lb);
     EWeight := default 0%N (LE_LoadBalancingWeight lb) |}.

(** A parsed locality carries the ID, endpoints, weight and priority of the
    locality of the message. *)
Definition parsedFrom (locality : LocalityLbEndpoints)
    (parsed : xdsclient.Locality) : Prop :=
  ∃ l, LLE_Locality locality = Some l
    ∧ ID parsed = {| Region := L_Region l; Zone := L_Zone l;
                     SubZone := L_SubZone l |}
    ∧ Endpoints parsed = parsedEndpoint <$> LbEndpoints locality
    ∧ Weight parsed = default 0%N (LoadBalancingWeight locality)
    ∧ Priority parsed = LLE_Priority locality.

(** The drop policies of a message; the getters of a nil policy return
    none. *)
Definition dropOverloadsOf (m : ClusterLoadAssignment) : list DropOverload :=
  match CLA_Policy m with
  | Some pol => DropOverloads pol
  | None => []
  end.

End parse_spec.

Module pick_spec.
Import xdsclient edsbalancer.

Section PickSpec.
Context {I : Type}.

(** Every dropper of [ds] rolls false, the one at position [i] on the
    [i]-th sample from the current position of the random source. *)
Definition allRollFalse (ds : list dropper) (w : world I) : Prop :=
  ∀ i dp, ds !! i = Some dp → roll dp (rand w (randPos w + i)) = Some false.

(** The calls that consult the droppers [ds], in order. *)
Definition rolls (ds : list dropper) : list pickCall :=
  (fun dp => dropCalled (dropper_c dp)) <$> ds.

(** The world after the droppers [ds] have been consulted. *)
Definition afterRolls (ds : list dropper) (w : world I) : world I :=
  {| child := child w; inflight := inflight w; rand := rand w;
     randPos := randPos w + length ds;
     pcalls := pcalls w ++ rolls ds |}.

(** A picker that is not itself a drop picker: the error picker, or a picker
    of the child balancers. *)
Definition leafPicker (pk : Picker I) : Prop :=
  match pk with
  | DropPicker _ => False
  | _ => True
  end.

(** The world in which the inner picker is called when no dropper of [ds]
    drops and [StartRequest] on the counter [c] succeeds. *)
Definition atInnerPick (ds : list dropper) (c : ServiceRequestsCounter)
    (max : N) (info : PickInfo) (w : world I) : world I :=
  logCall (PickCalled info)
    (set_numRequests c (uint32 (numRequests w c + 1))
       (logCall (StartRequestCalled c max) (afterRolls ds w))).

(** The calls on the load reporter for one drop. *)
Definition dropReport (loadStore : option PerClusterReporter)
    (category : string) : list pickCall :=
  match loadStore with
  | Some ls => [CallDropped ls category]
  | None => []
  end.

End PickSpec.
End pick_spec.

Module eds_spec.
Import xdsclient edsbalancer.

(** The endpoints that are used: those whose health is Healthy or Unknown. *)
Definition healthy (ep : Endpoint) : Prop :=
  HealthStatus ep = EndpointHealthStatusHealthy
  ∨ HealthStatus ep = EndpointHealthStatusUnknown.

#[global] Instance healthy_dec ep : Decision (healthy ep).
Proof. unfold healthy. apply _. Defined.

(** The address forwarded for an endpoint under the child policy
    [builderName]: it has the address of the endpoint, and it carries weight
    information exactly when the child policy is weighted round robin and the
    weight of the endpoint is not zero; the weight it carries is that of the
    endpoint. *)
Definition forwardedFor (builderName : string) (ep : Endpoint) (a : Address)
    : Prop :=
  Addr a = xdsclient.Address ep
  ∧ ((Attributes a ≠ None ∨ Metadata a ≠ None)
     ↔ (builderName = weightedroundrobin_Name ∧ EWeight ep ≠ 0%N))
  ∧ (Attributes a ≠ None ↔ Metadata a ≠ None)
  ∧ ∀ ai, Attributes a = Some ai ∨ Metadata a = Some ai →
          AddrWeight ai = EWeight ep.

(** The address list of a locality: one address for each healthy endpoint,
    in order, and nothing else. *)
Definition forwardedOK (builderName : string) (l : Locality)
    (addresses : list Address) : Prop :=
  Forall2 (forwardedFor builderName) (filter healthy (Endpoints l)) addresses.

(** The config that a locality has once the response is applied: its weight
    and its address list. *)
Definition exactCfg (builderName : string) (l : Locality) : localityConfig :=
  {| weight := Weight l; addrs := newAddrsOf builderName l |}.

Section EDSSpec.
Context {I : Type}.
Variable ToString : LocalityID -> option string.

(** The configs hold, for every locality of the list, its weight and its
    address list. *)
Definition exactOn (builderName : string) (ls : list Locality)
    (cfgs : gmap LocalityID localityConfig) : Prop :=
  ∀ l, l ∈ ls → is_Some (ToString (ID l)) →
       cfgs !! ID l = Some (exactCfg builderName l).

(** The localities that go into the bucket of a priority: those of non-zero
    weight with that priority. *)
Definition inBucket (p : priorityType) (l : Locality) : Prop :=
  Weight l ≠ 0%N ∧ newPriorityType (Priority l) = p.

#[global] Instance inBucket_dec p l : Decision (inBucket p l).
Proof. unfold inBucket. apply _. Defined.

(** No two localities of the same priority (and of non-zero weight) share an
    ID. *)
Definition uniqueIDs (edsResp : EndpointsUpdate) : Prop :=
  ∀ p ls, newLocalitiesWithPriority edsResp !! p = Some ls →
          NoDup (ID <$> ls).

(** The Add and Remove operations on a balancer group or an aggregator. *)
Definition isAddOrRemove (ev : event I) : Prop :=
  match ev with
  | aggregatorAdd _ _ _ | aggregatorRemove _ _
  | bgAdd _ _ _ | bgRemove _ _ => True
  | _ => False
  end.

(** The IDs of the localities of a list that [ToString] accepts. *)
Definition okLids (ls : list Locality) : gset LocalityID :=
  list_to_set (filter (fun lid => is_Some (ToString lid)) (ID <$> ls)).

(** The configs of a priority are settled for a list of localities when they
    hold an entry for every locality of the list and, [ToString] failures
    apart, for nothing else. *)
Definition settled (ls : list Locality)
    (cfgs : gmap LocalityID localityConfig) : Prop :=
  (∀ lid, lid ∈ okLids ls → is_Some (cfgs !! lid))
  ∧ (∀ lid, is_Some (cfgs !! lid) → is_Some (ToString lid) →
            lid ∈ okLids ls).

(** The balancer is settled for an update when it knows exactly the
    priorities of the update and the configs of each are settled for the
    localities of that priority. *)
Definition settledFor (edsResp : EndpointsUpdate) (e : edsBalancerImpl I)
    : Prop :=
  (∀ p, is_Some (priorityToLocalities e !! p)
        ↔ is_Some (newLocalitiesWithPriority edsResp !! p))
  ∧ ∀ p ls bgwc,
      newLocalitiesWithPriority edsResp !! p = Some ls →
      priorityToLocalities e !! p = Some bgwc →
      settled ls (configs bgwc).

(** The state that the first empty update publishes. *)
Definition allPrioritiesRemovedState : balancerState I :=
  {| ConnectivityState := TransientFailure;
     StatePicker := Some (ErrPicker errAllPrioritiesRemoved) |}.

End EDSSpec.
End eds_spec.

Module watcher_spec.
Import xdsclient resolver.

(** What may happen to a watcher: the xDS client delivers an LDS or an RDS
    callback, or the owner closes it. *)
Inductive stimulus :=
| deliverLDS (update : ListenerUpdate) (err : option error)
| deliverRDS (update : RouteConfigUpdate) (err : option error)
| callClose.

Definition react (cf : watcherConf) (st : stimulus) : watcherConf :=
  match st with
  | deliverLDS update err => handleLDSResp update err cf
  | deliverRDS update err => handleRDSResp update err cf
  | callClose => close cf
  end.

Definition reactAll (sts : list stimulus) (cf : watcherConf) : watcherConf :=
  fold_left react sts cf.

(** The calls of the service callback among the calls made. *)
Definition serviceCalls (cs : list call) : list call :=
  omap (fun c => match c with serviceCb _ _ => Some c | _ => None end) cs.

(** The RDS watches that were cancelled, in the order of the cancellations,
    and the number of RDS watches that were started. *)
Definition cancelledWatches (cs : list call) : list nat :=
  omap (fun c => match c with rdsCancelCalled k => Some k | _ => None end) cs.

Definition startedWatches (cs : list call) : nat :=
  length (omap (fun c => match c with
                         | WatchRouteConfig n => Some n
                         | _ => None
                         end) cs).

(** The bookkeeping of the RDS watches: the client has started as many
    watches as there are [WatchRouteConfig] calls, no watch was cancelled
    twice, the watches that were cancelled are exactly the started ones
    other than the one whose cancel function the watcher holds, and that one
    is the watch started last. *)
Definition watchesAccounted (cf : watcherConf) : Prop :=
  rdsWatches cf = startedWatches (calls cf)
  ∧ NoDup (cancelledWatches (calls cf))
  ∧ (∀ j, j ∈ cancelledWatches (calls cf)
          ↔ j < rdsWatches cf ∧ rdsCancel (watcher cf) ≠ Some j)
  ∧ (∀ k, rdsCancel (watcher cf) = Some k → S k = rdsWatches cf).

(** The calls that a list of stimuli makes on a watcher that is closed: a
    call of [close] cancels the LDS watch again, and nothing else is done. *)
Definition closeCalls (sts : list stimulus) : list call :=
  omap (fun st => match st with
                  | callClose => Some ldsCancelCalled
                  | _ => None
                  end) sts.

(** A virtual host that serves the service: one of its domain patterns
    matches the name of the service. *)
Definition serves (name : string) (vh : VirtualHost) : Prop :=
  ∃ d, d ∈ Domains vh ∧ matcher_spec.patternMatches d name.

(** What a report to the service callback may carry: with an error, the zero
    update; without one, no virtual host or one that serves the service. *)
Definition soundReport (name : string) (u : serviceUpdate)
    (err : option error) : Prop :=
  match err with
  | Some _ => u = serviceUpdate_zero
  | None => ∀ vh, virtualHost u = Some vh → serves name vh
  end.

(** The reports of a watcher are sound, and so is what it remembers. *)
Definition soundWatcher (name : string) (cf : watcherConf) : Prop :=
  serviceName (watcher cf) = name
  ∧ (∀ vh, virtualHost (lastUpdate (watcher cf)) = Some vh → serves name vh)
  ∧ ∀ u err, serviceCb u err ∈ calls cf → soundReport name u err.

End watcher_spec.

Module eds_life.
Import xdsclient edsbalancer edsops.

Section EDSLife.
Context {I : Type}.
Variable ToString : LocalityID -> option string.

(** The fields that [handleEDSResponse] has no business with. *)
Definition untouched (e : edsBalancerImpl I) :=
  (loadReporter e, subBalancerBuilder e, subConnToPriority e, innerState e,
   serviceRequestsCounter e, serviceRequestCountMax e).

(** The lowest of the priorities [seen], as the loop over the new priorities
    tracks it: unset as long as no priority was seen. *)
Definition lowestOf (seen : list priorityType) (lowest : priorityType)
    : Prop :=
  (seen = [] ∧ lowest = newPriorityTypeUnset)
  ∨ (isSet lowest = true ∧ lowest ∈ seen
     ∧ ∀ p, p ∈ seen → (priority_p p ≤ priority_p lowest)%N).

(** [handleEDSResponse] up to the call of [handlePriorityChange]: the
    balancer, the flag [priorityChanged] and the calls made so far. *)
Definition responseCore (ro : rangeOrder) (edsResp : EndpointsUpdate)
    (e : edsBalancerImpl I) : (edsBalancerImpl I * bool) * list (event I) :=
  let ev0 :=
    if negb (respReceived e)
       && bool_decide (edsResp = EndpointsUpdate_zero)
    then [ccUpdateState
            {| ConnectivityState := TransientFailure;
               StatePicker := Some (ErrPicker errAllPrioritiesRemoved) |}]
    else [] in
  let e := set_respReceived true e in
  let '(e, ev1) := updateDrops (Drops edsResp) e in
  let new := newLocalitiesWithPriority edsResp in
  let '(pl, ev2) :=
    rangePriorities ToString ro (ro _ (map_to_list new))
      {| pl_impl := e; pl_priorityLowest := newPriorityTypeUnset;
         pl_priorityChanged := false |} in
  let e := set_priorityLowest (pl_priorityLowest pl) (pl_impl pl) in
  let '(st, ev3) :=
    rangeOldPriorities new
      (ro _ (map_to_list (priorityToLocalities e))).*1
      (e, pl_priorityChanged pl) in
  (st, ev0 ++ ev1 ++ ev2 ++ ev3).

(** The lowest priority is kept: it is unset exactly when the balancer knows
    no priority, and otherwise it is the known priority with the largest
    number. *)
Definition lowestKnown (e : edsBalancerImpl I) : Prop :=
  (priorityToLocalities e = ∅ ∧ priorityLowest e = newPriorityTypeUnset)
  ∨ (isSet (priorityLowest e) = true
     ∧ is_Some (priorityToLocalities e !! priorityLowest e)
     ∧ ∀ p, is_Some (priorityToLocalities e !! p) →
            (priority_p p ≤ priority_p (priorityLowest e))%N).

(** What the balancer has to show to its ClientConn: the picker of its
    inner state inside a drop picker with the droppers, the load reporter,
    the counter and the maximum that the balancer holds; nothing as long as
    the inner state has no picker. *)
Definition published (e : edsBalancerImpl I) : list (event I) :=
  match StatePicker (innerState e) with
  | Some p =>
      [ccUpdateState
         {| ConnectivityState := ConnectivityState (innerState e);
            StatePicker :=
              Some (DropPicker
                      (newDropPicker p (drops e) (loadReporter e)
                         (serviceRequestsCounter e)
                         (serviceRequestCountMax e))) |}]
  | None => []
  end.

(** The collaborators that are parameters of the operations. *)
Variable handlePriorityChange :
  edsBalancerImpl I -> priorityFields I * list (event I).
Variable balancer_Get : string -> option string.
Variable CircuitBreakingSupport : bool.
Variable handlePriorityWithNewState :
  edsBalancerImpl I -> priorityType -> balancerState I ->
  (priorityFields I * list (event I)) * bool.

(** The operations on a balancer, with the choices of the run time (the
    order of the map iterations) and of the collaborators (what
    [cc.NewSubConn] returns). *)
Inductive op :=
| HandleEDSResponse (ro : rangeOrder) (edsResp : EndpointsUpdate)
| HandleChildPolicy (ro : rangeOrder) (name : string)
| UpdateServiceRequestsConfig (serviceName : string) (max : option N)
| UpdateState (priority : priorityType) (s : balancerState I)
| HandleSubConnStateChange (sc : nat) (s : connectivityState)
| NewSubConn (priority : priorityType) (addresses : list Address)
    (ccResult : nat + error).

(** The balancer after an operation. *)
Definition after (e : edsBalancerImpl I) (o : op) : edsBalancerImpl I :=
  match o with
  | HandleEDSResponse ro edsResp =>
      (handleEDSResponse ToString handlePriorityChange ro edsResp e).1
  | HandleChildPolicy ro name =>
      (handleChildPolicy ToString balancer_Get ro name e).1
  | UpdateServiceRequestsConfig serviceName max =>
      (updateServiceRequestsConfig CircuitBreakingSupport serviceName max e).1
  | UpdateState priority s =>
      (updateState handlePriorityWithNewState priority s e).1
  | HandleSubConnStateChange sc s => (handleSubConnStateChange sc s e).1
  | NewSubConn priority addresses ccResult =>
      (newSubConn priority addresses ccResult e).1.2
  end.

Definition afterAll (ops : list op) (e : edsBalancerImpl I)
    : edsBalancerImpl I :=
  fold_left after ops e.

(** The drop policies of the last response among the operations; none
    before the first response. *)
Definition lastDrops (ops : list op) : list OverloadDropConfig :=
  fold_left (fun dc o => match o with
                         | HandleEDSResponse _ edsResp => Drops edsResp
                         | _ => dc
                         end) ops [].

(** The map iterations of an operation visit every entry once. *)
Definition fairOp (o : op) : Prop :=
  match o with
  | HandleEDSResponse ro _ | HandleChildPolicy ro _ => rangeOrder_valid ro
  | _ => True
  end.

End EDSLife.
End eds_life.

(** * Concrete inputs for the examples *)

Module fixtures.
Import xdsclient edsbalancer.

(** A world in which every sample of the random source is [raw]. *)
Definition constWorld (raw : N) : world unit :=
  {| child := tt; inflight := ∅; rand := fun _ => raw; randPos := 0;
     pcalls := [] |}.

Definition throttle : OverloadDropConfig :=
  {| Category := "throttle"; Numerator := 50; Denominator := 100 |}.

(** A [ToString] that joins the three fields, and a priority handler that
    leaves the fields of the priority manager as they are. *)
Definition joinID (lid : LocalityID) : option string :=
  Some (Region lid +:+ "/" +:+ Zone lid +:+ "/" +:+ SubZone lid).

Definition keepPriority (e : edsBalancerImpl unit)
    : priorityFields unit * list (event unit) :=
  ({| pf_priorityInUse := priorityInUse e;
      pf_priorityToState := priorityToState e;
      pf_priorityInitTimer := priorityInitTimer e |},
   [priorityEvent "handlePriorityChange"]).

Definition endpoint (a : string) (health : Z) (w : N) : Endpoint :=
  {| xdsclient.Address := a; HealthStatus := health; EWeight := w |}.

Definition locality (region : string) (p w : N) (eps : list Endpoint)
    : Locality :=
  {| Endpoints := eps;
     ID := {| Region := region; Zone := "z"; SubZone := "s" |};
     Priority := p; Weight := w |}.

(** Two priorities; one endpoint is unhealthy and one locality has weight
    zero. *)
Definition update : EndpointsUpdate :=
  {| Drops := [throttle];
     Localities :=
       [locality "a" 0 1
          [endpoint "1.1.1.1:80" EndpointHealthStatusHealthy 3;
           endpoint "1.1.1.2:80" EndpointHealthStatusUnhealthy 3;
           endpoint "1.1.1.3:80" EndpointHealthStatusUnknown 0];
        locality "b" 1 2 [endpoint "2.2.2.2:80" EndpointHealthStatusHealthy 0];
        locality "c" 0 0 []] |}.

(** The locality [a] twice under priority 0, with the weights 1 and 2. *)
Definition updateTwice : EndpointsUpdate :=
  {| Drops := [];
     Localities := [locality "a" 0 1 []; locality "a" 0 2 []] |}.

End fixtures.

Module more_fixtures.
Import xdsclient edsbalancer edsops eds_life fixtures.

(** A registry with the two child policies, each under its name. *)
Definition registry (name : string) : option string :=
  if String.eqb name roundrobin_Name then Some roundrobin_Name
  else if String.eqb name weightedroundrobin_Name
       then Some weightedroundrobin_Name
       else None.

(** A priority manager that records the state and has it forwarded. *)
Definition forwardState (e : edsBalancerImpl unit) (p : priorityType)
    (s : balancerState unit)
    : (priorityFields unit * list (event unit)) * bool :=
  (({| pf_priorityInUse := priorityInUse e;
       pf_priorityToState := <[p := s]> (priorityToState e);
       pf_priorityInitTimer := priorityInitTimer e |},
    [priorityEvent "handlePriorityWithNewState"]), true).

(** The picker of a child that always picks the SubConn 7. *)
Definition readyPicker : Picker unit :=
  ChildPicker (fun _ i => (({| SubConn := Some 7; Done := None |}, None), i)).

Definition readyState : balancerState unit :=
  {| ConnectivityState := Ready; StatePicker := Some readyPicker |}.

(** The balancer after the response [update]. *)
Definition updated : edsBalancerImpl unit :=
  (handleEDSResponse joinID keepPriority rangeOrder_id update
     (newEDSBalancerImpl None)).1.

(** A life of a balancer: a response, a circuit breaking configuration, a
    change of the child policy and a response without drop policies. *)
Definition life : list (op (I:=unit)) :=
  [HandleEDSResponse rangeOrder_id update;
   UpdateServiceRequestsConfig "svc" None;
   HandleChildPolicy rangeOrder_id weightedroundrobin_Name;
   HandleEDSResponse rangeOrder_id updateTwice].

End more_fixtures.

(** * Go strings: what the prefix and suffix tests mean *)

Section StringFacts.

Lemma substring_0_length (s : string) :
  String.substring 0 (String.length s) s = s.
Proof. induction s as [|a s IH]; simpl; [done|by rewrite IH]. Qed.

Lemma substring_0_length_app (p t : string) :
  String.substring 0 (String.length p) (p +:+ t) = p.
Proof.
  induction p as [|a p IH]; simpl; [by destruct t|by rewrite IH].
Qed.

Lemma substring_length_app (p t : string) (m : nat) :
  String.substring (String.length p) m (p +:+ t) = String.substring 0 m t.
Proof. induction p as [|a p IH]; simpl; [done|exact IH]. Qed.

Lemma string_length_app (p t : string) :
  String.length (p +:+ t) = String.length p + String.length t.
Proof. induction p as [|a p IH]; simpl; [done|by rewrite IH]. Qed.

Lemma substring_0_inv (p s : string) :
  String.substring 0 (String.length p) s = p → ∃ t, s = p +:+ t.
Proof.
  revert s. induction p as [|a p IH]; intros s Hs.
  - by exists s.
  - destruct s as [|b s]; simpl in Hs; [done|].
    injection Hs as -> Hs. destruct (IH s Hs) as [t ->]. by exists t.
Qed.

Lemma substring_split (k : nat) (s : string) :
  k ≤ String.length s →
  ∃ t, s = t +:+ String.substring k (String.length s - k) s.
Proof.
  revert s. induction k as [|k IH]; intros s Hk.
  - exists "". simpl. by rewrite Nat.sub_0_r, substring_0_length.
  - destruct s as [|a s]; simpl in Hk; [lia|].
    destruct (IH s ltac:(lia)) as [t Ht].
    exists (String a t).
    change (String a s
            = String a (t +:+ String.substring k (String.length s - k) s)).
    by rewrite <- Ht.
Qed.

(** [strings.HasPrefix] and [strings.HasSuffix] as the model has them. *)
Lemma HasPrefix_spec (s pre : string) :
  strings.HasPrefix s pre = true ↔ ∃ t, s = pre +:+ t.
Proof.
  unfold strings.HasPrefix. rewrite andb_true_iff, String.eqb_eq. split.
  - intros [_ Hs]. by apply substring_0_inv.
  - intros [t ->]. split; [|apply substring_0_length_app].
    apply Nat.leb_le. rewrite string_length_app. lia.
Qed.

Lemma HasSuffix_spec (s suf : string) :
  strings.HasSuffix s suf = true ↔ ∃ t, s = t +:+ suf.
Proof.
  unfold strings.HasSuffix. rewrite andb_true_iff, String.eqb_eq. split.
  - intros [Hle Hs]. apply Nat.leb_le in Hle.
    destruct (substring_split (String.length s - String.length suf) s)
      as [t Ht]; [lia|].
    replace (String.length s - (String.length s - String.length suf))
      with (String.length suf) in Ht by lia.
    rewrite Hs in Ht. by exists t.
  - intros [t ->]. rewrite string_length_app. split.
    + apply Nat.leb_le. lia.
    + replace (String.length t + String.length suf - String.length suf)
        with (String.length t) by lia.
      by rewrite substring_length_app, substring_0_length.
Qed.

Lemma TrimPrefix_app (p t : string) : strings.TrimPrefix (p +:+ t) p = t.
Proof.
  unfold strings.TrimPrefix.
  rewrite (proj2 (HasPrefix_spec (p +:+ t) p)) by (by exists t).
  rewrite string_length_app.
  replace (String.length p + String.length t - String.length p)
    with (String.length t) by lia.
  by rewrite substring_length_app, substring_0_length.
Qed.

Lemma TrimSuffix_app (t suf : string) : strings.TrimSuffix (t +:+ suf) suf = t.
Proof.
  unfold strings.TrimSuffix.
  rewrite (proj2 (HasSuffix_spec (t +:+ suf) suf)) by (by exists t).
  rewrite string_length_app.
  replace (String.length t + String.length suf - String.length suf)
    with (String.length t) by lia.
  apply substring_0_length_app.
Qed.

Lemma substring_1_split (m : nat) (c : ascii) (s : string) :
  String.substring m 1 s = String c "" → ∃ a b, s = a +:+ String c b.
Proof.
  revert s. induction m as [|m IH]; intros s Hs.
  - destruct s as [|c' s']; simpl in Hs; [done|].
    exists "", s'. destruct s'; by injection Hs as ->.
  - destruct s as [|c' s']; simpl in Hs; [done|].
    destruct (IH s' Hs) as (a & b & ->). by exists (String c' a), b.
Qed.

Lemma string_app_nil_r (s : string) : s +:+ "" = s.
Proof.
  induction s as [|a s IH]; [done|].
  change (String a (s +:+ "") = String a s). by rewrite IH.
Qed.

(** [strings.Contains] with a pattern of one character. *)
Lemma Contains_spec (s : string) (c : ascii) :
  strings.Contains s (String c "") = true ↔ ∃ a b, s = a +:+ String c b.
Proof.
  unfold strings.Contains.
  destruct (String.index 0 (String c "") s) as [m|] eqn:Hi.
  - split; [intros _|done].
    apply String.index_correct1 in Hi. by eapply substring_1_split.
  - split; [done|]. intros (a & b & ->). exfalso.
    apply (String.index_correct3 0 (String.length a)) in Hi; [|done|lia].
    apply Hi. simpl String.length. rewrite substring_length_app.
    simpl. by destruct b.
Qed.

End StringFacts.

(** * The domain matcher: proofs *)

Section MatcherProofs.
Import xdsclient resolver matcher_spec.

Lemma match_fst domain host :
  (match_ domain host).1 = matchTypeForDomain domain.
Proof. unfold match_. by destruct (matchTypeForDomain domain). Qed.

Lemma iota_inj t t' : iota t = iota t' → t = t'.
Proof. by destruct t, t'. Qed.

Lemma visitDomain_invalid host vh d st :
  matchTypeForDomain d = domainMatchTypeInvalid →
  visitDomain host vh d st = None.
Proof.
  intros Hd. unfold visitDomain.
  destruct (match_ d host) as [typ matched] eqn:Hm.
  pose proof (match_fst d host) as Hf. rewrite Hm in Hf. simpl in Hf.
  rewrite Hf, Hd. by rewrite decide_True.
Qed.

(** What one iteration does on a valid pattern: the state changes exactly
    when the pattern matches and beats the current best. *)
Lemma visitDomain_valid host vh d st :
  matchTypeForDomain d ≠ domainMatchTypeInvalid →
  (visitDomain host vh d st = Some st
   ∧ (¬ matches d host
      ∨ (iota (matchTypeForDomain d) < iota (matchType st))%Z
      ∨ (iota (matchTypeForDomain d) = iota (matchType st)
         ∧ String.length d ≤ matchLen st)))
  ∨ (visitDomain host vh d st
       = Some {| matchVh := Some vh; matchType := matchTypeForDomain d;
                 matchLen := String.length d |}
     ∧ matches d host
     ∧ ((iota (matchType st) < iota (matchTypeForDomain d))%Z
        ∨ (iota (matchType st) = iota (matchTypeForDomain d)
           ∧ matchLen st < String.length d))).
Proof.
  intros Hd. unfold visitDomain, matches.
  destruct (match_ d host) as [typ matched] eqn:Hm.
  pose proof (match_fst d host) as Hf. rewrite Hm in Hf. simpl in Hf.
  subst typ. rewrite decide_False by done. simpl.
  unfold betterThan.
  destruct (Z.ltb_spec (iota (matchTypeForDomain d)) (iota (matchType st)))
    as [Hlt|Hge]; simpl.
  { left. split; [done|]. right. by left. }
  destruct (bool_decide_reflect (matchType st = matchTypeForDomain d))
    as [Heq|Hne]; simpl.
  - destruct (Nat.leb_spec (String.length d) (matchLen st)) as [Hle|Hgt];
      simpl.
    + left. split; [done|]. right. right. by rewrite Heq.
    + destruct matched; simpl.
      * right. split_and!; [done|done|]. right. rewrite Heq. by split.
      * left. split; [done|]. by left.
  - destruct matched; simpl.
    + right. split_and!; [done|done|]. left.
      assert (iota (matchType st) ≠ iota (matchTypeForDomain d))
        by (intros H; by apply iota_inj in H).
      lia.
    + left. split; [done|]. by left.
Qed.

Lemma rangeDomains_scan host vh ds st :
  rangeDomains host vh ds st = scan host (map (pair vh) ds) st.
Proof.
  revert st. induction ds as [|d ds IH]; intros st; simpl; [done|].
  destruct (visitDomain host vh d st); [apply IH|done].
Qed.

Lemma scan_app host l1 l2 st :
  scan host (l1 ++ l2) st
  = match scan host l1 st with
    | Some st' => scan host l2 st'
    | None => None
    end.
Proof.
  revert st. induction l1 as [|[vh d] l1 IH]; intros st; simpl; [done|].
  destruct (visitDomain host vh d st); [apply IH|done].
Qed.

Lemma rangeVHosts_scan host vHosts st :
  rangeVHosts host vHosts st = scan host (candidates vHosts) st.
Proof.
  revert st. induction vHosts as [|vh vHosts IH]; intros st; simpl; [done|].
  rewrite scan_app, rangeDomains_scan.
  destruct (scan host (map (pair vh) (Domains vh)) st); [apply IH|done].
Qed.

Lemma scan_invalid host cands st vh d :
  (vh, d) ∈ cands →
  matchTypeForDomain d = domainMatchTypeInvalid →
  scan host cands st = None.
Proof.
  revert st. induction cands as [|[vh' d'] cands IH]; intros st Hin Hd.
  { by apply elem_of_nil in Hin. }
  simpl. apply elem_of_cons in Hin as [Heq|Hin].
  - injection Heq as <- <-. by rewrite visitDomain_invalid.
  - destruct (visitDomain host vh' d' st); [by apply IH|done].
Qed.

Lemma scanInv_step host seen vh d st :
  matchTypeForDomain d ≠ domainMatchTypeInvalid →
  scanInv host seen st →
  ∃ st', visitDomain host vh d st = Some st'
         ∧ scanInv host (seen ++ [(vh, d)]) st'.
Proof.
  intros Hd Hinv.
  destruct (visitDomain_valid host vh d st Hd)
    as [[Hv Hwhy]|(Hv & Hm & Hwhy)]; rewrite Hv; eexists; (split; [done|]).
  - (* the state is kept *)
    destruct Hinv as [(Hvh & Hty & Hnone)
                     |(i & vh0 & d0 & Hi & Hvh & Hty & Hlen & Hm0 & Hbest)].
    + left. split_and!; [done|done|].
      intros vh' d' Hin.
      apply elem_of_app in Hin as [Hin|Hin]; [by eapply Hnone|].
      apply list_elem_of_singleton in Hin. injection Hin as -> ->.
      destruct Hwhy as [Hn|[Hlt|[Heq _]]]; [done|..];
        rewrite Hty in *; simpl in *;
        destruct (matchTypeForDomain d); simpl in *; (done || lia).
    + right. exists i, vh0, d0.
      pose proof (lookup_lt_Some _ _ _ Hi) as Hilt.
      split_and!; [by rewrite lookup_app_l|done|done|done|done|].
      intros j vh' d' Hj Hmj.
      destruct (decide (j < length seen)) as [Hlt|Hge].
      { rewrite lookup_app_l in Hj by done. by eapply Hbest. }
      split; [lia|]. intros _.
      rewrite lookup_app_r in Hj by lia.
      destruct (j - length seen) as [|n] eqn:Hj'; [|by destruct n].
      simpl in Hj. injection Hj as <- <-.
      unfold beats. rewrite <- Hty, <- Hlen.
      destruct Hwhy as [Hn|[Hlt|[Heq Hle]]]; [done|lia|lia].
  - (* the candidate becomes the best *)
    right. exists (length seen), vh, d.
    split_and!; [by rewrite list_lookup_middle|done|done|done|done|].
    intros j vh' d' Hj Hmj. split.
    + intros Hlt. rewrite lookup_app_l in Hj by done.
      destruct Hinv as [(Hvh & Hty & Hnone)
                       |(i & vh0 & d0 & Hi & Hvh & Hty & Hlen & Hm0 & Hbest)].
      { exfalso. eapply Hnone; [|done]. eapply list_elem_of_lookup_2, Hj. }
      rewrite Hty, Hlen in Hwhy.
      destruct (Hbest _ _ _ Hj Hmj) as [Hb1 Hb2].
      destruct (lt_eq_lt_dec j i) as [[Hji|Heq]|Hij].
      * specialize (Hb1 Hji). unfold beats in *. lia.
      * subst j. rewrite Hi in Hj. injection Hj as <- <-. unfold beats. lia.
      * specialize (Hb2 Hij). unfold beats in *. lia.
    + intros Hgt. rewrite lookup_app_r in Hj by lia.
      destruct (j - length seen) as [|n] eqn:Hj'; [lia|by destruct n].
Qed.

Lemma scanInv_all host rest seen st :
  (∀ vh d, (vh, d) ∈ rest → matchTypeForDomain d ≠ domainMatchTypeInvalid) →
  scanInv host seen st →
  ∃ st', scan host rest st = Some st' ∧ scanInv host (seen ++ rest) st'.
Proof.
  revert seen st.
  induction rest as [|[vh d] rest IH]; intros seen st Hvalid Hinv.
  { exists st. by rewrite app_nil_r. }
  destruct (scanInv_step host seen vh d st) as (st1 & Hv & Hinv1);
    [eapply Hvalid; by left|done|].
  destruct (IH (seen ++ [(vh, d)]) st1) as (st' & Hs & Hinv').
  { intros ???. eapply Hvalid. by right. }
  { done. }
  exists st'. simpl. rewrite Hv. split; [done|].
  by rewrite <- app_assoc in Hinv'.
Qed.

Lemma matchTypeForDomain_invalid d :
  matchTypeForDomain d = domainMatchTypeInvalid ↔ invalidPattern d.
Proof.
  unfold matchTypeForDomain, invalidPattern.
  destruct (String.eqb_spec d "") as [->|Hne]; [by split; [left|]|].
  destruct (String.eqb_spec d "*") as [->|Hne'].
  { split; [done|]. intros [?|(_ & ? & _)]; done. }
  destruct (strings.HasPrefix d "*") eqn:Hp.
  { split; [done|]. intros [?|(_ & ? & _)]; done. }
  destruct (strings.HasSuffix d "*") eqn:Hs.
  { split; [done|]. intros [?|(_ & _ & ?)]; done. }
  destruct (strings.Contains d "*") eqn:Hc.
  - split; [by right|done].
  - split; [done|]. intros [?|(? & _)]; done.
Qed.

(** ** The code's kinds and matches are those of the table *)

Lemma snoc_star_facts (x : string) :
  x ≠ "" → x +:+ "*" ≠ "" ∧ x +:+ "*" ≠ "*".
Proof.
  intros Hx. destruct x as [|a x]; [done|]. split; [done|].
  intros Heq. assert (Hlen : String.length (String a x +:+ "*") = 1)
    by (by rewrite Heq).
  rewrite string_length_app in Hlen. simpl in Hlen. lia.
Qed.

Lemma HasPrefix_star d : strings.HasPrefix d "*" = true ↔ beginsWithStar d.
Proof. apply HasPrefix_spec. Qed.

Lemma HasSuffix_star d : strings.HasSuffix d "*" = true ↔ endsWithStar d.
Proof. apply HasSuffix_spec. Qed.

Lemma Contains_star d : strings.Contains d "*" = true ↔ hasStar d.
Proof. apply (Contains_spec d "*"%char). Qed.

Lemma beginsWithStar_hasStar d : beginsWithStar d → hasStar d.
Proof. intros [x ->]. by exists "", x. Qed.

Lemma endsWithStar_hasStar d : endsWithStar d → hasStar d.
Proof. intros [x ->]. by exists x, "". Qed.

Lemma invalidPattern_shape d :
  invalidPattern d ↔ patternKind d domainMatchTypeInvalid.
Proof.
  unfold invalidPattern. simpl.
  rewrite <- Contains_star, <- HasPrefix_star, <- HasSuffix_star.
  destruct (strings.HasPrefix d "*"), (strings.HasSuffix d "*");
    naive_solver.
Qed.

Lemma patternKind_matchTypeForDomain d :
  patternKind d (matchTypeForDomain d).
Proof.
  unfold matchTypeForDomain.
  destruct (String.eqb_spec d "") as [->|Hne]; [by left|].
  destruct (String.eqb_spec d "*") as [->|Hne']; [done|].
  destruct (strings.HasPrefix d "*") eqn:Hp.
  { apply HasPrefix_star in Hp as [x ->]. exists x. split; [|done].
    by intros ->. }
  destruct (strings.HasSuffix d "*") eqn:Hs.
  { apply HasSuffix_star in Hs as [x ->]. exists x. split_and!; [|done|].
    - by intros ->.
    - intros Hb%HasPrefix_star. congruence. }
  destruct (strings.Contains d "*") eqn:Hc.
  - right. split_and!.
    + by apply Contains_star.
    + intros Hb%HasPrefix_star. congruence.
    + intros He%HasSuffix_star. congruence.
  - split; [done|]. intros Hh%Contains_star. congruence.
Qed.

Lemma patternKind_inv d k : patternKind d k → matchTypeForDomain d = k.
Proof.
  destruct k; simpl.
  - intros H. by apply matchTypeForDomain_invalid, invalidPattern_shape.
  - by intros ->.
  - intros (x & Hx & -> & Hnb).
    destruct (snoc_star_facts x Hx) as [Hne Hne'].
    unfold matchTypeForDomain.
    destruct (String.eqb_spec (x +:+ "*") "") as [?|_]; [done|].
    destruct (String.eqb_spec (x +:+ "*") "*") as [?|_]; [done|].
    destruct (strings.HasPrefix (x +:+ "*") "*") eqn:Hp.
    { by apply HasPrefix_star in Hp. }
    rewrite (proj2 (HasSuffix_star (x +:+ "*"))); [done|by exists x].
  - intros (x & Hx & ->). unfold matchTypeForDomain.
    destruct (String.eqb_spec ("*" +:+ x) "") as [?|_]; [done|].
    destruct (String.eqb_spec ("*" +:+ x) "*") as [Heq|_].
    { injection Heq as Heq. by destruct (Hx Heq). }
    rewrite (proj2 (HasPrefix_star ("*" +:+ x))); [done|by exists x].
  - intros [Hne Hns]. unfold matchTypeForDomain.
    destruct (String.eqb_spec d "") as [?|_]; [done|].
    destruct (String.eqb_spec d "*") as [->|_].
    { destruct Hns. by exists "", "". }
    destruct (strings.HasPrefix d "*") eqn:Hp.
    { destruct Hns. by apply beginsWithStar_hasStar, HasPrefix_star. }
    destruct (strings.HasSuffix d "*") eqn:Hs.
    { destruct Hns. by apply endsWithStar_hasStar, HasSuffix_star. }
    destruct (strings.Contains d "*") eqn:Hc; [|done].
    destruct Hns. by apply Contains_star.
Qed.

Lemma patternKind_iff d k : matchTypeForDomain d = k ↔ patternKind d k.
Proof.
  split; [intros <-; apply patternKind_matchTypeForDomain|].
  apply patternKind_inv.
Qed.

Lemma match_snd domain host :
  (match_ domain host).2
  = match matchTypeForDomain domain with
    | domainMatchTypeInvalid => false
    | domainMatchTypeUniversal => true
    | domainMatchTypePrefix =>
        strings.HasPrefix host (strings.TrimSuffix domain "*")
    | domainMatchTypeSuffix =>
        strings.HasSuffix host (strings.TrimPrefix domain "*")
    | domainMatchTypeExact => String.eqb domain host
    end.
Proof. unfold match_. by destruct (matchTypeForDomain domain). Qed.

Lemma patternMatches_iff d host :
  (match_ d host).2 = true ↔ patternMatches d host.
Proof.
  rewrite match_snd. unfold patternMatches. split.
  - pose proof (patternKind_matchTypeForDomain d) as Hk.
    destruct (matchTypeForDomain d); simpl in Hk; [done|by left|..].
    + destruct Hk as (x & Hx & -> & Hnb). rewrite (TrimSuffix_app x "*").
      intros Ht%HasPrefix_spec. right. right. left. by exists x.
    + destruct Hk as (x & Hx & ->). rewrite (TrimPrefix_app "*" x).
      intros Ht%HasSuffix_spec. right. left. by exists x.
    + destruct Hk as [Hne Hns]. intros ->%String.eqb_eq.
      by right; right; right.
  - intros [Hu|[(x & Hx & Hd & Ht)|[(x & Hx & Hd & Hnb & Ht)|(Hne & Hns & ->)]]].
    + by rewrite (patternKind_inv d domainMatchTypeUniversal).
    + rewrite (patternKind_inv d domainMatchTypeSuffix) by (by exists x).
      subst d. rewrite (TrimPrefix_app "*" x). by apply HasSuffix_spec.
    + rewrite (patternKind_inv d domainMatchTypePrefix) by (by exists x).
      subst d. rewrite (TrimSuffix_app x "*"). by apply HasPrefix_spec.
    + rewrite (patternKind_inv d domainMatchTypeExact) by done.
      by apply String.eqb_eq.
Qed.

Lemma betterThan_kindRank k k' :
  betterThan k k' = true ↔ kindRank k' < kindRank k.
Proof.
  unfold betterThan. rewrite Z.ltb_lt. destruct k, k'; simpl; lia.
Qed.

Lemma outranks_iff d d' : outranks d d' ↔ beats d d'.
Proof.
  unfold outranks, beats. split.
  - intros (k & k' & <-%patternKind_inv & <-%patternKind_inv & H).
    destruct H as [H|[-> H]]; [left|by right].
    by destruct (matchTypeForDomain d), (matchTypeForDomain d');
      simpl in *; lia.
  - intros H. exists (matchTypeForDomain d), (matchTypeForDomain d').
    split_and!; [apply patternKind_matchTypeForDomain..|].
    destruct H as [H|[H%iota_inj Hl]]; [left|by right].
    by destruct (matchTypeForDomain d), (matchTypeForDomain d');
      simpl in *; lia.
Qed.

Lemma bestMatchAt_iff host cands i vh :
  bestMatchAt host cands i vh ↔ bestAt host cands i vh.
Proof.
  unfold bestMatchAt, bestAt, matches.
  setoid_rewrite outranks_iff. setoid_rewrite patternMatches_iff. done.
Qed.

End MatcherProofs.

Section MatcherTheorems.
Import xdsclient resolver matcher_spec.

(** The seed scenario of the spec: the exact pattern wins. *)
Example findBestMatchingVirtualHost_seed :
  let vh d := {| Domains := [d]; Routes := [] |} in
  findBestMatchingVirtualHost "foo.bar.com"
    [vh "*.bar.com"; vh "*.com"; vh "foo.bar.com"; vh "*"]
  = Some (vh "foo.bar.com").
Proof. reflexivity. Qed.

Example findBestMatchingVirtualHost_longer_suffix :
  let vh d := {| Domains := [d]; Routes := [] |} in
  findBestMatchingVirtualHost "foo.bar.com"
    [vh "*.com"; vh "foo.*"; vh "*.bar.com"; vh "*r.com"]
  = Some (vh "*.bar.com").
Proof. reflexivity. Qed.

(** The scan returns the owner of the best match. *)
Lemma scan_best host vHosts :
  ((∃ vh d, (vh, d) ∈ candidates vHosts ∧ invalidPattern d) →
   findBestMatchingVirtualHost host vHosts = None)
  ∧ ((∀ vh d, (vh, d) ∈ candidates vHosts → ¬ invalidPattern d) →
     (∀ i vh, bestAt host (candidates vHosts) i vh →
              findBestMatchingVirtualHost host vHosts = Some vh)
     ∧ ((∃ vh d, (vh, d) ∈ candidates vHosts ∧ matches d host) →
        ∃ i vh, bestAt host (candidates vHosts) i vh)
     ∧ ((∀ vh d, (vh, d) ∈ candidates vHosts → ¬ matches d host) →
        findBestMatchingVirtualHost host vHosts = None)).
Proof.
  unfold findBestMatchingVirtualHost. rewrite rangeVHosts_scan. split.
  { intros (vh & d & Hin & Hd).
    apply matchTypeForDomain_invalid in Hd.
    by rewrite (scan_invalid _ _ _ _ _ Hin Hd). }
  intros Hvalid.
  destruct (scanInv_all host (candidates vHosts) [] matchState_init)
    as (st & Hscan & Hinv).
  { intros vh d Hin Hd. eapply Hvalid; [done|].
    by apply matchTypeForDomain_invalid. }
  { left. split_and!; [done|done|]. intros ?? Hin. by apply elem_of_nil in Hin. }
  rewrite Hscan. simpl in Hinv.
  destruct Hinv as [(Hvh & _ & Hnone)
                   |(i & vh & d & Hi & Hvh & _ & _ & Hm & Hbest)].
  - split_and!.
    + intros i vh (d & Hi & Hm & _). exfalso.
      eapply Hnone; [|done]. eapply list_elem_of_lookup_2, Hi.
    + intros (vh & d & Hin & Hm). exfalso. by eapply Hnone.
    + done.
  - split_and!.
    + intros i' vh' (d' & Hi' & Hm' & Hbest'). rewrite Hvh. f_equal.
      destruct (Hbest _ _ _ Hi' Hm') as [Ha Hb].
      destruct (Hbest' _ _ _ Hi Hm) as [Ha' Hb'].
      destruct (lt_eq_lt_dec i i') as [[Hlt|Heq]|Hgt].
      * exfalso. by apply Hb; [|apply Ha'].
      * subst i'. rewrite Hi in Hi'. by injection Hi'.
      * exfalso. by apply Hb'; [|apply Ha].
    + intros _. exists i, vh, d. done.
    + intros Hno. exfalso. eapply Hno; [|done].
      eapply list_elem_of_lookup_2, Hi.
Qed.

(** C2, as the code has it.  The kinds of pattern are those of the table:
    the universal pattern is the star; a suffix pattern is a star followed
    by a text that is not empty, and matches the hosts that end with that
    text; a prefix pattern is a text that is not empty followed by a star
    (and does not begin with one), and matches the hosts that begin with
    that text; an exact pattern is not empty, has no star and matches the
    host equal to it; a pattern is invalid exactly when it is empty or has a
    star but neither begins nor ends with one, and matches nothing.  The
    kinds are ordered Exact > Suffix > Prefix > Universal.  If some pattern
    of some virtual host is invalid the result is nil.  Otherwise the result
    is the owner of the best matching pattern: better kind first, then
    longer pattern, then first seen; such a pattern exists as soon as one
    pattern matches, and the result is nil when none does. *)
Theorem findBestMatchingVirtualHost_best host vHosts :
  (betterThan domainMatchTypeExact domainMatchTypeSuffix = true
   ∧ betterThan domainMatchTypeSuffix domainMatchTypePrefix = true
   ∧ betterThan domainMatchTypePrefix domainMatchTypeUniversal = true)
  ∧ (∀ k k', betterThan k k' = true ↔ kindRank k' < kindRank k)
  ∧ (∀ d k, matchTypeForDomain d = k ↔ patternKind d k)
  ∧ (∀ d h, (match_ d h).2 = true ↔ patternMatches d h)
  ∧ (∀ d, matchTypeForDomain d = domainMatchTypeInvalid ↔ invalidPattern d)
  ∧ ((∃ vh d, (vh, d) ∈ candidates vHosts
              ∧ patternKind d domainMatchTypeInvalid) →
     findBestMatchingVirtualHost host vHosts = None)
  ∧ ((∀ vh d, (vh, d) ∈ candidates vHosts →
              ¬ patternKind d domainMatchTypeInvalid) →
     (∀ i vh, bestMatchAt host (candidates vHosts) i vh →
              findBestMatchingVirtualHost host vHosts = Some vh)
     ∧ ((∃ vh d, (vh, d) ∈ candidates vHosts ∧ patternMatches d host) →
        ∃ i vh, bestMatchAt host (candidates vHosts) i vh)
     ∧ ((∀ vh d, (vh, d) ∈ candidates vHosts → ¬ patternMatches d host) →
        findBestMatchingVirtualHost host vHosts = None)).
Proof.
  destruct (scan_best host vHosts) as [Hinvalid Hvalid].
  split_and!; [done|done|done|apply betterThan_kindRank|apply patternKind_iff
              |apply patternMatches_iff|apply matchTypeForDomain_invalid| |].
  - intros (vh & d & Hin & Hd). apply Hinvalid. exists vh, d.
    split; [done|]. by apply invalidPattern_shape.
  - intros Hno.
    destruct Hvalid as (Hbest & Hex & Hnone).
    { intros vh d Hin Hd. eapply Hno; [done|]. by apply invalidPattern_shape. }
    split_and!.
    + intros i vh Hb. apply (Hbest i vh). by apply bestMatchAt_iff.
    + intros (vh & d & Hin & Hm).
      destruct Hex as (i & vh' & Hb).
      { exists vh, d. split; [done|]. by apply patternMatches_iff. }
      exists i, vh'. by apply bestMatchAt_iff.
    + intros Hnm. apply Hnone. intros vh d Hin Hm.
      eapply Hnm; [done|]. by apply patternMatches_iff.
Qed.

(** The theorem at the seed scenario: the third candidate is the best one
    and it is returned. *)
Lemma findBestMatchingVirtualHost_best_witness :
  let vh d := {| Domains := [d]; Routes := [] |} in
  let vHosts := [vh "*.bar.com"; vh "*.com"; vh "foo.bar.com"; vh "*"] in
  (∀ v d, (v, d) ∈ candidates vHosts →
          ¬ patternKind d domainMatchTypeInvalid)
  ∧ bestMatchAt "foo.bar.com" (candidates vHosts) 2 (vh "foo.bar.com")
  ∧ findBestMatchingVirtualHost "foo.bar.com" vHosts
    = Some (vh "foo.bar.com").
Proof.
  intros vh vHosts.
  assert (Hvalid : ∀ v d, (v, d) ∈ candidates vHosts →
                          ¬ patternKind d domainMatchTypeInvalid).
  { intros v d Hin Hd. apply patternKind_inv in Hd.
    simpl in Hin. repeat (apply elem_of_cons in Hin as [Heq|Hin];
      [injection Heq as -> ->; vm_compute in Hd; discriminate|]).
    by apply elem_of_nil in Hin. }
  assert (Hbest : bestMatchAt "foo.bar.com" (candidates vHosts) 2
                    (vh "foo.bar.com")).
  { apply bestMatchAt_iff.
    exists "foo.bar.com". split_and!; [done|by vm_compute|].
    intros j v d Hj Hm.
    destruct j as [|[|[|[|j]]]]; simpl in Hj; try discriminate;
      injection Hj as <- <-; unfold beats;
      repeat match goal with
             | |- context [matchTypeForDomain ?d] =>
                 let t := eval vm_compute in (matchTypeForDomain d) in
                 change (matchTypeForDomain d) with t
             end;
      simpl; lia. }
  split_and!; [done|done|].
  exact (proj1 (proj2 (proj2 (proj2 (proj2 (proj2 (proj2
           (findBestMatchingVirtualHost_best "foo.bar.com" vHosts))))))
           Hvalid)
           2 (vh "foo.bar.com") Hbest).
Defined.

(** C2 as stated fails: the pattern [a*b*] has a star in the middle of the
    string, yet the code takes it for a prefix pattern, and the response
    that contains it still yields a match. *)
Lemma findBestMatchingVirtualHost_mid_star_counterexample :
  let vh1 := {| Domains := ["foo.com"]; Routes := [] |} in
  let vh2 := {| Domains := ["a*b*"]; Routes := [] |} in
  starMidString "a*b*"
  ∧ matchTypeForDomain "a*b*" = domainMatchTypePrefix
  ∧ findBestMatchingVirtualHost "foo.com" [vh1; vh2] = Some vh1.
Proof.
  split_and!; [|reflexivity|reflexivity].
  exists 1. split_and!; [lia|simpl; lia|reflexivity].
Qed.

End MatcherTheorems.

(** * The service watcher: proofs *)

Section WatcherProofs.
Import xdsclient resolver.

(** [handleLDSResp] and [handleRDSResp] never change [closed]. *)
Lemma handleLDSResp_closed update err cf :
  closed (watcher (handleLDSResp update err cf)) = closed (watcher cf).
Proof.
  unfold handleLDSResp.
  destruct (closed (watcher cf)) eqn:Hc; [done|].
  destruct err as [e|].
  - destruct (if bool_decide _ then _ else _); done.
  - destruct (String.eqb _ _); done.
Qed.

Lemma handleRDSResp_closed update err cf :
  closed (watcher (handleRDSResp update err cf)) = closed (watcher cf).
Proof.
  unfold handleRDSResp.
  destruct (closed (watcher cf)) eqn:Hc; [done|].
  destruct (rdsCancel (watcher cf)); [|done].
  destruct err as [e|]; [done|].
  destruct (findBestMatchingVirtualHost _ _); done.
Qed.

(** A closed watcher has no RDS watch: [close] clears [rdsCancel], and the
    callbacks return at once on a closed watcher. *)
Lemma reachable_closed_no_rds name cf :
  reachable name cf →
  closed (watcher cf) = true → rdsCancel (watcher cf) = None.
Proof.
  induction 1 as [|update err cf Hr IH|update err cf Hr IH|cf Hr IH];
    intros Hc.
  - done.
  - rewrite handleLDSResp_closed in Hc.
    unfold handleLDSResp. rewrite Hc. auto.
  - rewrite handleRDSResp_closed in Hc.
    unfold handleRDSResp. rewrite Hc. auto.
  - done.
Qed.

Lemma reachable_rds_open name cf :
  reachable name cf →
  is_Some (rdsCancel (watcher cf)) → closed (watcher cf) = false.
Proof.
  intros Hr [k Hk]. destruct (closed (watcher cf)) eqn:Hc; [|done].
  rewrite (reachable_closed_no_rds name cf Hr Hc) in Hk. done.
Qed.

(** C7.  On a watcher with an outstanding RDS watch, an LDS error of kind
    ResourceNotFound cancels that watch, clears [rdsName], [rdsCancel] and
    [lastUpdate], and calls the service callback once with the error.  Any
    other LDS error is passed to the service callback once, no watch is
    cancelled and the watcher is left as it was; this also holds on an open
    watcher without RDS watch. *)
Theorem handleLDSResp_error name cf update e :
  reachable name cf →
  (∀ k, rdsCancel (watcher cf) = Some k →
        ErrType e = ErrorTypeResourceNotFound →
        let cf' := handleLDSResp update (Some e) cf in
        calls cf' = calls cf ++ [rdsCancelCalled k;
                                 serviceCb serviceUpdate_zero (Some e)]
        ∧ rdsName (watcher cf') = ""
        ∧ rdsCancel (watcher cf') = None
        ∧ lastUpdate (watcher cf') = serviceUpdate_zero)
  ∧ (is_Some (rdsCancel (watcher cf)) ∨ closed (watcher cf) = false →
     ErrType e ≠ ErrorTypeResourceNotFound →
     let cf' := handleLDSResp update (Some e) cf in
     calls cf' = calls cf ++ [serviceCb serviceUpdate_zero (Some e)]
     ∧ watcher cf' = watcher cf).
Proof.
  intros Hr. split.
  - intros k Hk He cf'.
    assert (Hopen : closed (watcher cf) = false)
      by (eapply reachable_rds_open; [done|by rewrite Hk]).
    subst cf'. unfold handleLDSResp. rewrite Hopen, Hk.
    by rewrite bool_decide_true.
  - intros Hlive He cf'.
    assert (Hopen : closed (watcher cf) = false).
    { destruct Hlive as [Hs|Hc]; [by eapply reachable_rds_open|done]. }
    subst cf'. unfold handleLDSResp. rewrite Hopen.
    by rewrite bool_decide_false.
Qed.

(** The configuration after a first LDS update that names the route
    configuration [route-a]: an RDS watch is outstanding. *)
Lemma handleLDSResp_error_witness :
  let lds := {| RouteConfigName := "route-a"; MaxStreamDuration := 5;
                HTTPFilters := [] |} in
  let cf := handleLDSResp lds None (watchService "svc") in
  let notFound := XdsError ErrorTypeResourceNotFound "gone" in
  let broken := XdsError ErrorTypeConnection "broken" in
  reachable "svc" cf
  ∧ rdsCancel (watcher cf) = Some 0
  ∧ calls (handleLDSResp lds (Some notFound) cf)
    = calls cf ++ [rdsCancelCalled 0;
                   serviceCb serviceUpdate_zero (Some notFound)]
  ∧ watcher (handleLDSResp lds (Some broken) cf) = watcher cf.
Proof.
  intros lds cf notFound broken.
  assert (Hr : reachable "svc" cf) by (apply reach_handleLDSResp; constructor).
  split_and!; [done|reflexivity| |].
  - exact (proj1 (proj1 (handleLDSResp_error "svc" cf lds notFound Hr)
                    0 eq_refl eq_refl)).
  - refine (proj2 (proj2 (handleLDSResp_error "svc" cf lds broken Hr)
                     (or_introl _) _)).
    + by exists 0.
    + discriminate.
Defined.

(** C9.  On a fresh watcher a successful LDS update with an empty
    [RouteConfigName] calls the service callback at once, with the LDS
    config of the update and a nil virtual host, and starts no RDS
    watch. *)
Theorem handleLDSResp_fresh_empty_route name update :
  RouteConfigName update = "" →
  let cf := handleLDSResp update None (watchService name) in
  calls cf
  = [WatchListener name;
     serviceCb {| virtualHost := None;
                  su_ldsConfig :=
                    {| maxStreamDuration := MaxStreamDuration update;
                       httpFilterConfig := HTTPFilters update |} |} None]
  ∧ rdsCancel (watcher cf) = None
  ∧ rdsWatches cf = 0
  ∧ ∀ n, WatchRouteConfig n ∉ calls cf.
Proof.
  intros Hname cf. subst cf. unfold handleLDSResp. simpl.
  rewrite Hname. simpl. split_and!; [done|done|done|].
  intros n Hin. repeat (apply elem_of_cons in Hin as [Heq|Hin]; [done|]).
  by apply elem_of_nil in Hin.
Qed.

Lemma handleLDSResp_fresh_empty_route_witness :
  let lds := {| RouteConfigName := ""; MaxStreamDuration := 7;
                HTTPFilters := [{| FilterName := "router" |}] |} in
  calls (handleLDSResp lds None (watchService "svc"))
  = [WatchListener "svc";
     serviceCb {| virtualHost := None;
                  su_ldsConfig :=
                    {| maxStreamDuration := 7;
                       httpFilterConfig := [{| FilterName := "router" |}] |} |}
       None].
Proof.
  intros lds.
  exact (proj1 (handleLDSResp_fresh_empty_route "svc" lds eq_refl)).
Defined.

End WatcherProofs.

(** * The EDS proto parser: proofs *)

Section ParseProofs.
Import xdsclient xdspb edsparse parse_spec.

Lemma fold_left_snoc_map {A B} (f : A → B) (l : list A) (acc : list B) :
  fold_left (fun bs a => bs ++ [f a]) l acc = acc ++ (f <$> l).
Proof.
  revert acc. induction l as [|a l IH]; intros acc; simpl.
  - by rewrite app_nil_r.
  - rewrite IH. by rewrite <- app_assoc.
Qed.

Lemma parseEndpoints_map lbs : parseEndpoints lbs = parsedEndpoint <$> lbs.
Proof. unfold parseEndpoints. by rewrite (fold_left_snoc_map parsedEndpoint). Qed.

Lemma rangeEndpoints_None ls acc ps :
  rangeEndpoints ls acc ps = None
  ↔ ∃ l, l ∈ ls ∧ LLE_Locality l = None.
Proof.
  revert acc ps. induction ls as [|l ls IH]; intros acc ps; simpl.
  - split; [done|]. intros (l & Hin & _). by apply elem_of_nil in Hin.
  - destruct (LLE_Locality l) as [loc|] eqn:Hl.
    + rewrite IH. split.
      * intros (l' & Hin & Hn). exists l'. split; [by right|done].
      * intros (l' & Hin & Hn).
        apply elem_of_cons in Hin as [->|Hin]; [congruence|by exists l'].
    + split; [|done]. intros _. exists l. split; [by left|done].
Qed.

Lemma rangeEndpoints_Some ls acc ps localities ps' :
  rangeEndpoints ls acc ps = Some (localities, ps') →
  ps' = list_to_set (LLE_Priority <$> ls) ∪ ps
  ∧ ∃ parsed, localities = acc ++ parsed ∧ Forall2 parsedFrom ls parsed.
Proof.
  revert acc ps. induction ls as [|l ls IH]; intros acc ps; simpl.
  - intros [= <- <-]. split; [set_solver|].
    exists []. by rewrite app_nil_r.
  - destruct (LLE_Locality l) as [loc|] eqn:Hl; [|done].
    intros Hr. apply IH in Hr as [-> (parsed & -> & Hall)].
    split; [set_solver|].
    eexists (_ :: parsed). rewrite <- app_assoc. split; [done|].
    constructor; [|done].
    exists loc. by rewrite parseEndpoints_map.
Qed.

Lemma missingPriority_None ps i todo :
  missingPriority ps i todo = None
  ↔ ∀ j : N, (i ≤ j < i + N.of_nat todo)%N → uint32 j ∈ ps.
Proof.
  revert i. induction todo as [|todo IH]; intros i; simpl.
  - split; [|done]. intros _ j Hj. lia.
  - destruct (bool_decide_reflect (uint32 i ∈ ps)) as [Hin|Hout].
    + rewrite IH. split; intros H j Hj.
      * destruct (decide (j = i)) as [->|Hne]; [done|]. apply H. lia.
      * apply H. lia.
    + split; [done|]. intros H. exfalso. apply Hout, H. lia.
Qed.

(** A set of numbers below [k] has at most [k] elements. *)
Lemma size_bounded_set (k : N) :
  ∀ ps : gset N, (∀ x, x ∈ ps → (x < k)%N) → (N.of_nat (size ps) ≤ k)%N.
Proof.
  induction k as [|k IH] using N.peano_ind; intros ps Hps.
  - assert (ps = ∅) as ->.
    { apply set_eq. intros x. split; [|set_solver].
      intros Hx. apply Hps in Hx. lia. }
    rewrite size_empty. lia.
  - assert (Hle : size ps ≤ size (ps ∖ {[k]} ∪ {[k]})).
    { apply subseteq_size. intros x Hx.
      destruct (decide (x = k)); set_solver. }
    rewrite size_union in Hle by set_solver.
    rewrite size_singleton in Hle.
    specialize (IH (ps ∖ {[k]})).
    assert (N.of_nat (size (ps ∖ {[k]})) ≤ k)%N.
    { apply IH. intros x Hx.
      apply elem_of_difference in Hx as [Hx Hne].
      apply Hps in Hx. rewrite not_elem_of_singleton in Hne. lia. }
    lia.
Qed.

(** A set with [n] elements that contains the numbers below [n] contains
    nothing else. *)
Lemma size_prefix_set (n : nat) :
  ∀ ps : gset N, size ps = n →
    (∀ i, (i < N.of_nat n)%N → i ∈ ps) →
    ∀ x, x ∈ ps → (x < N.of_nat n)%N.
Proof.
  induction n as [|n IH]; intros ps Hsize Hpre x Hx.
  - apply size_empty_inv in Hsize. set_solver.
  - destruct (decide (x = N.of_nat n)) as [->|Hne]; [lia|].
    assert (Hn : N.of_nat n ∈ ps) by (apply Hpre; lia).
    assert (x < N.of_nat n)%N; [|lia].
    apply (IH (ps ∖ {[N.of_nat n]})).
    + rewrite size_difference by set_solver.
      rewrite size_singleton. lia.
    + intros i Hi. apply elem_of_difference. split; [apply Hpre; lia|].
      rewrite not_elem_of_singleton. lia.
    + set_solver.
Qed.

Lemma uint32_small i : (i < uint32_modulus)%N → uint32 i = i.
Proof. intros. unfold uint32. by apply N.mod_small. Qed.

(** On a set of [uint32] values, the check of the loop is the density of
    the set. *)
Lemma missingPriority_dense (ps : gset N) :
  (∀ x, x ∈ ps → (x < uint32_modulus)%N) →
  missingPriority ps 0 (size ps) = None ↔ densePrefix ps.
Proof.
  intros Hps. rewrite missingPriority_None.
  pose proof (size_bounded_set uint32_modulus ps Hps) as Hsize.
  split.
  - intros H i. split.
    + apply (size_prefix_set (size ps) ps eq_refl).
      intros j Hj. rewrite <- (uint32_small j) by lia. apply H. lia.
    + intros Hi. rewrite <- (uint32_small i) by lia. apply H. lia.
  - intros Hd j Hj.
    assert (Hin : j ∈ ps) by (apply Hd; lia).
    rewrite uint32_small; [done|by apply Hps].
Qed.

(** C6.  The priorities are [uint32] values.  [parseEDSRespProto] returns an
    error exactly when some locality has no ID or the priorities are not
    the dense prefix; with the error it returns the empty update, and
    without it the drops and, for every locality in order, its ID,
    endpoints, weight and priority. *)
Theorem parseEDSRespProto_error_iff m :
  (∀ l, l ∈ CLA_Endpoints m → (LLE_Priority l < uint32_modulus)%N) →
  (is_Some (parseEDSRespProto m).2
   ↔ (∃ l, l ∈ CLA_Endpoints m ∧ LLE_Locality l = None)
     ∨ ¬ densePrefix (prioritiesOf m))
  ∧ (is_Some (parseEDSRespProto m).2 →
     (parseEDSRespProto m).1 = EndpointsUpdate_zero)
  ∧ ((parseEDSRespProto m).2 = None →
     Drops (parseEDSRespProto m).1 = parseDropPolicy <$> dropOverloadsOf m
     ∧ Forall2 parsedFrom (CLA_Endpoints m)
         (Localities (parseEDSRespProto m).1)).
Proof.
  intros Hu32. unfold parseEDSRespProto.
  destruct (rangeEndpoints (CLA_Endpoints m) [] ∅)
    as [[localities ps]|] eqn:Hr.
  - apply rangeEndpoints_Some in Hr as [-> (parsed & -> & Hall)].
    assert (Hps : list_to_set (LLE_Priority <$> CLA_Endpoints m) ∪ ∅
                  = prioritiesOf m) by (unfold prioritiesOf; set_solver).
    rewrite Hps.
    assert (Hno : ¬ ∃ l, l ∈ CLA_Endpoints m ∧ LLE_Locality l = None).
    { intros (l & Hin & Hn).
      apply list_elem_of_lookup in Hin as [i Hi].
      destruct (Forall2_lookup_l _ _ _ i l Hall Hi)
        as (y & _ & (loc & Hl & _)).
      congruence. }
    assert (Hdense : missingPriority (prioritiesOf m) 0 (size (prioritiesOf m))
                     = None ↔ densePrefix (prioritiesOf m)).
    { apply missingPriority_dense. intros x Hx.
      unfold prioritiesOf in Hx. apply elem_of_list_to_set in Hx.
      apply list_elem_of_fmap in Hx as (l & -> & Hl). by apply Hu32. }
    destruct (missingPriority (prioritiesOf m) 0 (size (prioritiesOf m)))
      as [i|] eqn:Hmiss; simpl.
    + split_and!; [|done|done].
      split; [|by eexists]. intros _. right. intros Hd.
      apply Hdense in Hd. done.
    + split_and!.
      * split; [by intros [? ?]|]. intros [H|H]; [done|].
        exfalso. apply H. by apply Hdense.
      * by intros [? ?].
      * intros _. split; [|done].
        unfold dropOverloadsOf.
        by rewrite (fold_left_snoc_map parseDropPolicy).
  - apply rangeEndpoints_None in Hr. simpl.
    split_and!; [|done|done].
    split; [by left|by eexists].
Qed.

(** A message with the priorities 0 and 1 is parsed; one with the
    priorities 0 and 2 is rejected. *)
Example parseEDSRespProto_dense :
  let loc p := {| LLE_Locality := Some {| L_Region := "r"; L_Zone := "z";
                                          L_SubZone := "s" |};
                  LbEndpoints := []; LoadBalancingWeight := Some 1%N;
                  LLE_Priority := p |} in
  (parseEDSRespProto {| CLA_Policy := None;
                        CLA_Endpoints := [loc 1%N; loc 0%N] |}).2 = None
  ∧ is_Some (parseEDSRespProto
               {| CLA_Policy := None;
                  CLA_Endpoints := [loc 0%N; loc 2%N] |}).2.
Proof. split; [by vm_compute|vm_compute; by eexists]. Qed.

Lemma parseEDSRespProto_error_iff_witness :
  let loc p := {| LLE_Locality := Some {| L_Region := "r"; L_Zone := "z";
                                          L_SubZone := "s" |};
                  LbEndpoints := []; LoadBalancingWeight := Some 1%N;
                  LLE_Priority := p |} in
  let m := {| CLA_Policy := None; CLA_Endpoints := [loc 0%N; loc 2%N] |} in
  (∀ l, l ∈ CLA_Endpoints m → (LLE_Priority l < uint32_modulus)%N)
  ∧ (is_Some (parseEDSRespProto m).2
     ↔ (∃ l, l ∈ CLA_Endpoints m ∧ LLE_Locality l = None)
       ∨ ¬ densePrefix (prioritiesOf m)).
Proof.
  intros loc m.
  assert (H : ∀ l, l ∈ CLA_Endpoints m → (LLE_Priority l < uint32_modulus)%N).
  { intros l Hin. simpl in Hin.
    repeat (apply elem_of_cons in Hin as [->|Hin]; [by vm_compute|]).
    by apply elem_of_nil in Hin. }
  split; [exact H|].
  exact (proj1 (parseEDSRespProto_error_iff m H)).
Defined.

End ParseProofs.

(** * The cache lookup: proofs *)

Section CacheProofs.
Import xdsclient cache.

(** Whatever else the cache holds: when the listener and its route
    configuration are found and the route configuration has no virtual
    host, the guard itself indexes the empty list. *)
Lemma FindEndpointsByListenerName_no_virtual_host ro u name ls rt :
  LDSCache u !! name = Some ls →
  RDSCache u !! RouteConfigName ls = Some rt →
  VirtualHosts rt = [] →
  FindEndpointsByListenerName ro u name = Panics "index out of range".
Proof.
  intros Hl Hr Hv. unfold FindEndpointsByListenerName, noRoutes.
  by rewrite Hl, Hr, Hv.
Qed.

(** When the first virtual host has no routes the guard is false and the
    code indexes the empty list of routes. *)
Lemma FindEndpointsByListenerName_no_route ro u name ls rt vh vhs :
  LDSCache u !! name = Some ls →
  RDSCache u !! RouteConfigName ls = Some rt →
  VirtualHosts rt = vh :: vhs →
  Routes vh = [] →
  FindEndpointsByListenerName ro u name = Panics "index out of range".
Proof.
  intros Hl Hr Hv Hro. unfold FindEndpointsByListenerName, noRoutes.
  rewrite Hl, Hr, Hv. simpl. by rewrite Hro.
Qed.

(** C10 fails on the code.  The listener [l] and its route configuration
    [r] are in the cache; with an empty list of virtual hosts, and with a
    first virtual host without routes, the call panics on an index out of
    range, under every order of map iteration. *)
Theorem FindEndpointsByListenerName_panics :
  let lds := {[ "l" := {| RouteConfigName := "r"; MaxStreamDuration := 0;
                          HTTPFilters := [] |} ]} in
  let cache1 := {| LDSCache := lds;
                   RDSCache := {[ "r" := {| VirtualHosts := [] |} ]};
                   CDSCache := ∅; EDSCache := ∅ |} in
  let cache2 := {| LDSCache := lds;
                   RDSCache :=
                     {[ "r" := {| VirtualHosts :=
                                    [{| Domains := ["*"]; Routes := [] |}] |} ]};
                   CDSCache := ∅; EDSCache := ∅ |} in
  ∀ ro,
    FindEndpointsByListenerName ro cache1 "l" = Panics "index out of range"
    ∧ FindEndpointsByListenerName ro cache2 "l" = Panics "index out of range".
Proof.
  intros lds cache1 cache2 ro. split.
  - by eapply FindEndpointsByListenerName_no_virtual_host.
  - by eapply FindEndpointsByListenerName_no_route.
Qed.

End CacheProofs.


(** * Droppers and the drop picker: proofs *)

Section PickProofs.
Import xdsclient edsbalancer pick_spec.
Context {I : Type}.
Implicit Types (w : world I) (d : dropPicker (Picker I)) (pk : Picker I).

(** Induction over pickers: a drop picker wraps a picker. *)
Lemma Picker_wrap_ind (P : Picker I → Prop) :
  (∀ err, P (ErrPicker err)) →
  (∀ pick, P (ChildPicker pick)) →
  (∀ d, P (dp_p d) → P (DropPicker d)) →
  ∀ pk, P pk.
Proof.
  intros He Hc Hd. fix IH 1.
  intros [err|pick|d]; [apply He|apply Hc|apply Hd, IH].
Qed.

Lemma uint32_sub_small (a b : N) :
  (b ≤ a)%N → (a < uint32_modulus)%N → uint32_sub a b = (a - b)%N.
Proof.
  intros Hle Hlt. unfold uint32_sub, uint32_modulus in *.
  rewrite Z.mod_small by lia. lia.
Qed.

Lemma numRequests_set c n w : numRequests (set_numRequests c n w) c = n.
Proof. unfold numRequests, set_numRequests. simpl. by rewrite lookup_insert_eq. Qed.

Lemma numRequests_logCall call w c :
  numRequests (logCall call w) c = numRequests w c.
Proof. done. Qed.

(** A dropper built from a drop config within its invariant drops exactly on
    the samples below the numerator. *)
Lemma roll_newDropper c raw :
  (Numerator c ≤ Denominator c)%N →
  (0 < Denominator c)%N →
  (Denominator c < uint32_modulus)%N →
  roll (newDropper c) raw
  = Some (raw mod Denominator c <? Numerator c)%N.
Proof.
  intros Hle Hpos Hlt. unfold roll, newDropper, wrr.Next. simpl.
  rewrite uint32_sub_small by done.
  replace (0 + Z.of_N (Numerator c) + Z.of_N (Denominator c - Numerator c))%Z
    with (Z.of_N (Denominator c)) by lia.
  destruct (Z.leb_spec (Z.of_N (Denominator c)) 0) as [H0|_]; [lia|].
  rewrite <- N2Z.inj_mod.
  pose proof (N.mod_lt raw (Denominator c) ltac:(lia)) as Hb.
  set (sample := (raw mod Denominator c)%N) in *.
  destruct (N.ltb_spec sample (Numerator c)) as [Hd|Hd].
  - destruct (Z.ltb_spec (Z.of_N sample) (Z.of_N (Numerator c))); [done|lia].
  - destruct (Z.ltb_spec (Z.of_N sample) (Z.of_N (Numerator c))); [lia|].
    destruct (Z.ltb_spec (Z.of_N sample - Z.of_N (Numerator c))
                (Z.of_N (Denominator c - Numerator c))); [done|lia].
Qed.

Lemma allRollFalse_cons dp ds w :
  allRollFalse (dp :: ds) w →
  roll dp (rand w (randPos w)) = Some false
  ∧ allRollFalse ds (drop dp w).2.
Proof.
  intros H. split.
  - specialize (H 0 dp eq_refl). by rewrite Nat.add_0_r in H.
  - intros i dp' Hi. simpl.
    specialize (H (S i) dp' Hi). by rewrite Nat.add_succ_r in H.
Qed.

Lemma afterRolls_cons dp ds w :
  afterRolls ds (drop dp w).2 = afterRolls (dp :: ds) w.
Proof.
  unfold afterRolls, rolls. simpl. f_equal; [lia|].
  by rewrite <- app_assoc.
Qed.

Lemma rangeDrops_all_false ds w :
  allRollFalse ds w →
  rangeDrops ds w = (Some (false, ""), afterRolls ds w).
Proof.
  revert w. induction ds as [|dp ds IH]; intros w Hall.
  - simpl. f_equal. unfold afterRolls, rolls. destruct w; simpl.
    f_equal; [lia|by rewrite app_nil_r].
  - apply allRollFalse_cons in Hall as [Hdp Hall].
    cbn [rangeDrops]. unfold drop at 1. rewrite Hdp.
    rewrite <- afterRolls_cons. by apply IH.
Qed.

Lemma rangeDrops_first_true pre dp post w :
  allRollFalse pre w →
  roll dp (rand w (randPos w + length pre)) = Some true →
  rangeDrops (pre ++ dp :: post) w
  = (Some (true, Category (dropper_c dp)), afterRolls (pre ++ [dp]) w).
Proof.
  revert w. induction pre as [|dp' pre IH]; intros w Hall Hdp.
  - simpl in *. rewrite Nat.add_0_r in Hdp. unfold drop. rewrite Hdp.
    f_equal. unfold afterRolls, rolls. simpl. f_equal. lia.
  - apply allRollFalse_cons in Hall as [Hdp' Hall].
    cbn [app rangeDrops]. unfold drop at 1. rewrite Hdp'.
    rewrite <- afterRolls_cons. apply IH; [done|].
    simpl. simpl in Hdp. by rewrite Nat.add_succ_r in Hdp.
Qed.

(** A pick only appends to the calls made so far. *)
Lemma Pick_pcalls_extend pk :
  ∀ info w, ∃ Δ, pcalls (Pick pk info w).2 = pcalls w ++ Δ.
Proof.
  induction pk as [err|pick|d IH] using Picker_wrap_ind; intros info w.
  - exists []. simpl. by rewrite app_nil_r.
  - exists []. simpl. destruct (pick info (child w)) as [[pr err] i].
    simpl. by rewrite app_nil_r.
  - assert (Hdrops : ∀ ds w0, ∃ Δ, pcalls (rangeDrops ds w0).2 = pcalls w0 ++ Δ).
    { induction ds as [|dp ds IHds]; intros w0; simpl.
      - exists []. by rewrite app_nil_r.
      - unfold drop. destruct (roll dp _) as [[|]|]; simpl; [by eexists| |by eexists].
        destruct (IHds {| child := child w0; inflight := inflight w0;
                          rand := rand w0; randPos := S (randPos w0);
                          pcalls := pcalls w0 ++ [dropCalled (dropper_c dp)] |})
          as [Δ HΔ].
        rewrite HΔ. simpl. rewrite <- app_assoc. by eexists. }
    cbn [Pick]. destruct (Hdrops (dp_drops d) w) as [Δ1 H1].
    destruct (rangeDrops (dp_drops d) w) as [[[[|] cat]|] w1]; simpl in H1.
    + unfold reportDrop. destruct (dp_loadStore d); simpl; rewrite H1.
      * rewrite <- app_assoc. by eexists.
      * by eexists.
    + destruct (dp_counter d) as [c|].
      * unfold StartRequest. rewrite numRequests_logCall.
        destruct (_ <=? _)%N.
        -- unfold reportDrop. destruct (dp_loadStore d); simpl; rewrite H1.
           ++ rewrite <- !app_assoc. by eexists.
           ++ rewrite <- app_assoc. by eexists.
        -- match goal with
           | |- context [Pick (dp_p d) info ?w2] =>
               destruct (IH info w2) as [Δ2 H2];
               destruct (Pick (dp_p d) info w2) as [[[pr [e|]]|msg] w3]
           end; simpl in *; rewrite H2, H1, <- !app_assoc; by eexists.
      * match goal with
        | |- context [Pick (dp_p d) info ?w2] =>
            destruct (IH info w2) as [Δ2 H2]
        end.
        rewrite H2. simpl. rewrite H1, <- !app_assoc. by eexists.
    + simpl. by eexists.
Qed.

(** A leaf picker returns, and neither its pick nor its [Done] callback
    touches the calls or the counters. *)
Lemma leafPicker_frame pk info w :
  leafPicker pk →
  ∃ pr err w', Pick pk info w = (Returns (pr, err), w')
    ∧ pcalls w' = pcalls w ∧ inflight w' = inflight w
    ∧ ∀ f, Done pr = Some f →
        ∀ di w0, pcalls (f di w0) = pcalls w0 ∧ inflight (f di w0) = inflight w0.
Proof.
  destruct pk as [err|pick|d]; intros Hleaf; [| |done].
  - eexists _, _, _. split_and!; [done|done|done|]. intros f Hf. done.
  - simpl. destruct (pick info (child w)) as [[pr err] i].
    eexists _, _, _. split_and!; [done|done|done|].
    intros f Hf di w0. simpl in Hf.
    destruct (Done pr) as [g|]; [|done]. by injection Hf as <-.
Qed.

(** The drop picker of the seed scenario: one dropper that drops half of the
    picks, a load reporter, no counter. *)
Example Pick_throttle (i : I) :
  let throttle := {| Category := "throttle"; Numerator := 50;
                     Denominator := 100 |} in
  let d := newDropPicker (ErrPicker (Errorf "inner")) [newDropper throttle]
             (Some "cluster") None 1024 in
  let w raw := {| child := i; inflight := ∅; rand := fun _ => raw;
                  randPos := 0; pcalls := [] |} in
  (Pick (DropPicker d) {| FullMethodName := "m" |} (w 149%N)).1
  = Returns (PickResult_zero, Some (StatusError Unavailable "RPC is dropped"))
  ∧ pcalls (Pick (DropPicker d) {| FullMethodName := "m" |} (w 149%N)).2
    = [dropCalled throttle; CallDropped "cluster" "throttle"]
  ∧ (Pick (DropPicker d) {| FullMethodName := "m" |} (w 150%N)).1
    = Returns (PickResult_zero, Some (Errorf "inner")).
Proof. split_and!; reflexivity. Qed.

(** C5.  A dropper is a weighted-random choice between true, with the
    numerator as weight, and false, with the [uint32] difference of
    denominator and numerator as weight (their difference when the numerator
    does not exceed the denominator); such a dropper drops on the samples
    below the numerator.  In a pick the droppers are consulted in order.  The
    first one that rolls true ends the pick: the drop is reported to the load
    reporter, if there is one, under the category of that dropper, and the
    pick returns the Unavailable error "RPC is dropped"; nothing else is
    called.  When no dropper drops, the next call is [StartRequest] on the
    counter if there is one, and the pick of the inner picker otherwise; a
    failing [StartRequest] is reported with the empty category and the pick
    returns an Unavailable error without calling the inner picker. *)
Theorem dropPicker_Pick_drop d info w :
  (∀ c,
     newDropper c
     = {| dropper_c := c;
          dropper_w :=
            {| wrr.items :=
                 [{| wrr.Item := true;
                     wrr.ItemWeight := Z.of_N (Numerator c) |};
                  {| wrr.Item := false;
                     wrr.ItemWeight :=
                       Z.of_N (uint32_sub (Denominator c) (Numerator c)) |}];
               wrr.sumOfWeights :=
                 (0 + Z.of_N (Numerator c)
                  + Z.of_N (uint32_sub (Denominator c) (Numerator c)))%Z |} |}
     ∧ ((Numerator c ≤ Denominator c)%N →
        (Denominator c < uint32_modulus)%N →
        uint32_sub (Denominator c) (Numerator c)
        = (Denominator c - Numerator c)%N
        ∧ ((0 < Denominator c)%N →
           ∀ raw, roll (newDropper c) raw
                  = Some (raw mod Denominator c <? Numerator c)%N)))
  ∧ (∀ pre dp post,
       dp_drops d = pre ++ dp :: post →
       allRollFalse pre w →
       roll dp (rand w (randPos w + length pre)) = Some true →
       ∃ w', Pick (DropPicker d) info w
             = (Returns (PickResult_zero,
                         Some (StatusError Unavailable "RPC is dropped")), w')
         ∧ pcalls w' = pcalls w ++ rolls (pre ++ [dp])
                       ++ dropReport (dp_loadStore d) (Category (dropper_c dp))
         ∧ inflight w' = inflight w ∧ child w' = child w)
  ∧ (allRollFalse (dp_drops d) w →
     ∃ Δ, pcalls (Pick (DropPicker d) info w).2
          = pcalls w ++ rolls (dp_drops d)
            ++ match dp_counter d with
               | Some c => StartRequestCalled c (dp_countMax d)
               | None => PickCalled info
               end :: Δ)
  ∧ (∀ c,
       allRollFalse (dp_drops d) w →
       dp_counter d = Some c →
       (dp_countMax d ≤ numRequests w c)%N →
       ∃ msg w', Pick (DropPicker d) info w
                 = (Returns (PickResult_zero,
                             Some (StatusError Unavailable msg)), w')
         ∧ pcalls w' = pcalls w ++ rolls (dp_drops d)
                       ++ [StartRequestCalled c (dp_countMax d)]
                       ++ dropReport (dp_loadStore d) ""
         ∧ inflight w' = inflight w ∧ child w' = child w).
Proof.
  split_and!.
  - intros c. split; [done|]. intros Hle Hlt.
    split; [by apply uint32_sub_small|].
    intros Hpos raw. by apply roll_newDropper.
  - intros pre dp post Hd Hall Hdp. cbn [Pick]. rewrite Hd.
    rewrite (rangeDrops_first_true pre dp post w Hall Hdp).
    eexists. split; [done|].
    unfold reportDrop, dropReport. destruct (dp_loadStore d); simpl.
    + by rewrite <- app_assoc.
    + by rewrite app_nil_r.
  - intros Hall. cbn [Pick]. rewrite (rangeDrops_all_false _ w Hall).
    destruct (dp_counter d) as [c|].
    + unfold StartRequest. rewrite numRequests_logCall.
      destruct (_ <=? _)%N.
      * unfold reportDrop. destruct (dp_loadStore d); simpl;
          rewrite <- !app_assoc; by eexists.
      * match goal with
        | |- context [Pick (dp_p d) info ?w2] =>
            destruct (Pick_pcalls_extend (dp_p d) info w2) as [Δ2 H2];
            destruct (Pick (dp_p d) info w2) as [[[pr [e|]]|msg] w3]
        end; simpl in *; rewrite H2, <- !app_assoc; by eexists.
    + match goal with
      | |- context [Pick (dp_p d) info ?w2] =>
          destruct (Pick_pcalls_extend (dp_p d) info w2) as [Δ2 H2]
      end.
      rewrite H2. simpl. rewrite <- !app_assoc. by eexists.
  - intros c Hall Hc Hmax. cbn [Pick].
    rewrite (rangeDrops_all_false _ w Hall), Hc.
    unfold StartRequest. rewrite numRequests_logCall.
    replace (numRequests (afterRolls (dp_drops d) w) c)
      with (numRequests w c) by done.
    destruct (N.leb_spec (dp_countMax d) (numRequests w c)) as [_|Hlt]; [|lia].
    eexists _, _. split; [done|].
    unfold reportDrop, dropReport. destruct (dp_loadStore d); simpl.
    + by rewrite <- !app_assoc.
    + by rewrite <- !app_assoc.
Qed.

(** C1.  The counter is configured, no dropper drops and [StartRequest]
    succeeds: the inner picker is called after the droppers and
    [StartRequest], with the count incremented.  If the inner pick returns an
    error, the pick returns it after one more call, [EndRequest], which
    decrements the count.  If the inner pick succeeds, the pick makes no
    further call and returns a [Done] callback; every call of that callback
    calls [EndRequest] once, first, and then the original [Done] if there is
    one.  When the inner picker is a picker of the children or an error
    picker, one of the two cases applies and these are all the calls: one
    [EndRequest] in the pick on an error, none in the pick and one in each
    call of [Done] on a success. *)
Theorem dropPicker_Pick_EndRequest_once d c info w :
  dp_counter d = Some c →
  allRollFalse (dp_drops d) w →
  (numRequests w c < dp_countMax d)%N →
  let w2 := atInnerPick (dp_drops d) c (dp_countMax d) info w in
  pcalls w2 = pcalls w ++ rolls (dp_drops d)
              ++ [StartRequestCalled c (dp_countMax d); PickCalled info]
  ∧ numRequests w2 c = uint32 (numRequests w c + 1)
  ∧ (∀ pr err w3,
       Pick (dp_p d) info w2 = (Returns (pr, Some err), w3) →
       ∃ w', Pick (DropPicker d) info w = (Returns (pr, Some err), w')
         ∧ pcalls w' = pcalls w3 ++ [EndRequestCalled c]
         ∧ numRequests w' c = uint32_sub (numRequests w3 c) 1)
  ∧ (∀ pr w3,
       Pick (dp_p d) info w2 = (Returns (pr, None), w3) →
       ∃ f, Pick (DropPicker d) info w
            = (Returns ({| SubConn := SubConn pr; Done := Some f |}, None), w3)
         ∧ ∀ di w0,
             ∃ w1, pcalls w1 = pcalls w0 ++ [EndRequestCalled c]
               ∧ numRequests w1 c = uint32_sub (numRequests w0 c) 1
               ∧ f di w0 = match Done pr with
                           | Some g => g di (logCall (oldDoneCalled di) w1)
                           | None => w1
                           end)
  ∧ (leafPicker (dp_p d) →
     ∃ pr err w',
       Pick (DropPicker d) info w = (Returns (pr, err), w')
       ∧ match err with
         | Some _ =>
             pcalls w' = pcalls w ++ rolls (dp_drops d)
                         ++ [StartRequestCalled c (dp_countMax d);
                             PickCalled info; EndRequestCalled c]
             ∧ numRequests w' c
               = uint32_sub (uint32 (numRequests w c + 1)) 1
         | None =>
             pcalls w' = pcalls w ++ rolls (dp_drops d)
                         ++ [StartRequestCalled c (dp_countMax d);
                             PickCalled info]
             ∧ numRequests w' c = uint32 (numRequests w c + 1)
             ∧ ∃ f, Done pr = Some f
                 ∧ ∀ di w0,
                     (pcalls (f di w0) = pcalls w0 ++ [EndRequestCalled c]
                      ∨ pcalls (f di w0)
                        = pcalls w0 ++ [EndRequestCalled c; oldDoneCalled di])
                     ∧ numRequests (f di w0) c
                       = uint32_sub (numRequests w0 c) 1
         end).
Proof.
  intros Hc Hall Hmax w2.
  assert (Hp : Pick (DropPicker d) info w
               = match Pick (dp_p d) info w2 with
                 | (Panics msg, w3) => (Panics msg, w3)
                 | (Returns (pr, Some err), w3) =>
                     (Returns (pr, Some err), EndRequest c w3)
                 | (Returns (pr, None), w3) =>
                     (Returns ({| SubConn := SubConn pr;
                                  Done := Some (wrappedDone c (Done pr)) |},
                               None), w3)
                 end).
  { cbn [Pick]. rewrite (rangeDrops_all_false _ w Hall), Hc.
    unfold StartRequest. rewrite numRequests_logCall.
    replace (numRequests (afterRolls (dp_drops d) w) c)
      with (numRequests w c) by done.
    destruct (N.leb_spec (dp_countMax d) (numRequests w c)) as [Hle|_]; [lia|].
    done. }
  assert (Hcalls2 : pcalls w2
                    = pcalls w ++ rolls (dp_drops d)
                      ++ [StartRequestCalled c (dp_countMax d);
                          PickCalled info]).
  { subst w2. unfold atInnerPick. simpl. by rewrite <- !app_assoc. }
  assert (Hnum2 : numRequests w2 c = uint32 (numRequests w c + 1)).
  { subst w2. unfold atInnerPick.
    by rewrite numRequests_logCall, numRequests_set. }
  assert (Hend : ∀ w0, pcalls (EndRequest c w0)
                       = pcalls w0 ++ [EndRequestCalled c]
                       ∧ numRequests (EndRequest c w0) c
                         = uint32_sub (numRequests w0 c) 1).
  { intros w0. unfold EndRequest. split; [done|].
    by rewrite numRequests_set, numRequests_logCall. }
  split_and!; [done|done| | |].
  - intros pr err w3 Hin. rewrite Hin in Hp.
    eexists. split; [done|]. apply Hend.
  - intros pr w3 Hin. rewrite Hin in Hp.
    eexists. split; [done|]. intros di w0.
    exists (EndRequest c w0). destruct (Hend w0) as [H1 H2].
    split_and!; [done|done|]. unfold wrappedDone. by destruct (Done pr).
  - intros Hleaf.
    destruct (leafPicker_frame (dp_p d) info w2 Hleaf)
      as (pr & err & w3 & Hin & Hcalls & Hinfl & Hdone).
    rewrite Hin in Hp. destruct err as [e|].
    + eexists _, _, _. split; [done|]. destruct (Hend w3) as [H1 H2].
      rewrite H1, H2, Hcalls, Hcalls2. split; [by rewrite <- !app_assoc|].
      unfold numRequests at 1. rewrite Hinfl. by fold (numRequests w2 c); rewrite Hnum2.
    + eexists _, _, _. split; [done|]. split_and!.
      * by rewrite Hcalls.
      * unfold numRequests at 1. rewrite Hinfl. by fold (numRequests w2 c).
      * eexists. split; [done|]. intros di w0. unfold wrappedDone.
        destruct (Hend w0) as [H1 H2].
        destruct (Done pr) as [g|] eqn:Hg.
        -- destruct (Hdone g eq_refl di
                       (logCall (oldDoneCalled di) (EndRequest c w0)))
             as [Hgc Hgi].
           split.
           ++ right. rewrite Hgc.
              change (pcalls (logCall ?c0 ?w1)) with (pcalls w1 ++ [c0]).
              rewrite H1. by rewrite <- app_assoc.
           ++ unfold numRequests at 1. rewrite Hgi. exact H2.
        -- split; [by left|done].
Qed.

End PickProofs.

Section PickWitnesses.
Import xdsclient edsbalancer pick_spec fixtures.

(** The sample 149 falls below the numerator: the pick is dropped and
    reported under the category of the dropper. *)
Lemma dropPicker_Pick_drop_witness :
  let d := newDropPicker (ErrPicker (Errorf "inner")) [newDropper throttle]
             (Some "cluster") None 1024 in
  ∃ w', Pick (DropPicker d) {| FullMethodName := "m" |} (constWorld 149)
        = (Returns (PickResult_zero,
                    Some (StatusError Unavailable "RPC is dropped")), w')
    ∧ pcalls w' = [dropCalled throttle; CallDropped "cluster" "throttle"].
Proof.
  intros d.
  destruct (proj1 (proj2 (dropPicker_Pick_drop d {| FullMethodName := "m" |}
                            (constWorld 149)))
              [] (newDropper throttle) [] eq_refl)
    as (w' & Hpick & Hcalls & _).
  - intros i dp Hi. by destruct i.
  - reflexivity.
  - exists w'. split; [exact Hpick|exact Hcalls].
Defined.

(** The sample 150 does not drop, the counter of service [svc] is below its
    cap and the inner picker fails: the pick ends with [EndRequest]. *)
Lemma dropPicker_Pick_EndRequest_once_witness :
  let d := newDropPicker (ErrPicker (Errorf "inner")) [newDropper throttle]
             (Some "cluster") (Some "svc") 1024 in
  ∃ pr w', Pick (DropPicker d) {| FullMethodName := "m" |} (constWorld 150)
           = (Returns (pr, Some (Errorf "inner")), w')
    ∧ pcalls w' = [dropCalled throttle; StartRequestCalled "svc" 1024;
                   PickCalled {| FullMethodName := "m" |};
                   EndRequestCalled "svc"]
    ∧ numRequests w' "svc" = 0%N.
Proof.
  intros d.
  destruct (dropPicker_Pick_EndRequest_once d "svc" {| FullMethodName := "m" |}
              (constWorld 150) eq_refl)
    as (_ & _ & _ & _ & Hleaf).
  - intros i dp Hi. destruct i as [|i]; [|by destruct i].
    injection Hi as <-. reflexivity.
  - reflexivity.
  - destruct (Hleaf I) as (pr & err & w' & Hpick & Hpost).
    assert (Herr : err = Some (Errorf "inner")).
    { change (Pick (DropPicker d) {| FullMethodName := "m" |} (constWorld 150))
        with (Returns (@PickResult_zero (world unit), Some (Errorf "inner")),
              {| child := tt; inflight := {[ "svc" := 0%N ]};
                 rand := fun _ => 150%N; randPos := 1;
                 pcalls := [dropCalled throttle;
                            StartRequestCalled "svc" 1024;
                            PickCalled {| FullMethodName := "m" |};
                            EndRequestCalled "svc"] |}) in Hpick.
      congruence. }
    subst err. destruct Hpost as [Hcalls Hnum].
    exists pr, w'. split_and!; [exact Hpick|exact Hcalls|exact Hnum].
Defined.

End PickWitnesses.


(** * The EDS balancer: proofs *)

Section EDSProofs.
Import xdsclient edsbalancer eds_spec.
Context {I : Type}.
Variable ToString : LocalityID -> option string.

Implicit Types (pp : perPriority) (l : Locality) (ls : list Locality).
Implicit Types (e : edsBalancerImpl I) (evs : list (event I)).

(** ** The addresses of a locality *)

Lemma visitEndpoint_spec b acc ep :
  (healthy ep ∧ ∃ a, visitEndpoint b acc ep = acc ++ [a] ∧ forwardedFor b ep a)
  ∨ (¬ healthy ep ∧ visitEndpoint b acc ep = acc).
Proof.
  unfold visitEndpoint, healthy.
  destruct (bool_decide_reflect
              (HealthStatus ep = EndpointHealthStatusHealthy)) as [Hh|Hh];
    destruct (bool_decide_reflect
                (HealthStatus ep = EndpointHealthStatusUnknown)) as [Hu|Hu];
    simpl; try (right; split; [tauto|done]); left; (split; [tauto|]);
    eexists; (split; [done|]); unfold forwardedFor;
    destruct (String.eqb_spec b weightedroundrobin_Name) as [Hb|Hb];
    destruct (N.eqb_spec (EWeight ep) 0) as [Hw|Hw]; simpl;
    (split_and!;
     [done
     |split; [intros [?|?]; done|intros [? ?]; try done; by left]
     |done
     |intros ai [[=]|[=]]; by subst]).
Qed.

Lemma newAddrs_forwardedOK b eps acc :
  ∃ tail, fold_left (visitEndpoint b) eps acc = acc ++ tail
          ∧ Forall2 (forwardedFor b) (filter healthy eps) tail.
Proof.
  revert acc. induction eps as [|ep eps IH]; intros acc; simpl.
  - exists []. by rewrite app_nil_r.
  - destruct (visitEndpoint_spec b acc ep) as [(Hh & a & -> & Ha)|(Hh & ->)].
    + destruct (IH (acc ++ [a])) as (tail & -> & Htail).
      exists (a :: tail). rewrite <- app_assoc. split; [done|].
      rewrite filter_cons_True by done. by constructor.
    + destruct (IH acc) as (tail & -> & Htail).
      exists tail. split; [done|]. by rewrite filter_cons_False.
Qed.

Lemma newAddrsOf_forwardedOK b l : forwardedOK b l (newAddrsOf b l).
Proof.
  unfold forwardedOK, newAddrsOf.
  by destruct (newAddrs_forwardedOK b (Endpoints l) []) as (tail & -> & ?).
Qed.

(** ** One priority *)

Lemma okLids_cons l ls :
  okLids ToString (l :: ls)
  = (if decide (is_Some (ToString (ID l))) then {[ID l]} else ∅)
    ∪ okLids ToString ls.
Proof.
  unfold okLids. rewrite fmap_cons. destruct (decide _) as [Hs|Hs].
  - rewrite filter_cons_True by done. by rewrite list_to_set_cons.
  - rewrite filter_cons_False by done. set_solver.
Qed.

Lemma elem_of_okLids lid ls :
  lid ∈ okLids ToString ls
  ↔ is_Some (ToString lid) ∧ ∃ l, l ∈ ls ∧ ID l = lid.
Proof.
  unfold okLids. rewrite elem_of_list_to_set, list_elem_of_filter.
  rewrite list_elem_of_fmap. naive_solver.
Qed.

(** What one iteration over a locality does. *)
Lemma visitLocality_None b priority l pp :
  ToString (ID l) = None →
  visitLocality (I:=I) ToString b priority l pp = (pp, []).
Proof. intros H. unfold visitLocality. by rewrite H. Qed.

Lemma visitLocality_Some b priority l pp id :
  ToString (ID l) = Some id →
  ∃ cfg rebuild evs,
    visitLocality ToString b priority l pp
    = ({| pp_configs := <[ID l := cfg]> (pp_configs pp);
          newLocalitiesSet := {[ID l]} ∪ newLocalitiesSet pp;
          rebuildStateAndPicker := rebuild |}, evs)
    ∧ (is_Some (pp_configs pp !! ID l) → ∀ ev, ev ∈ evs → ¬ isAddOrRemove ev)
    ∧ (∀ p' id' addresses,
         bgUpdateClientConnState p' id' addresses ∈ evs →
         p' = priority ∧ id' = id ∧ addresses = newAddrsOf b l)
    ∧ (pp_configs pp !! ID l = None →
       bgUpdateClientConnState priority id (newAddrsOf b l) ∈ evs).
Proof.
  intros Hid. unfold visitLocality. rewrite Hid.
  destruct (pp_configs pp !! ID l) as [config|] eqn:Hcfg.
  - destruct (bool_decide (weight config = Weight l));
      destruct (bool_decide (addrs config = newAddrsOf b l)); simpl;
      eexists _, _, _; (split; [done|]);
      (split_and!;
       [intros _ ev Hev; set_solver
       |intros p' id' adr Hev; set_solver
       |done]).
  - simpl. eexists _, _, _. split; [done|].
    split_and!.
    + by intros [? ?].
    + intros p' id' adr Hev. set_solver.
    + intros _. set_solver.
Qed.

Lemma rangeLocalities_spec b priority ls pp :
  ∃ pp' evs,
    rangeLocalities ToString b priority ls pp = (pp', evs)
    ∧ newLocalitiesSet pp' = okLids ToString ls ∪ newLocalitiesSet pp
    ∧ (∀ lid, is_Some (pp_configs pp' !! lid)
              ↔ lid ∈ okLids ToString ls ∨ is_Some (pp_configs pp !! lid))
    ∧ ((∀ lid, lid ∈ okLids ToString ls → is_Some (pp_configs pp !! lid)) →
       ∀ ev, ev ∈ evs → ¬ isAddOrRemove ev)
    ∧ (∀ p' id addresses,
         bgUpdateClientConnState p' id addresses ∈ evs →
         p' = priority
         ∧ ∃ l, l ∈ ls ∧ ToString (ID l) = Some id
                ∧ addresses = newAddrsOf b l)
    ∧ (∀ l id, l ∈ ls → ToString (ID l) = Some id →
               pp_configs pp !! ID l = None →
               ∃ addresses, bgUpdateClientConnState priority id addresses ∈ evs).
Proof.
  revert pp. induction ls as [|l ls IH]; intros pp.
  - eexists _, _. split; [done|]. split_and!.
    + set_solver.
    + intros lid. set_solver.
    + intros _ ev Hev. by apply elem_of_nil in Hev.
    + intros ??? Hev. by apply elem_of_nil in Hev.
    + intros ?? Hin. by apply elem_of_nil in Hin.
  - cbn [rangeLocalities]. rewrite okLids_cons.
    destruct (ToString (ID l)) as [id|] eqn:Hid.
    + destruct (visitLocality_Some b priority l pp id Hid)
        as (cfg & rebuild & ev1 & -> & Hquiet & Hfwd & Hnew).
      match goal with
      | |- context [rangeLocalities _ _ _ ls ?pp1] =>
          destruct (IH pp1) as (pp' & ev2 & -> & Hset & Hdom & Hq2 & Hf2 & Hn2)
      end.
      simpl in *. try rewrite decide_True by (by eexists).
      eexists _, _. split; [done|]. split_and!.
      * rewrite Hset. set_solver.
      * intros lid. rewrite Hdom.
        destruct (decide (lid = ID l)) as [->|Hne].
        -- rewrite lookup_insert_eq. split; [intros _; left; set_solver|].
           intros _. right. by eexists.
        -- rewrite lookup_insert_ne by done. set_solver.
      * intros Hall ev Hev. apply elem_of_app in Hev as [Hev|Hev].
        -- eapply Hquiet; [|done]. apply Hall. set_solver.
        -- eapply Hq2; [|done]. intros lid Hlid.
           destruct (decide (lid = ID l)) as [->|Hne].
           ++ rewrite lookup_insert_eq. by eexists.
           ++ rewrite lookup_insert_ne by done. apply Hall. set_solver.
      * intros p' id' adr Hev. apply elem_of_app in Hev as [Hev|Hev].
        -- destruct (Hfwd _ _ _ Hev) as (-> & -> & ->).
           split; [done|]. exists l. split; [by left|done].
        -- destruct (Hf2 _ _ _ Hev) as (-> & l' & Hl' & Hid' & ->).
           split; [done|]. exists l'. split; [by right|done].
      * intros l' id' Hin Hid' Hnone.
        destruct (decide (ID l' = ID l)) as [Heq|Hne].
        -- rewrite Heq in Hnone, Hid'. assert (id' = id) as -> by congruence.
           eexists. apply elem_of_app. left. by apply Hnew.
        -- apply elem_of_cons in Hin as [->|Hin]; [done|].
           destruct (Hn2 l' id' Hin Hid') as [adr Hadr].
           { by rewrite lookup_insert_ne. }
           eexists. apply elem_of_app. right. exact Hadr.
    + rewrite (visitLocality_None b priority l pp Hid).
      destruct (IH pp) as (pp' & ev2 & -> & Hset & Hdom & Hq2 & Hf2 & Hn2).
      try rewrite decide_False by (by intros [? ?]).
      eexists _, _. split; [done|]. simpl. split_and!.
      * rewrite Hset. set_solver.
      * intros lid. rewrite Hdom. set_solver.
      * intros Hall. apply Hq2. intros lid Hlid. apply Hall. set_solver.
      * intros p' id' adr Hev.
        destruct (Hf2 _ _ _ Hev) as (-> & l' & Hl' & Hid' & ->).
        split; [done|]. exists l'. split; [by right|done].
      * intros l' id' Hin Hid' Hnone.
        apply elem_of_cons in Hin as [->|Hin]; [congruence|].
        by eapply Hn2.
Qed.

(** The keys that a range over a map visits are the keys of the map. *)
Lemma range_keys `{Countable K} {V} (ro : rangeOrder) (m : gmap K V) k :
  rangeOrder_valid ro →
  k ∈ (ro _ (map_to_list m)).*1 ↔ is_Some (m !! k).
Proof.
  intros Hro. rewrite list_elem_of_fmap. split.
  - intros ([k' v] & -> & Hin). rewrite (Hro _ (map_to_list m)) in Hin.
    apply elem_of_map_to_list in Hin. by eexists.
  - intros [v Hv]. exists (k, v). split; [done|].
    rewrite (Hro _ (map_to_list m)). by apply elem_of_map_to_list.
Qed.

Lemma range_entries `{Countable K} {V} (ro : rangeOrder) (m : gmap K V) k v :
  rangeOrder_valid ro →
  (k, v) ∈ ro _ (map_to_list m) ↔ m !! k = Some v.
Proof.
  intros Hro. rewrite (Hro _ (map_to_list m)). apply elem_of_map_to_list.
Qed.

Lemma rangeConfigs_spec priority lids pp :
  ∃ pp' evs,
    rangeConfigs (I:=I) ToString priority lids pp = (pp', evs)
    ∧ newLocalitiesSet pp' = newLocalitiesSet pp
    ∧ (∀ lid, is_Some (pp_configs pp' !! lid)
              ↔ is_Some (pp_configs pp !! lid)
                ∧ ¬ (lid ∈ lids ∧ is_Some (ToString lid)
                     ∧ lid ∉ newLocalitiesSet pp))
    ∧ ((∀ lid, lid ∈ lids → is_Some (ToString lid) →
               lid ∈ newLocalitiesSet pp) →
       evs = [] ∧ pp' = pp)
    ∧ (∀ p' id addresses, bgUpdateClientConnState p' id addresses ∉ evs).
Proof.
  revert pp. induction lids as [|lid0 lids IH]; intros pp.
  - eexists _, _. split; [done|]. split_and!; [done| |done|].
    + intros lid. split; [|tauto]. intros Hs. split; [done|].
      intros (Hin & _). by apply elem_of_nil in Hin.
    + intros ??? Hin. by apply elem_of_nil in Hin.
  - cbn [rangeConfigs]. unfold visitConfig.
    destruct (ToString lid0) as [id0|] eqn:Hid0;
      [destruct (bool_decide_reflect (lid0 ∈ newLocalitiesSet pp))
         as [Hin0|Hout0]|].
    + destruct (IH pp) as (pp' & evs & -> & Hset & Hdom & Hquiet & Hno).
      eexists _, _. split; [done|]. simpl. split_and!; [done| | |done].
      * intros lid. rewrite Hdom. split; intros [Hs Hn]; (split; [done|]).
        -- intros (Hin & Hok & Hnot). apply Hn.
           apply elem_of_cons in Hin as [->|Hin]; done.
        -- intros (Hin & Hok & Hnot). apply Hn.
           split_and!; [by right|done|done].
      * intros Hall. apply Hquiet. intros lid Hin. apply Hall. by right.
    + match goal with
      | |- context [rangeConfigs _ _ lids ?pp1] =>
          destruct (IH pp1) as (pp' & evs & -> & Hset & Hdom & Hquiet & Hno)
      end.
      simpl in *. eexists _, _. split; [done|]. split_and!; [done| | |].
      * intros lid. rewrite Hdom.
        destruct (decide (lid = lid0)) as [->|Hne].
        -- rewrite lookup_delete_eq. split; [by intros [[? ?] _]|].
           intros [_ Hn]. exfalso. apply Hn.
           split_and!; [by left|by eexists|done].
        -- rewrite lookup_delete_ne by done.
           split; intros [Hs Hn]; (split; [done|]).
           ++ intros (Hin & Hok & Hnot). apply Hn.
              apply elem_of_cons in Hin as [->|Hin]; done.
           ++ intros (Hin & Hok & Hnot). apply Hn.
              split_and!; [by right|done|done].
      * intros Hall. exfalso. apply Hout0, Hall; [by left|by eexists].
      * intros p' id adr Hin. simpl in Hin.
        apply elem_of_cons in Hin as [?|Hin]; [done|].
        apply elem_of_cons in Hin as [?|Hin]; [done|].
        by eapply Hno.
    + destruct (IH pp) as (pp' & evs & -> & Hset & Hdom & Hquiet & Hno).
      eexists _, _. split; [done|]. simpl. split_and!; [done| | |done].
      * intros lid. rewrite Hdom. split; intros [Hs Hn]; (split; [done|]).
        -- intros (Hin & Hok & Hnot). apply Hn.
           apply elem_of_cons in Hin as [->|Hin]; [|done].
           rewrite Hid0 in Hok. by destruct Hok.
        -- intros (Hin & Hok & Hnot). apply Hn.
           split_and!; [by right|done|done].
      * intros Hall. apply Hquiet. intros lid Hin. apply Hall. by right.
Qed.

(** [handleEDSResponsePerPriority] settles the configs of the priority; on
    settled configs it makes no Add and no Remove call.  The addresses it
    forwards are those of localities of the list. *)
Lemma handleEDSResponsePerPriority_spec ro e priority bgwc ls :
  rangeOrder_valid ro →
  ∃ bgwc' evs,
    handleEDSResponsePerPriority ToString ro e priority bgwc ls = (bgwc', evs)
    ∧ settled ToString ls (configs bgwc')
    ∧ (settled ToString ls (configs bgwc) →
       ∀ ev, ev ∈ evs → ¬ isAddOrRemove ev)
    ∧ (∀ p' id addresses,
         bgUpdateClientConnState p' id addresses ∈ evs →
         p' = priority
         ∧ ∃ l, l ∈ ls ∧ ToString (ID l) = Some id
                ∧ addresses = newAddrsOf (subBalancerBuilder e) l)
    ∧ (∀ l id, l ∈ ls → ToString (ID l) = Some id →
               configs bgwc !! ID l = None →
               ∃ addresses, bgUpdateClientConnState priority id addresses ∈ evs).
Proof.
  intros Hro. unfold handleEDSResponsePerPriority.
  match goal with
  | |- context [rangeLocalities _ _ _ ls ?pp0] =>
      destruct (rangeLocalities_spec (subBalancerBuilder e) priority ls pp0)
        as (pp1 & ev1 & -> & Hset1 & Hdom1 & Hq1 & Hf1 & Hn1)
  end.
  simpl in Hset1, Hdom1, Hq1, Hn1.
  destruct (rangeConfigs_spec priority
              (ro _ (map_to_list (pp_configs pp1))).*1 pp1)
    as (pp2 & ev2 & -> & Hset2 & Hdom2 & Hq2 & Hno2).
  assert (Hnew : newLocalitiesSet pp1 = okLids ToString ls) by set_solver.
  eexists _, _. split; [done|]. simpl. split_and!.
  - split.
    + intros lid Hlid. apply Hdom2. split; [apply Hdom1; by left|].
      intros (_ & _ & Hnot). apply Hnot. by rewrite Hnew.
    + intros lid Hs Hok. apply Hdom2 in Hs as [Hs Hn].
      destruct (decide (lid ∈ okLids ToString ls)) as [|Hout]; [done|].
      exfalso. apply Hn. split_and!; [|done|by rewrite Hnew].
      by apply range_keys.
  - intros [Hs1 Hs2] ev Hev.
    destruct Hq2 as [-> ->].
    { intros lid Hin Hok. rewrite Hnew.
      apply range_keys in Hin; [|done].
      apply Hdom1 in Hin as [Hin|Hin]; [done|by apply Hs2]. }
    apply elem_of_app in Hev as [Hev|Hev]; [by eapply Hq1|].
    simpl in Hev. destruct (rebuildStateAndPicker pp1); [|by apply elem_of_nil in Hev].
    apply list_elem_of_singleton in Hev as ->. by intros [].
  - intros p' id adr Hev.
    apply elem_of_app in Hev as [Hev|Hev]; [by apply Hf1|].
    apply elem_of_app in Hev as [Hev|Hev]; [by apply Hno2 in Hev|].
    destruct (rebuildStateAndPicker pp2); [|by apply elem_of_nil in Hev].
    by apply list_elem_of_singleton in Hev.
  - intros l id Hin Hid Hnone.
    destruct (Hn1 l id Hin Hid Hnone) as [adr Hadr].
    exists adr. apply elem_of_app. by left.
Qed.

(** C4.  Every address list that [handleEDSResponsePerPriority] forwards to
    a child balancer is the list of a locality of the response, under its
    key: one address for each endpoint of that locality whose health is
    Healthy or Unknown, in order, and nothing else; an address carries weight
    information exactly when the child policy is weighted round robin and the
    weight of its endpoint is not zero.  The list computed for any locality
    has this form, and a locality that is new to the priority has an address
    list forwarded under its key. *)
Theorem handleEDSResponsePerPriority_addresses ro e priority bgwc ls :
  rangeOrder_valid ro →
  (∀ l, forwardedOK (subBalancerBuilder e) l
          (newAddrsOf (subBalancerBuilder e) l))
  ∧ (∀ p' id addresses,
       bgUpdateClientConnState p' id addresses
         ∈ (handleEDSResponsePerPriority (I:=I) ToString ro e priority bgwc ls).2 →
       p' = priority
       ∧ ∃ l, l ∈ ls ∧ ToString (ID l) = Some id
              ∧ forwardedOK (subBalancerBuilder e) l addresses)
  ∧ (∀ l id, l ∈ ls → ToString (ID l) = Some id →
             configs bgwc !! ID l = None →
             ∃ addresses,
               bgUpdateClientConnState priority id addresses
                 ∈ (handleEDSResponsePerPriority (I:=I) ToString ro e priority
                      bgwc ls).2).
Proof.
  intros Hro.
  destruct (handleEDSResponsePerPriority_spec ro e priority bgwc ls Hro)
    as (bgwc' & evs & Heq & _ & _ & Hfwd & Hnew).
  rewrite Heq. simpl. split_and!.
  - intros l. apply newAddrsOf_forwardedOK.
  - intros p' id adr Hev.
    destruct (Hfwd _ _ _ Hev) as (-> & l & Hl & Hid & ->).
    split; [done|]. exists l. split_and!; [done|done|].
    apply newAddrsOf_forwardedOK.
  - intros l id Hl Hid Hnone. by eapply Hnew.
Qed.

(** *** Weights and addresses *)

Lemma visitLocality_exact b priority l pp id :
  ToString (ID l) = Some id →
  ∃ rebuild evs,
    visitLocality (I:=I) ToString b priority l pp
    = ({| pp_configs := <[ID l := exactCfg b l]> (pp_configs pp);
          newLocalitiesSet := {[ID l]} ∪ newLocalitiesSet pp;
          rebuildStateAndPicker := rebuild |}, evs)
    ∧ (pp_configs pp !! ID l = Some (exactCfg b l) →
       rebuild = rebuildStateAndPicker pp ∧ evs = []).
Proof.
  intros Hid. unfold visitLocality. rewrite Hid.
  destruct (pp_configs pp !! ID l) as [config|] eqn:Hcfg.
  - destruct (bool_decide_reflect (weight config = Weight l)) as [Hw|Hw];
      destruct (bool_decide_reflect (addrs config = newAddrsOf b l))
        as [Ha|Ha]; simpl; eexists _, _.
    + split; [|done]. do 2 f_equal. destruct config; simpl in *. by subst.
    + split; [by rewrite Hw|]. intros [= ->]. done.
    + split; [by rewrite Ha|]. intros [= ->]. done.
    + split; [done|]. intros [= ->]. done.
  - simpl. eexists _, _. split; [done|]. done.
Qed.

Lemma rangeLocalities_exact b priority ls pp :
  ∃ pp' evs,
    rangeLocalities (I:=I) ToString b priority ls pp = (pp', evs)
    ∧ (NoDup (ID <$> ls) → exactOn ToString b ls (pp_configs pp'))
    ∧ (∀ lid, lid ∉ okLids ToString ls →
              pp_configs pp' !! lid = pp_configs pp !! lid)
    ∧ (exactOn ToString b ls (pp_configs pp) →
       pp_configs pp' = pp_configs pp
       ∧ rebuildStateAndPicker pp' = rebuildStateAndPicker pp
       ∧ evs = []).
Proof.
  revert pp. induction ls as [|l ls IH]; intros pp.
  - exists pp, []. split_and!; [done| |done|done].
    intros _ l Hin. by apply elem_of_nil in Hin.
  - cbn [rangeLocalities].
    destruct (ToString (ID l)) as [id|] eqn:Hid.
    + destruct (visitLocality_exact b priority l pp id Hid)
        as (rebuild & ev1 & -> & Hsame).
      match goal with
      | |- context [rangeLocalities _ _ _ ls ?pp1] =>
          destruct (IH pp1) as (pp' & ev2 & -> & Hex & Hrest & Hquiet)
      end.
      simpl in *. exists pp', (ev1 ++ ev2). split; [done|]. split_and!.
      * try rewrite fmap_cons. intros [Hl Hnd]%NoDup_cons l0 Hin Hok.
        apply elem_of_cons in Hin as [->|Hin].
        -- rewrite Hrest; [by rewrite lookup_insert_eq|].
           intros Hin%elem_of_okLids. destruct Hin as (_ & l' & Hl' & Heq).
           apply Hl. rewrite <- Heq. by apply list_elem_of_fmap_2.
        -- by apply Hex.
      * intros lid Hlid. rewrite okLids_cons in Hlid.
        rewrite decide_True in Hlid by (by rewrite Hid).
        rewrite Hrest by set_solver.
        rewrite lookup_insert_ne; [done|]. set_solver.
      * intros Hexact.
        assert (Hl : pp_configs pp !! ID l = Some (exactCfg b l)).
        { apply Hexact; [by left|by rewrite Hid]. }
        destruct (Hsame Hl) as [-> ->].
        rewrite (insert_id _ _ _ Hl) in Hquiet.
        destruct Hquiet as (-> & -> & ->); [|done].
        intros l0 Hin Hok. apply Hexact; [by right|done].
    + rewrite (visitLocality_None b priority l pp Hid).
      destruct (IH pp) as (pp' & ev2 & -> & Hex & Hrest & Hquiet).
      exists pp', ev2. split; [done|]. split_and!.
      * try rewrite fmap_cons. intros [Hl Hnd]%NoDup_cons l0 Hin Hok.
        apply elem_of_cons in Hin as [->|Hin].
        -- rewrite Hid in Hok. by destruct Hok.
        -- by apply Hex.
      * intros lid Hlid. apply Hrest. rewrite okLids_cons in Hlid. set_solver.
      * intros Hexact. apply Hquiet.
        intros l0 Hin Hok. apply Hexact; [by right|done].
Qed.

(** The loop that removes localities keeps those of the response as they
    are. *)
Lemma rangeConfigs_keep priority lids pp lid :
  lid ∈ newLocalitiesSet pp →
  pp_configs (rangeConfigs (I:=I) ToString priority lids pp).1 !! lid
  = pp_configs pp !! lid.
Proof.
  revert pp. induction lids as [|lid0 lids IH]; intros pp Hin; [done|].
  cbn [rangeConfigs]. unfold visitConfig.
  destruct (ToString lid0) as [id0|];
    [destruct (bool_decide_reflect (lid0 ∈ newLocalitiesSet pp))
       as [Hin0|Hout0]|].
  - specialize (IH pp Hin).
    destruct (rangeConfigs ToString priority lids pp) as [pp' evs]. done.
  - match goal with
    | |- context [rangeConfigs _ _ lids ?pp1] =>
        specialize (IH pp1 Hin);
        destruct (rangeConfigs (I:=I) ToString priority lids pp1) as [pp' evs]
    end.
    simpl in *. rewrite IH. apply lookup_delete_ne. by intros ->.
  - specialize (IH pp Hin).
    destruct (rangeConfigs ToString priority lids pp) as [pp' evs]. done.
Qed.

(** After [handleEDSResponsePerPriority] the configs hold the weight and the
    addresses of every locality of the list, when their IDs are distinct; on
    settled configs that already hold them it makes no call and changes
    nothing. *)
Lemma handleEDSResponsePerPriority_exact ro e priority bgwc ls :
  rangeOrder_valid ro →
  (NoDup (ID <$> ls) →
   exactOn ToString (subBalancerBuilder e) ls
     (configs (handleEDSResponsePerPriority (I:=I) ToString ro e priority
                 bgwc ls).1))
  ∧ (settled ToString ls (configs bgwc) →
     exactOn ToString (subBalancerBuilder e) ls (configs bgwc) →
     handleEDSResponsePerPriority (I:=I) ToString ro e priority bgwc ls
     = (bgwc, [])).
Proof.
  intros Hro. unfold handleEDSResponsePerPriority.
  match goal with
  | |- context [rangeLocalities _ _ _ ls ?pp0] =>
      destruct (rangeLocalities_exact (subBalancerBuilder e) priority ls pp0)
        as (pp1 & ev1 & Heq & Hex & _ & Hquiet);
      destruct (rangeLocalities_spec (subBalancerBuilder e) priority ls pp0)
        as (pp1' & ev1' & Heq' & Hset1 & Hdom1 & _);
      rewrite Heq in Heq'; injection Heq' as <- <-; rewrite Heq
  end.
  simpl in Hset1, Hdom1, Hquiet.
  assert (Hnew : newLocalitiesSet pp1 = okLids ToString ls) by set_solver.
  split.
  - intros Hnd l Hl Hok.
    pose proof (rangeConfigs_keep priority
                  (ro _ (map_to_list (pp_configs pp1))).*1 pp1 (ID l)) as Hk.
    destruct (rangeConfigs _ _ _ pp1) as [pp2 ev2]. simpl in *.
    rewrite Hk; [by apply Hex|].
    rewrite Hnew. apply elem_of_okLids. split; [done|by exists l].
  - intros [Hs1 Hs2] Hexact.
    destruct (Hquiet Hexact) as (Hcfg & Hreb & ->).
    destruct (rangeConfigs_spec priority
                (ro _ (map_to_list (pp_configs pp1))).*1 pp1)
      as (pp2 & ev2 & -> & _ & _ & Hq2 & _).
    destruct Hq2 as [-> ->].
    { intros lid Hin Hok. rewrite Hnew.
      apply range_keys in Hin; [|done].
      rewrite Hcfg in Hin. by apply Hs2. }
    rewrite Hreb, Hcfg. by destruct bgwc.
Qed.

(** ** The whole response *)

Variable handlePriorityChange :
  edsBalancerImpl I -> priorityFields I * list (event I).

Lemma updateDrops_spec dc e :
  ∃ ds evs,
    updateDrops dc e = (set_drops dc ds e, evs)
    ∧ (∀ ev, ev ∈ evs → ∃ s, ev = ccUpdateState s
                             ∧ s ≠ allPrioritiesRemovedState)
    ∧ (dc = dropConfig e → ds = drops e ∧ evs = []).
Proof.
  unfold updateDrops.
  destruct (bool_decide_reflect (dc = dropConfig e)) as [->|Hne].
  - exists (drops e), []. split_and!; [by destruct e| |done].
    intros ev Hev. by apply elem_of_nil in Hev.
  - simpl. destruct (StatePicker (innerState e)) as [pk|].
    + eexists _, _. split; [done|]. split; [|done].
      intros ev Hev. apply list_elem_of_singleton in Hev as ->.
      eexists. split; [done|]. unfold allPrioritiesRemovedState. congruence.
    + eexists _, _. split; [done|]. split; [|done].
      intros ev Hev. by apply elem_of_nil in Hev.
Qed.

(** What one iteration over a priority of the response does. *)
Lemma visitPriority_spec ro p ls (pl : priorityLoop) :
  rangeOrder_valid ro →
  ∃ bgwc' lowest changed evs,
    visitPriority (I:=I) ToString ro (p, ls) pl
    = ({| pl_impl :=
            set_priorityToLocalities
              (<[p := bgwc']> (priorityToLocalities (pl_impl pl)))
              (pl_impl pl);
          pl_priorityLowest := lowest;
          pl_priorityChanged := changed |}, evs)
    ∧ settled ToString ls (configs bgwc')
    ∧ (∀ bgwc, priorityToLocalities (pl_impl pl) !! p = Some bgwc →
               settled ToString ls (configs bgwc) →
               changed = pl_priorityChanged pl
               ∧ ∀ ev, ev ∈ evs → ¬ isAddOrRemove ev).
Proof.
  intros Hro. unfold visitPriority.
  destruct (priorityToLocalities (pl_impl pl) !! p) as [bgwc|] eqn:Hp.
  - destruct (handleEDSResponsePerPriority_spec ro (pl_impl pl) p bgwc ls Hro)
      as (bgwc' & evs & -> & Hset & Hquiet & _).
    eexists _, _, _, _. split; [done|]. split; [done|].
    intros bgwc0 [= <-] Hs. split; [done|]. simpl. by apply Hquiet.
  - destruct (handleEDSResponsePerPriority_spec ro (pl_impl pl) p
                {| configs := ∅ |} ls Hro)
      as (bgwc' & evs & -> & Hset & _).
    eexists _, _, _, _. split; [done|]. split; [done|]. done.
Qed.

(** The loop over the priorities of the response settles each of them and
    leaves the other priorities and the other fields alone. *)
Lemma rangePriorities_post ro (L : list (priorityType * list Locality))
    (pl : priorityLoop) :
  rangeOrder_valid ro →
  NoDup L.*1 →
  ∃ pl' evs m',
    rangePriorities (I:=I) ToString ro L pl = (pl', evs)
    ∧ pl_impl pl' = set_priorityToLocalities m' (pl_impl pl)
    ∧ (∀ p ls, (p, ls) ∈ L →
               ∃ bgwc, m' !! p = Some bgwc ∧ settled ToString ls (configs bgwc))
    ∧ (∀ p, p ∉ L.*1 → m' !! p = priorityToLocalities (pl_impl pl) !! p).
Proof.
  intros Hro. revert pl. induction L as [|[p ls] L IH]; intros pl Hnd.
  - exists pl, [], (priorityToLocalities (pl_impl pl)).
    split_and!; [done|by destruct pl as [[] ? ?]| |done].
    intros ?? Hin. by apply elem_of_nil in Hin.
  - apply NoDup_cons in Hnd as [Hp Hnd]. cbn [rangePriorities].
    destruct (visitPriority_spec ro p ls pl Hro)
      as (bgwc' & lowest & changed & ev1 & -> & Hset & _).
    match goal with
    | |- context [rangePriorities _ _ L ?pl1] =>
        destruct (IH pl1 Hnd) as (pl' & ev2 & m' & -> & Himpl & Hall & Hrest)
    end.
    simpl in *. exists pl', (ev1 ++ ev2), m'.
    split_and!; [done|by rewrite Himpl| |].
    + intros p0 ls0 Hin. apply elem_of_cons in Hin as [[= -> ->]|Hin].
      * exists bgwc'. split; [|done]. rewrite (Hrest p Hp).
        by rewrite lookup_insert_eq.
      * by apply Hall.
    + intros p0 Hp0. apply not_elem_of_cons in Hp0 as [Hne Hp0].
      rewrite (Hrest p0 Hp0). by rewrite lookup_insert_ne.
Qed.

(** On a settled balancer the loop makes no Add and no Remove call, leaves
    [priorityChanged] alone and keeps the balancer settled. *)
Lemma rangePriorities_quiet ro edsResp
    (L : list (priorityType * list Locality)) (pl : priorityLoop) :
  rangeOrder_valid ro →
  (∀ p ls, (p, ls) ∈ L → newLocalitiesWithPriority edsResp !! p = Some ls) →
  settledFor ToString edsResp (pl_impl pl) →
  ∃ pl' evs,
    rangePriorities (I:=I) ToString ro L pl = (pl', evs)
    ∧ (∀ ev, ev ∈ evs → ¬ isAddOrRemove ev)
    ∧ settledFor ToString edsResp (pl_impl pl')
    ∧ pl_priorityChanged pl' = pl_priorityChanged pl.
Proof.
  intros Hro. revert pl. induction L as [|[p ls] L IH]; intros pl HL Hs.
  - exists pl, []. split_and!; [done| |done|done].
    intros ev Hev. by apply elem_of_nil in Hev.
  - cbn [rangePriorities].
    destruct (visitPriority_spec ro p ls pl Hro)
      as (bgwc' & lowest & changed & ev1 & -> & Hset & Hquiet).
    assert (Hnew : newLocalitiesWithPriority edsResp !! p = Some ls)
      by (apply HL; by left).
    destruct Hs as [Hdom Hcfg].
    destruct (proj2 (Hdom p)) as [bgwc Hbgwc]; [by eexists|].
    destruct (Hquiet bgwc Hbgwc (Hcfg p ls bgwc Hnew Hbgwc)) as [-> Hq1].
    match goal with
    | |- context [rangePriorities _ _ L ?pl1] =>
        destruct (IH pl1) as (pl' & ev2 & -> & Hq2 & Hs' & Hch')
    end.
    { intros ???. apply HL. by right. }
    { unfold settledFor. simpl pl_impl.
      change (priorityToLocalities (set_priorityToLocalities ?m ?e0)) with m.
      split.
      - intros p0. rewrite <- Hdom.
        destruct (decide (p0 = p)) as [->|Hne].
        + rewrite lookup_insert_eq. split; intros _; by eexists.
        + by rewrite lookup_insert_ne.
      - intros p0 ls0 bgwc0 Hn0.
        destruct (decide (p0 = p)) as [->|Hne].
        + rewrite lookup_insert_eq. intros [= <-].
          assert (ls0 = ls) as -> by congruence. done.
        + rewrite lookup_insert_ne by done. by apply Hcfg. }
    eexists _, _. split; [done|]. split_and!; [|done|done].
    intros ev Hev. apply elem_of_app in Hev as [Hev|Hev]; [by apply Hq1|by apply Hq2].
Qed.

(** The loop over the priorities that the balancer knows removes those that
    the response does not have; it makes no Add and no Remove call, and does
    nothing at all when the response has them all. *)
Lemma rangeOldPriorities_spec (new : gmap priorityType (list Locality))
    (ps : list priorityType) (st : edsBalancerImpl I * bool) :
  ∃ st' evs,
    rangeOldPriorities new ps st = (st', evs)
    ∧ (∀ p, priorityToLocalities st'.1 !! p
            = if decide (p ∈ ps ∧ new !! p = None) then None
              else priorityToLocalities st.1 !! p)
    ∧ respReceived st'.1 = respReceived st.1
    ∧ dropConfig st'.1 = dropConfig st.1
    ∧ (∀ ev, ev ∈ evs → ∃ p, ev = bgClose p)
    ∧ ((∀ p, p ∈ ps → is_Some (new !! p)) → st' = st ∧ evs = []).
Proof.
  revert st. induction ps as [|p0 ps IH]; intros st.
  - exists st, []. split_and!; [done| |done|done| |done].
    + intros p. rewrite decide_False; [done|].
      intros [Hin _]. by apply elem_of_nil in Hin.
    + intros ev Hev. by apply elem_of_nil in Hev.
  - cbn [rangeOldPriorities]. unfold visitOldPriority.
    destruct (new !! p0) as [ls0|] eqn:Hp0.
    + destruct (IH st) as (st' & evs & -> & Hptl & Hrr & Hdc & Hev & Hq).
      exists st', evs. split_and!; [done| |done|done|done|].
      * intros p. rewrite Hptl.
        destruct (decide (p ∈ ps ∧ new !! p = None)) as [[Hin Hn]|Hn].
        -- rewrite decide_True; [done|]. split; [by right|done].
        -- rewrite decide_False; [done|]. intros [Hin Hn'].
           apply elem_of_cons in Hin as [->|Hin]; [congruence|tauto].
      * intros Hall. apply Hq. intros p Hp. apply Hall. by right.
    + match goal with
      | |- context [rangeOldPriorities _ ps ?st1] =>
          destruct (IH st1) as (st' & evs & -> & Hptl & Hrr & Hdc & Hev & Hq)
      end.
      simpl in *. eexists _, _. split; [done|].
      split_and!; [|done|done| |].
      * intros p. rewrite Hptl.
        destruct (decide (p ∈ ps ∧ new !! p = None)) as [[Hin Hn]|Hn].
        -- rewrite decide_True; [done|]. split; [by right|done].
        -- destruct (decide (p = p0)) as [->|Hne].
           ++ rewrite lookup_delete_eq. rewrite decide_True; [done|].
              split; [by left|done].
           ++ rewrite lookup_delete_ne by done.
              rewrite decide_False; [done|]. intros [Hin Hn'].
              apply elem_of_cons in Hin as [->|Hin]; [done|tauto].
      * intros ev Hin. apply elem_of_cons in Hin as [->|Hin]; [by eexists|].
        by apply Hev.
      * intros Hall. destruct (Hall p0) as [? ?]; [by left|congruence].
Qed.

Lemma range_NoDup_keys `{Countable K} {V} (ro : rangeOrder) (m : gmap K V) :
  rangeOrder_valid ro → NoDup (ro _ (map_to_list m)).*1.
Proof.
  intros Hro. rewrite (Hro _ (map_to_list m)). apply NoDup_fst_map_to_list.
Qed.

Lemma settledFor_ptl edsResp e e' :
  priorityToLocalities e' = priorityToLocalities e →
  settledFor ToString edsResp e → settledFor ToString edsResp e'.
Proof. unfold settledFor. by intros ->. Qed.

(** After a response the balancer is settled for it, the response is marked
    as received and its drop config is the current one. *)
Lemma handleEDSResponse_settles ro edsResp e :
  rangeOrder_valid ro →
  settledFor ToString edsResp
    (handleEDSResponse ToString handlePriorityChange ro edsResp e).1
  ∧ respReceived
      (handleEDSResponse ToString handlePriorityChange ro edsResp e).1 = true
  ∧ dropConfig
      (handleEDSResponse ToString handlePriorityChange ro edsResp e).1
    = Drops edsResp.
Proof.
  intros Hro. unfold handleEDSResponse.
  destruct (updateDrops_spec (Drops edsResp) (set_respReceived true e))
    as (ds & ev1 & -> & _ & _).
  set (new := newLocalitiesWithPriority edsResp).
  match goal with
  | |- context [rangePriorities _ _ ?L ?pl0] =>
      destruct (rangePriorities_post ro L pl0 Hro (range_NoDup_keys ro new Hro))
        as (pl' & ev2 & m' & -> & Himpl & Hall & Hrest)
  end.
  match goal with
  | |- context [rangeOldPriorities new ?ps ?st0] =>
      destruct (rangeOldPriorities_spec new ps st0)
        as ([e3 changed] & ev3 & -> & Hptl & Hrr & Hdc & _ & _)
  end.
  simpl in Hptl, Hrr, Hdc. rewrite Himpl in Hptl, Hrr, Hdc.
  simpl in Hptl, Hrr, Hdc.
  assert (Hsettled : settledFor ToString edsResp e3).
  { split.
    - intros p. rewrite Hptl. fold new. split.
      + destruct (decide _) as [|Hn]; [by intros [? ?]|].
        intros Hs. destruct (new !! p) eqn:Hp; [by eexists|].
        exfalso. apply Hn. split; [|done]. by apply range_keys.
      + intros [ls Hls].
        rewrite decide_False by (intros [_ ?]; congruence).
        destruct (Hall p ls) as (bgwc & -> & _); [|by eexists].
        by apply range_entries.
    - intros p ls bgwc Hls. rewrite Hptl. fold new in Hls.
      rewrite decide_False by (intros [_ ?]; congruence).
      destruct (Hall p ls) as (bgwc' & -> & Hs); [by apply range_entries|].
      by intros [= <-]. }
  destruct changed.
  - destruct (handlePriorityChange e3) as [pf ev4]. simpl.
    split_and!; [by eapply settledFor_ptl|done|done].
  - simpl. done.
Qed.

(** On a balancer that is settled for the response, the response makes no
    Add and no Remove call. *)
Lemma handleEDSResponse_quiet ro edsResp e :
  rangeOrder_valid ro →
  settledFor ToString edsResp e →
  ∀ ev, ev ∈ (handleEDSResponse ToString handlePriorityChange ro edsResp e).2 →
        ¬ isAddOrRemove ev.
Proof.
  intros Hro Hs. unfold handleEDSResponse.
  destruct (updateDrops_spec (Drops edsResp) (set_respReceived true e))
    as (ds & ev1 & -> & Hev1 & _).
  set (new := newLocalitiesWithPriority edsResp).
  match goal with
  | |- context [rangePriorities _ _ ?L ?pl0] =>
      destruct (rangePriorities_quiet ro edsResp L pl0 Hro)
        as (pl' & ev2 & -> & Hq2 & Hs' & Hch)
  end.
  { intros p ls Hin. by apply range_entries in Hin. }
  { by eapply settledFor_ptl. }
  simpl in Hch.
  match goal with
  | |- context [rangeOldPriorities new ?ps ?st0] =>
      destruct (rangeOldPriorities_spec new ps st0)
        as (st' & ev3 & -> & _ & _ & _ & _ & Hq3)
  end.
  destruct Hq3 as [-> ->].
  { intros p Hp. apply range_keys in Hp; [|done].
    destruct Hs' as [Hdom _]. by apply Hdom. }
  rewrite Hch. intros ev Hev.
  apply elem_of_app in Hev as [Hev|Hev].
  { destruct (negb (respReceived e) && _); [|by apply elem_of_nil in Hev].
    apply list_elem_of_singleton in Hev as ->. by intros []. }
  apply elem_of_app in Hev as [Hev|Hev].
  { destruct (Hev1 ev Hev) as (st & -> & _). by intros []. }
  apply elem_of_app in Hev as [Hev|Hev]; [by apply Hq2|].
  by apply elem_of_nil in Hev.
Qed.

(** *** Applying the same response again *)

(** The buckets of [newLocalitiesWithPriority]: the bucket of a priority holds
    the localities of non-zero weight with that priority, in the order of the
    response, and a priority without such a locality has no bucket. *)
Lemma bucket_fold ls (m : gmap priorityType (list Locality)) p :
  fold_left bucket ls m !! p
  = match filter (inBucket p) ls with
    | [] => m !! p
    | extra => Some (default [] (m !! p) ++ extra)
    end.
Proof.
  revert m. induction ls as [|l ls IH]; intros m; [done|].
  cbn [fold_left]. rewrite IH. unfold bucket.
  destruct (N.eqb_spec (Weight l) 0) as [Hw|Hw].
  - rewrite filter_cons_False; [done|]. by intros [? _].
  - destruct (decide (newPriorityType (Priority l) = p)) as [Hp|Hp].
    + rewrite filter_cons_True by done. subst p.
      rewrite lookup_insert_eq. simpl.
      destruct (filter _ ls); simpl; by rewrite <- ?app_assoc.
    + rewrite filter_cons_False by (by intros [_ ?]).
      by rewrite lookup_insert_ne.
Qed.

Lemma newLocalitiesWithPriority_lookup edsResp p ls :
  newLocalitiesWithPriority edsResp !! p = Some ls →
  ls = filter (inBucket p) (Localities edsResp).
Proof.
  unfold newLocalitiesWithPriority. rewrite bucket_fold, lookup_empty.
  destruct (filter _ _); [done|]. by intros [= <-].
Qed.

(** Distinct IDs across the update give distinct IDs in every bucket. *)
Lemma uniqueIDs_of_NoDup edsResp :
  NoDup (ID <$> Localities edsResp) → uniqueIDs edsResp.
Proof.
  intros Hnd p ls Hls. apply newLocalitiesWithPriority_lookup in Hls as ->.
  eapply sublist_NoDup; [exact Hnd|].
  apply fmap_sublist, sublist_filter.
Qed.

Lemma set_priorityToLocalities_id e :
  set_priorityToLocalities (priorityToLocalities e) e = e.
Proof. by destruct e. Qed.

Lemma visitPriority_exact ro p ls (pl : priorityLoop) :
  rangeOrder_valid ro →
  (NoDup (ID <$> ls) →
   ∃ bgwc,
     priorityToLocalities
       (pl_impl (visitPriority (I:=I) ToString ro (p, ls) pl).1) !! p
     = Some bgwc
     ∧ exactOn ToString (subBalancerBuilder (pl_impl pl)) ls (configs bgwc))
  ∧ (∀ bgwc,
       priorityToLocalities (pl_impl pl) !! p = Some bgwc →
       settled ToString ls (configs bgwc) →
       exactOn ToString (subBalancerBuilder (pl_impl pl)) ls (configs bgwc) →
       pl_impl (visitPriority (I:=I) ToString ro (p, ls) pl).1 = pl_impl pl
       ∧ pl_priorityChanged (visitPriority (I:=I) ToString ro (p, ls) pl).1
         = pl_priorityChanged pl
       ∧ (visitPriority (I:=I) ToString ro (p, ls) pl).2 = []).
Proof.
  intros Hro. unfold visitPriority. split.
  - intros Hnd.
    destruct (priorityToLocalities (pl_impl pl) !! p) as [bgwc|] eqn:Hp.
    + destruct (handleEDSResponsePerPriority_exact ro (pl_impl pl) p bgwc ls
                  Hro) as [Hex _].
      specialize (Hex Hnd).
      destruct (handleEDSResponsePerPriority _ _ _ _ bgwc ls) as [bgwc' ev].
      simpl in *. exists bgwc'. by rewrite lookup_insert_eq.
    + destruct (handleEDSResponsePerPriority_exact ro (pl_impl pl) p
                  {| configs := ∅ |} ls Hro) as [Hex _].
      specialize (Hex Hnd).
      destruct (handleEDSResponsePerPriority _ _ _ _ _ ls) as [bgwc' ev].
      simpl in *. exists bgwc'. by rewrite lookup_insert_eq.
  - intros bgwc Hp Hs Hexact. rewrite Hp.
    destruct (handleEDSResponsePerPriority_exact ro (pl_impl pl) p bgwc ls
                Hro) as [_ Hq].
    rewrite (Hq Hs Hexact). simpl. split_and!; [|done|done].
    rewrite (insert_id _ _ _ Hp). apply set_priorityToLocalities_id.
Qed.

Lemma rangePriorities_exact ro (L : list (priorityType * list Locality))
    (pl : priorityLoop) :
  rangeOrder_valid ro →
  NoDup L.*1 →
  (∀ p ls, (p, ls) ∈ L → NoDup (ID <$> ls)) →
  ∀ p ls, (p, ls) ∈ L →
    ∃ bgwc,
      priorityToLocalities
        (pl_impl (rangePriorities (I:=I) ToString ro L pl).1) !! p
      = Some bgwc
      ∧ exactOn ToString (subBalancerBuilder (pl_impl pl)) ls (configs bgwc).
Proof.
  intros Hro. revert pl.
  induction L as [|[p0 ls0] L IH]; intros pl Hnd Hids p ls Hin.
  { by apply elem_of_nil in Hin. }
  apply NoDup_cons in Hnd as [Hp0 Hnd]. cbn [rangePriorities].
  destruct (visitPriority_exact ro p0 ls0 pl Hro) as [Hex _].
  destruct (visitPriority_spec ro p0 ls0 pl Hro)
    as (bgwc' & lowest & changed & ev1 & Heq & _).
  rewrite Heq in Hex |- *. simpl in Hex.
  match goal with
  | |- context [rangePriorities _ _ L ?pl1] =>
      destruct (rangePriorities_post ro L pl1 Hro Hnd)
        as (pl' & ev2 & m' & Heq2 & Himpl & _ & Hrest);
      specialize (IH pl1 Hnd); rewrite Heq2 in IH |- *
  end.
  simpl in *. apply elem_of_cons in Hin as [[= -> ->]|Hin].
  - rewrite Himpl. simpl. rewrite (Hrest p0 Hp0).
    apply Hex. apply (Hids p0). by left.
  - apply IH; [|done]. intros p1 ls1 Hin1. apply (Hids p1). by right.
Qed.

Lemma rangePriorities_silent ro edsResp
    (L : list (priorityType * list Locality)) (pl : priorityLoop) :
  rangeOrder_valid ro →
  (∀ p ls, (p, ls) ∈ L → newLocalitiesWithPriority edsResp !! p = Some ls) →
  settledFor ToString edsResp (pl_impl pl) →
  (∀ p ls bgwc,
     newLocalitiesWithPriority edsResp !! p = Some ls →
     priorityToLocalities (pl_impl pl) !! p = Some bgwc →
     exactOn ToString (subBalancerBuilder (pl_impl pl)) ls (configs bgwc)) →
  pl_impl (rangePriorities (I:=I) ToString ro L pl).1 = pl_impl pl
  ∧ pl_priorityChanged (rangePriorities (I:=I) ToString ro L pl).1
    = pl_priorityChanged pl
  ∧ (rangePriorities (I:=I) ToString ro L pl).2 = [].
Proof.
  intros Hro. revert pl. induction L as [|[p ls] L IH]; intros pl HL Hs Hex.
  { done. }
  cbn [rangePriorities].
  assert (Hnew : newLocalitiesWithPriority edsResp !! p = Some ls)
    by (apply HL; by left).
  destruct (proj2 (proj1 Hs p)) as [bgwc Hbgwc]; [by eexists|].
  destruct (visitPriority_exact ro p ls pl Hro) as [_ Hq].
  destruct (Hq bgwc Hbgwc (proj2 Hs p ls bgwc Hnew Hbgwc)
              (Hex p ls bgwc Hnew Hbgwc)) as (Himpl & Hch & Hev).
  destruct (visitPriority ToString ro (p, ls) pl) as [pl1 ev1].
  simpl in Himpl, Hch, Hev. subst ev1.
  destruct (IH pl1) as (Himpl2 & Hch2 & Hev2).
  { intros ???. apply HL. by right. }
  { by rewrite Himpl. }
  { by rewrite Himpl. }
  destruct (rangePriorities ToString ro L pl1) as [pl2 ev2].
  simpl in *. by rewrite Himpl2, Hch2, Hev2, Himpl, Hch.
Qed.

Lemma rangeOldPriorities_builder (new : gmap priorityType (list Locality))
    (ps : list priorityType) (st : edsBalancerImpl I * bool) :
  subBalancerBuilder (rangeOldPriorities new ps st).1.1
  = subBalancerBuilder st.1.
Proof.
  revert st. induction ps as [|p ps IH]; intros st; [done|].
  cbn [rangeOldPriorities]. unfold visitOldPriority.
  destruct (new !! p).
  - specialize (IH st). by destruct (rangeOldPriorities new ps st).
  - match goal with
    | |- context [rangeOldPriorities new ps ?st1] =>
        specialize (IH st1); by destruct (rangeOldPriorities new ps st1)
    end.
Qed.

(** After a response in which the IDs of each priority are distinct, the
    configs hold the weight and the addresses of every locality. *)
Lemma handleEDSResponse_exact ro edsResp e :
  rangeOrder_valid ro →
  uniqueIDs edsResp →
  ∀ p ls bgwc,
    newLocalitiesWithPriority edsResp !! p = Some ls →
    priorityToLocalities
      (handleEDSResponse ToString handlePriorityChange ro edsResp e).1 !! p
    = Some bgwc →
    exactOn ToString
      (subBalancerBuilder
         (handleEDSResponse ToString handlePriorityChange ro edsResp e).1)
      ls (configs bgwc).
Proof.
  intros Hro Hids p ls bgwc Hls. unfold handleEDSResponse.
  destruct (updateDrops_spec (Drops edsResp) (set_respReceived true e))
    as (ds & ev1 & -> & _ & _).
  set (new := newLocalitiesWithPriority edsResp) in *.
  match goal with
  | |- context [rangePriorities _ _ ?L ?pl0] =>
      pose proof (rangePriorities_exact ro L pl0 Hro
                    (range_NoDup_keys ro new Hro)) as Hex;
      destruct (rangePriorities_post ro L pl0 Hro (range_NoDup_keys ro new Hro))
        as (pl' & ev2 & m' & Heq & Himpl & _ & _);
      rewrite Heq in Hex |- *
  end.
  destruct (Hex (λ p0 ls0 Hin, Hids p0 ls0 (proj1 (range_entries ro new p0 ls0 Hro) Hin))
              p ls) as (bgwc' & Hb' & Hexact); [by apply range_entries|].
  simpl in Hb', Hexact.
  match goal with
  | |- context [rangeOldPriorities new ?ps ?st0] =>
      pose proof (rangeOldPriorities_builder new ps st0) as Hbuilder;
      destruct (rangeOldPriorities_spec new ps st0)
        as ([e3 changed] & ev3 & Heq3 & Hptl & _);
      rewrite Heq3 in Hbuilder |- *
  end.
  simpl in Hptl, Hbuilder. rewrite Himpl in Hbuilder. simpl in Hbuilder.
  assert (Hgoal : priorityToLocalities e3 !! p = Some bgwc →
                  exactOn ToString (subBalancerBuilder e3) ls (configs bgwc)).
  { rewrite Hptl, Hbuilder.
    rewrite decide_False by (intros [_ ?]; congruence).
    rewrite Hb'. by intros [= <-]. }
  destruct changed; [destruct (handlePriorityChange e3) as [pf ev4]|]; done.
Qed.

(** On a balancer that is settled for the response, holds its weights and
    addresses, has received a response and has its drop config, the response
    makes no call at all. *)
Lemma handleEDSResponse_silent ro edsResp e :
  rangeOrder_valid ro →
  settledFor ToString edsResp e →
  (∀ p ls bgwc,
     newLocalitiesWithPriority edsResp !! p = Some ls →
     priorityToLocalities e !! p = Some bgwc →
     exactOn ToString (subBalancerBuilder e) ls (configs bgwc)) →
  respReceived e = true →
  dropConfig e = Drops edsResp →
  (handleEDSResponse ToString handlePriorityChange ro edsResp e).2 = [].
Proof.
  intros Hro Hs Hex Hrr Hdc. unfold handleEDSResponse. rewrite Hrr.
  destruct (updateDrops_spec (Drops edsResp) (set_respReceived true e))
    as (ds & ev1 & -> & _ & Hsame).
  destruct Hsame as [-> ->]; [done|].
  set (new := newLocalitiesWithPriority edsResp).
  match goal with
  | |- context [rangePriorities _ _ ?L ?pl0] =>
      destruct (rangePriorities_silent ro edsResp L pl0 Hro)
        as (Himpl & Hch & Hev);
      [intros p ls Hin; by apply range_entries in Hin
      |by eapply settledFor_ptl
      |exact Hex
      |destruct (rangePriorities ToString ro L pl0) as [pl' ev2]]
  end.
  simpl in Himpl, Hch, Hev. subst ev2. rewrite Himpl, Hch.
  match goal with
  | |- context [rangeOldPriorities new ?ps ?st0] =>
      destruct (rangeOldPriorities_spec new ps st0)
        as (st' & ev3 & -> & _ & _ & _ & _ & Hq3)
  end.
  destruct Hq3 as [-> ->]; [|done].
  intros p Hp. apply range_keys in Hp; [|done].
  destruct Hs as [Hdom _]. by apply Hdom.
Qed.

(** C8.  Whatever the balancer and the orders of map iteration: when the same
    update is handled twice in a row, the second call makes no Add and no
    Remove call on a balancer group or an aggregator.  When no two localities
    of a priority share an ID, as the data model has it, the second call
    makes no call at all: it finds every priority and locality unchanged,
    with equal weight and equal addresses, and the drop config unchanged. *)
Theorem handleEDSResponse_twice_no_add_remove ro1 ro2 edsResp e :
  rangeOrder_valid ro1 →
  rangeOrder_valid ro2 →
  (∀ ev,
     ev ∈ (handleEDSResponse ToString handlePriorityChange ro2 edsResp
             (handleEDSResponse ToString handlePriorityChange ro1 edsResp e).1).2 →
     ¬ isAddOrRemove ev)
  ∧ (uniqueIDs edsResp →
     (handleEDSResponse ToString handlePriorityChange ro2 edsResp
        (handleEDSResponse ToString handlePriorityChange ro1 edsResp e).1).2
     = []).
Proof.
  intros Hro1 Hro2.
  destruct (handleEDSResponse_settles ro1 edsResp e Hro1) as (Hs & Hrr & Hdc).
  split.
  - by apply handleEDSResponse_quiet.
  - intros Hids. apply handleEDSResponse_silent; [done|done| |done|done].
    by apply handleEDSResponse_exact.
Qed.

Lemma range_empty {A} (ro : rangeOrder) :
  rangeOrder_valid ro → ro A [] = [].
Proof. intros Hro. apply Permutation_nil_r. apply Hro. Qed.

(** An empty update on a balancer without priorities and without drop config:
    the only call is the publication of the first call. *)
Lemma handleEDSResponse_empty_events ro e :
  rangeOrder_valid ro →
  priorityToLocalities e = ∅ →
  dropConfig e = [] →
  (handleEDSResponse ToString handlePriorityChange ro EndpointsUpdate_zero e).2
  = if respReceived e then []
    else [ccUpdateState allPrioritiesRemovedState].
Proof.
  intros Hro Hptl Hdc. unfold handleEDSResponse.
  destruct (updateDrops_spec (Drops EndpointsUpdate_zero)
              (set_respReceived true e)) as (ds & ev1 & -> & _ & Hsame).
  destruct Hsame as [-> ->]; [simpl; by rewrite Hdc|].
  change (newLocalitiesWithPriority EndpointsUpdate_zero)
    with (∅ : gmap priorityType (list Locality)).
  rewrite map_to_list_empty, (range_empty ro Hro).
  cbn [rangePriorities pl_impl pl_priorityLowest pl_priorityChanged].
  change (priorityToLocalities (set_priorityLowest ?p ?e0))
    with (priorityToLocalities e0).
  change (priorityToLocalities (set_drops ?a ?b ?e0))
    with (priorityToLocalities e0).
  change (priorityToLocalities (set_respReceived ?b ?e0))
    with (priorityToLocalities e0).
  rewrite Hptl, map_to_list_empty, (range_empty ro Hro).
  cbn [fmap list_fmap rangeOldPriorities].
  rewrite bool_decide_true by done.
  destruct (respReceived e); reflexivity.
Qed.

(** C3.  On a balancer that has received no response, the empty update
    publishes, first of all, the TransientFailure state whose picker is the
    error picker of [errAllPrioritiesRemoved]; that picker returns this error
    on every pick.  On a balancer that is still as it was created this is the
    only call.  After any update the response-received flag is set.  A second
    empty update makes no call at all. *)
Theorem handleEDSResponse_first_empty ro1 ro2 e :
  rangeOrder_valid ro1 →
  rangeOrder_valid ro2 →
  respReceived e = false →
  (∃ rest,
     (handleEDSResponse ToString handlePriorityChange ro1
        EndpointsUpdate_zero e).2
     = ccUpdateState allPrioritiesRemovedState :: rest)
  ∧ (priorityToLocalities e = ∅ → dropConfig e = [] →
     (handleEDSResponse ToString handlePriorityChange ro1
        EndpointsUpdate_zero e).2
     = [ccUpdateState allPrioritiesRemovedState])
  ∧ (∀ info (w : world I),
       Pick (ErrPicker errAllPrioritiesRemoved) info w
       = (Returns (PickResult_zero, Some errAllPrioritiesRemoved), w))
  ∧ (∀ edsResp e',
       respReceived
         (handleEDSResponse ToString handlePriorityChange ro1 edsResp e').1
       = true)
  ∧ (handleEDSResponse ToString handlePriorityChange ro2 EndpointsUpdate_zero
       (handleEDSResponse ToString handlePriorityChange ro1
          EndpointsUpdate_zero e).1).2
    = [].
Proof.
  intros Hro1 Hro2 Hfirst. split_and!.
  - unfold handleEDSResponse. rewrite Hfirst, bool_decide_true by done.
    simpl negb. simpl andb.
    destruct (updateDrops _ _) as [e1 ev1].
    destruct (rangePriorities _ _ _ _) as [pl ev2].
    destruct (rangeOldPriorities _ _ _) as [[e3 changed] ev3].
    destruct changed; [destruct (handlePriorityChange e3) as [pf ev4]|];
      by eexists.
  - intros Hptl Hdc.
    by rewrite (handleEDSResponse_empty_events ro1 e Hro1 Hptl Hdc), Hfirst.
  - done.
  - intros edsResp e'. by apply handleEDSResponse_settles.
  - destruct (handleEDSResponse_settles ro1 EndpointsUpdate_zero e Hro1)
      as ([Hdom _] & Hrr & Hdc).
    rewrite handleEDSResponse_empty_events; [by rewrite Hrr|done| |done].
    apply map_empty. intros p.
    destruct (priorityToLocalities _ !! p) eqn:Hp; [|done].
    destruct (proj1 (Hdom p)) as [? Hn]; [by eexists|].
    change (newLocalitiesWithPriority EndpointsUpdate_zero)
      with (∅ : gmap priorityType (list Locality)) in Hn.
    by rewrite lookup_empty in Hn.
Qed.

End EDSProofs.

Section EDSWitnesses.
Import xdsclient edsbalancer eds_spec fixtures.

Lemma rangeOrder_id_valid : rangeOrder_valid rangeOrder_id.
Proof. intros A l. reflexivity. Qed.

Example handleEDSResponse_update_events :
  (handleEDSResponse joinID keepPriority rangeOrder_id update
     (newEDSBalancerImpl None)).2
  = let p0 := newPriorityType 0 in
    let p1 := newPriorityType 1 in
    [aggregatorNew p1; balancergroupNew p1;
     aggregatorAdd p1 "b/z/s" 2; bgAdd p1 "b/z/s" "round_robin";
     bgUpdateClientConnState p1 "b/z/s"
       [{| Addr := "2.2.2.2:80"; Attributes := None; Metadata := None |}];
     aggregatorNew p0; balancergroupNew p0;
     aggregatorAdd p0 "a/z/s" 1; bgAdd p0 "a/z/s" "round_robin";
     bgUpdateClientConnState p0 "a/z/s"
       [{| Addr := "1.1.1.1:80"; Attributes := None; Metadata := None |};
        {| Addr := "1.1.1.3:80"; Attributes := None; Metadata := None |}];
     priorityEvent "handlePriorityChange"].
Proof. by vm_compute. Qed.

(** With the same ID twice under one priority the second call of the same
    update still updates the weights, without any Add or Remove. *)
Example handleEDSResponse_duplicate_ids :
  (handleEDSResponse joinID keepPriority rangeOrder_id updateTwice
     (handleEDSResponse joinID keepPriority rangeOrder_id updateTwice
        (newEDSBalancerImpl None)).1).2
  = let p0 := newPriorityType 0 in
    [aggregatorUpdateWeight p0 "a/z/s" 1; aggregatorUpdateWeight p0 "a/z/s" 2;
     aggregatorBuildAndUpdate p0].
Proof. by vm_compute. Qed.

Lemma handleEDSResponse_first_empty_witness :
  rangeOrder_valid rangeOrder_id
  ∧ respReceived (newEDSBalancerImpl (I:=unit) None) = false
  ∧ (handleEDSResponse joinID keepPriority rangeOrder_id EndpointsUpdate_zero
       (newEDSBalancerImpl None)).2
    = [ccUpdateState allPrioritiesRemovedState]
  ∧ (handleEDSResponse joinID keepPriority rangeOrder_id EndpointsUpdate_zero
       (handleEDSResponse joinID keepPriority rangeOrder_id
          EndpointsUpdate_zero (newEDSBalancerImpl None)).1).2
    = [].
Proof.
  pose proof (handleEDSResponse_first_empty joinID keepPriority
                rangeOrder_id rangeOrder_id (newEDSBalancerImpl None)
                rangeOrder_id_valid rangeOrder_id_valid eq_refl)
    as (_ & Hfresh & _ & _ & Hsecond).
  split_and!; [exact rangeOrder_id_valid|reflexivity| |exact Hsecond].
  apply Hfresh; reflexivity.
Defined.

Lemma handleEDSResponsePerPriority_addresses_witness :
  let e := newEDSBalancerImpl (I:=unit) None in
  let a := locality "a" 0 1
             [endpoint "1.1.1.1:80" EndpointHealthStatusHealthy 3;
              endpoint "1.1.1.2:80" EndpointHealthStatusUnhealthy 3;
              endpoint "1.1.1.3:80" EndpointHealthStatusUnknown 0] in
  rangeOrder_valid rangeOrder_id
  ∧ forwardedOK (subBalancerBuilder e) a
      [{| Addr := "1.1.1.1:80"; Attributes := None; Metadata := None |};
       {| Addr := "1.1.1.3:80"; Attributes := None; Metadata := None |}]
  ∧ ∃ addresses,
      bgUpdateClientConnState (newPriorityType 0) "a/z/s" addresses
        ∈ (handleEDSResponsePerPriority joinID rangeOrder_id e
             (newPriorityType 0) {| configs := ∅ |} [a]).2.
Proof.
  intros e a.
  pose proof (handleEDSResponsePerPriority_addresses joinID rangeOrder_id e
                (newPriorityType 0) {| configs := ∅ |} [a]
                rangeOrder_id_valid) as (Hall & _ & Hnew).
  split_and!; [exact rangeOrder_id_valid|exact (Hall a)|].
  apply (Hnew a "a/z/s"); [by left|reflexivity|reflexivity].
Defined.

Lemma handleEDSResponse_twice_no_add_remove_witness :
  rangeOrder_valid rangeOrder_id
  ∧ NoDup (ID <$> Localities update)
  ∧ Forall (fun ev => ¬ isAddOrRemove ev)
      (handleEDSResponse joinID keepPriority rangeOrder_id update
         (handleEDSResponse joinID keepPriority rangeOrder_id update
            (newEDSBalancerImpl None)).1).2
  ∧ (handleEDSResponse joinID keepPriority rangeOrder_id update
       (handleEDSResponse joinID keepPriority rangeOrder_id update
          (newEDSBalancerImpl None)).1).2
    = [].
Proof.
  assert (Hnd : NoDup (ID <$> Localities update)).
  { simpl. repeat (apply NoDup_cons; split; [set_solver|]). apply NoDup_nil_2. }
  pose proof (handleEDSResponse_twice_no_add_remove joinID keepPriority
                rangeOrder_id rangeOrder_id update (newEDSBalancerImpl None)
                rangeOrder_id_valid rangeOrder_id_valid) as [Hquiet Hsilent].
  split_and!; [exact rangeOrder_id_valid|exact Hnd| |].
  - apply Forall_forall. exact Hquiet.
  - apply Hsilent. apply uniqueIDs_of_NoDup. exact Hnd.
Defined.

End EDSWitnesses.


(** * The domain matcher: what a result means *)

Section MatcherMore.
Import xdsclient resolver matcher_spec.

Lemma findBestMatchingVirtualHost_Some host vHosts vh :
  findBestMatchingVirtualHost host vHosts = Some vh →
  vh ∈ vHosts
  ∧ (∃ d, d ∈ Domains vh ∧ patternMatches d host)
  ∧ ∀ vh' d, vh' ∈ vHosts → d ∈ Domains vh' →
             ¬ patternKind d domainMatchTypeInvalid.
Proof.
  unfold findBestMatchingVirtualHost. rewrite rangeVHosts_scan. intros Hres.
  assert (Hcands : ∀ v d, (v, d) ∈ candidates vHosts
                          ↔ v ∈ vHosts ∧ d ∈ Domains v).
  { intros v d. unfold candidates. rewrite list_elem_of_In, in_flat_map.
    split.
    - intros (v' & Hv' & Hin). apply in_map_iff in Hin as (d' & [= -> ->] & Hd).
      by rewrite !list_elem_of_In.
    - intros [Hv Hd]. exists v. rewrite <- list_elem_of_In. split; [done|].
      apply in_map_iff. exists d. by rewrite <- list_elem_of_In. }
  assert (Hvalid : ∀ v d, (v, d) ∈ candidates vHosts →
                          matchTypeForDomain d ≠ domainMatchTypeInvalid).
  { intros v d Hin Hd.
    by rewrite (scan_invalid _ _ _ _ _ Hin Hd) in Hres. }
  destruct (scanInv_all host (candidates vHosts) [] matchState_init Hvalid)
    as (st & Hscan & Hinv).
  { left. split_and!; [done|done|]. intros ?? Hin. by apply elem_of_nil in Hin. }
  rewrite Hscan in Hres. simpl in Hinv.
  destruct Hinv as [(Hvh & _)|(i & v & d & Hi & Hvh & _ & _ & Hm & _)];
    [congruence|].
  assert (v = vh) as -> by congruence.
  apply list_elem_of_lookup_2, Hcands in Hi as [Hv Hd].
  split_and!; [done|exists d; split; [done|by apply patternMatches_iff]|].
  intros vh' d' Hv' Hd' Hk%patternKind_inv. eapply Hvalid; [|done].
  by apply Hcands.
Qed.

(** X1.  A virtual host that [findBestMatchingVirtualHost] returns is one of
    the given virtual hosts and owns a pattern that matches the host (the
    star, a star and a text with which the host ends, a text with which the
    host begins and a star, or the host itself); and then no pattern of any
    virtual host is invalid (empty, or with a star but neither beginning nor
    ending with one). *)
Theorem findBestMatchingVirtualHost_sound host vHosts vh :
  findBestMatchingVirtualHost host vHosts = Some vh →
  vh ∈ vHosts
  ∧ (∃ d, d ∈ Domains vh ∧ patternMatches d host)
  ∧ ∀ vh' d, vh' ∈ vHosts → d ∈ Domains vh' →
             ¬ patternKind d domainMatchTypeInvalid.
Proof. apply findBestMatchingVirtualHost_Some. Qed.

Lemma findBestMatchingVirtualHost_sound_witness :
  let vh d := {| Domains := [d]; Routes := [] |} in
  findBestMatchingVirtualHost "foo.bar.com" [vh "*.com"; vh "foo.*"]
  = Some (vh "*.com")
  ∧ ∃ d, d ∈ Domains (vh "*.com") ∧ patternMatches d "foo.bar.com".
Proof.
  intros vh.
  assert (H : findBestMatchingVirtualHost "foo.bar.com" [vh "*.com"; vh "foo.*"]
              = Some (vh "*.com")) by reflexivity.
  split; [exact H|].
  exact (proj1 (proj2 (findBestMatchingVirtualHost_sound _ _ _ H))).
Defined.

End MatcherMore.

(** * The service watcher: invariants of its life *)

Section WatcherMore.
Import xdsclient resolver matcher_spec watcher_spec.

Lemma cancelledWatches_app cs1 cs2 :
  cancelledWatches (cs1 ++ cs2) = cancelledWatches cs1 ++ cancelledWatches cs2.
Proof. apply omap_app. Qed.

Lemma startedWatches_app cs1 cs2 :
  startedWatches (cs1 ++ cs2) = startedWatches cs1 + startedWatches cs2.
Proof. unfold startedWatches. by rewrite omap_app, length_app. Qed.

Lemma serviceCalls_app cs1 cs2 :
  serviceCalls (cs1 ++ cs2) = serviceCalls cs1 ++ serviceCalls cs2.
Proof. apply omap_app. Qed.

Lemma elem_of_serviceCalls c cs :
  c ∈ serviceCalls cs ↔ c ∈ cs ∧ ∃ u err, c = serviceCb u err.
Proof.
  unfold serviceCalls. rewrite list_elem_of_omap. split.
  - intros (c' & Hin & Hc). destruct c'; try done.
    injection Hc as <-. eauto.
  - intros (Hin & u & err & ->). eauto.
Qed.

(** Cancelling the watch the watcher holds keeps the books. *)
Lemma watchesAccounted_cancel w n cs k w' cs' :
  watchesAccounted {| watcher := w; rdsWatches := n; calls := cs |} →
  rdsCancel w = Some k →
  rdsCancel w' = None →
  startedWatches cs' = startedWatches cs →
  cancelledWatches cs' = cancelledWatches cs ++ [k] →
  watchesAccounted {| watcher := w'; rdsWatches := n; calls := cs' |}.
Proof.
  unfold watchesAccounted. simpl.
  intros (Hn & Hnd & Hin & Hlast) Hk Hw' Hst Hcs.
  rewrite Hst, Hcs, Hw'. split_and!; [done| | |done].
  - apply NoDup_app. split_and!; [done| |apply NoDup_singleton].
    intros j Hj ->%list_elem_of_singleton. apply Hin in Hj as [_ Hj].
    by rewrite Hk in Hj.
  - intros j. rewrite elem_of_app, list_elem_of_singleton, Hin, Hk.
    specialize (Hlast k Hk). split.
    + intros [[Hj _]| ->]; split; (done || lia).
    + intros [Hj _]. destruct (decide (j = k)) as [->|Hjk]; [by right|].
      left. split; [done|congruence].
Qed.

(** Appending calls that neither start nor cancel a watch keeps the
    books. *)
Lemma watchesAccounted_quiet w n cs w' cs' :
  watchesAccounted {| watcher := w; rdsWatches := n; calls := cs |} →
  rdsCancel w' = rdsCancel w →
  startedWatches cs' = startedWatches cs →
  cancelledWatches cs' = cancelledWatches cs →
  watchesAccounted {| watcher := w'; rdsWatches := n; calls := cs' |}.
Proof.
  unfold watchesAccounted. simpl. intros H Hw' Hst Hcs.
  by rewrite Hst, Hcs, Hw'.
Qed.

Lemma watchesAccounted_eta cf :
  watchesAccounted cf →
  watchesAccounted {| watcher := watcher cf; rdsWatches := rdsWatches cf;
                      calls := calls cf |}.
Proof. by destruct cf. Qed.

Lemma watchesAccounted_handleLDSResp update err cf :
  watchesAccounted cf → watchesAccounted (handleLDSResp update err cf).
Proof.
  intros Hcf. pose proof (watchesAccounted_eta _ Hcf) as Hcf'.
  unfold handleLDSResp. cbv zeta.
  destruct (closed (watcher cf)); [done|].
  destruct err as [e|].
  - destruct (bool_decide (ErrType e = ErrorTypeResourceNotFound)).
    + destruct (rdsCancel (watcher cf)) as [k|] eqn:Hk.
      * eapply watchesAccounted_cancel; [exact Hcf'|exact Hk|done|..].
        -- unfold startedWatches; rewrite omap_app, length_app; simpl; lia.
        -- unfold cancelledWatches; by rewrite omap_app.
      * eapply watchesAccounted_quiet; [exact Hcf'|done|..].
        -- unfold startedWatches; rewrite omap_app, length_app; simpl; lia.
        -- unfold cancelledWatches; rewrite omap_app; simpl; by rewrite app_nil_r.
    + eapply watchesAccounted_quiet; [exact Hcf'|done|..].
      * unfold startedWatches; rewrite omap_app, length_app; simpl; lia.
      * unfold cancelledWatches; rewrite omap_app; simpl; by rewrite app_nil_r.
  - destruct (String.eqb _ _).
    + eapply watchesAccounted_quiet; [exact Hcf'|done|..].
      * unfold startedWatches; rewrite omap_app, length_app; simpl; lia.
      * unfold cancelledWatches; rewrite omap_app; simpl; by rewrite app_nil_r.
    + destruct Hcf as (Hn & Hnd & Hin & Hlast).
      unfold watchesAccounted. simpl.
      rewrite !startedWatches_app, !cancelledWatches_app.
      change (startedWatches [WatchRouteConfig (RouteConfigName update)])
        with 1.
      change (cancelledWatches [WatchRouteConfig (RouteConfigName update)])
        with (@nil nat).
      rewrite app_nil_r.
      destruct (rdsCancel (watcher cf)) as [k|] eqn:Hk; simpl.
      * specialize (Hlast k eq_refl). split_and!.
        -- rewrite Hn. lia.
        -- apply NoDup_app. split_and!; [done| |apply NoDup_singleton].
           intros j Hj ->%list_elem_of_singleton.
           apply Hin in Hj as [_ Hj]. done.
        -- intros j. rewrite elem_of_app, list_elem_of_singleton, Hin.
           split.
           ++ intros [[Hj _]| ->]; split; try lia; intros [= ?]; lia.
           ++ intros [Hj Hne].
              assert (j ≠ rdsWatches cf) by congruence.
              destruct (decide (j = k)) as [->|Hjk]; [by right|].
              left. split; [lia|congruence].
        -- intros k' [= <-]. done.
      * split_and!.
        -- rewrite Hn. simpl. lia.
        -- by rewrite app_nil_r.
        -- intros j. rewrite app_nil_r, Hin. split.
           ++ intros [Hj _]. split; [lia|]. intros [= ?]. lia.
           ++ intros [Hj Hne].
              assert (j ≠ rdsWatches cf) by congruence.
              split; [lia|done].
        -- intros k' [= <-]. done.
Qed.

Lemma watchesAccounted_handleRDSResp update err cf :
  watchesAccounted cf → watchesAccounted (handleRDSResp update err cf).
Proof.
  intros Hcf. pose proof (watchesAccounted_eta _ Hcf) as Hcf'.
  unfold handleRDSResp. cbv zeta.
  destruct (closed (watcher cf)); [done|].
  destruct (rdsCancel (watcher cf)) as [k|] eqn:Hk; [|done].
  destruct err as [e|]; [|destruct (findBestMatchingVirtualHost _ _)];
    (eapply watchesAccounted_quiet; [exact Hcf'|by rewrite ?Hk|..];
     [unfold startedWatches; rewrite omap_app, length_app; simpl; lia
     |unfold cancelledWatches; rewrite omap_app; simpl; by rewrite app_nil_r]).
Qed.

Lemma watchesAccounted_close cf :
  watchesAccounted cf → watchesAccounted (close cf).
Proof.
  intros Hcf. pose proof (watchesAccounted_eta _ Hcf) as Hcf'.
  unfold close. cbv zeta.
  destruct (rdsCancel (watcher cf)) as [k|] eqn:Hk.
  - eapply watchesAccounted_cancel; [exact Hcf'|exact Hk|done|..].
    + unfold startedWatches; rewrite omap_app, length_app; simpl; lia.
    + unfold cancelledWatches; by rewrite omap_app.
  - eapply watchesAccounted_quiet; [exact Hcf'|by rewrite ?Hk|..].
    + unfold startedWatches; rewrite omap_app, length_app; simpl; lia.
    + unfold cancelledWatches; rewrite omap_app; simpl; by rewrite app_nil_r.
Qed.

(** X2.  Through every sequence of LDS callbacks, RDS callbacks and calls of
    [close] after [watchService], the watcher keeps the books of its RDS
    watches: no watch is cancelled twice, the watches that were cancelled are
    exactly the started ones other than the one whose cancel function the
    watcher holds, and the watch it holds is the one started last.  So at
    most one RDS watch is outstanding at any time. *)
Theorem watcher_accounts_for_rds_watches name sts :
  let cf := reactAll sts (watchService name) in
  rdsWatches cf = startedWatches (calls cf)
  ∧ NoDup (cancelledWatches (calls cf))
  ∧ (∀ j, j ∈ cancelledWatches (calls cf)
          ↔ j < rdsWatches cf ∧ rdsCancel (watcher cf) ≠ Some j)
  ∧ (∀ k, rdsCancel (watcher cf) = Some k → S k = rdsWatches cf).
Proof.
  intros cf. subst cf. unfold reactAll.
  assert (H0 : watchesAccounted (watchService name)).
  { unfold watchesAccounted, watchService. simpl.
    split_and!; [done|apply NoDup_nil_2| |done].
    intros j. rewrite elem_of_nil. lia. }
  revert H0. generalize (watchService name).
  induction sts as [|st sts IH]; intros cf Hcf; [exact Hcf|].
  simpl. apply IH. destruct st; simpl.
  - by apply watchesAccounted_handleLDSResp.
  - by apply watchesAccounted_handleRDSResp.
  - by apply watchesAccounted_close.
Qed.

Lemma handleLDSResp_on_closed update err cf :
  closed (watcher cf) = true → handleLDSResp update err cf = cf.
Proof. intros Hc. unfold handleLDSResp. cbv zeta. by rewrite Hc. Qed.

Lemma handleRDSResp_on_closed update err cf :
  closed (watcher cf) = true → handleRDSResp update err cf = cf.
Proof. intros Hc. unfold handleRDSResp. cbv zeta. by rewrite Hc. Qed.

(** X3.  Once [close] was called the watcher is silent: whatever LDS and
    RDS callbacks arrive later and however often [close] is called again,
    the service callback is not called, no watch is started or cancelled
    apart from the LDS watch, which every further [close] cancels again, and
    the fields of the watcher stay as [close] left them. *)
Theorem watcher_closed_is_silent cf sts :
  calls (reactAll sts (close cf)) = calls (close cf) ++ closeCalls sts
  ∧ watcher (reactAll sts (close cf)) = watcher (close cf)
  ∧ rdsWatches (reactAll sts (close cf)) = rdsWatches cf.
Proof.
  assert (H : ∀ cf0, closed (watcher cf0) = true →
                     rdsCancel (watcher cf0) = None →
                     calls (reactAll sts cf0) = calls cf0 ++ closeCalls sts
                     ∧ watcher (reactAll sts cf0) = watcher cf0
                     ∧ rdsWatches (reactAll sts cf0) = rdsWatches cf0).
  { induction sts as [|st sts IH]; intros cf0 Hc Hr.
    { simpl. by rewrite app_nil_r. }
    destruct st as [update err|update err|].
    - change (reactAll (deliverLDS update err :: sts) cf0)
        with (reactAll sts (handleLDSResp update err cf0)).
      rewrite handleLDSResp_on_closed by done. by apply IH.
    - change (reactAll (deliverRDS update err :: sts) cf0)
        with (reactAll sts (handleRDSResp update err cf0)).
      rewrite handleRDSResp_on_closed by done. by apply IH.
    - change (reactAll (callClose :: sts) cf0)
        with (reactAll sts (close cf0)).
      destruct (IH (close cf0)) as (Hcs & Hw & Hn); [done|done|].
      rewrite Hcs, Hw, Hn. unfold close. simpl. rewrite Hr.
      split_and!; [by rewrite <- app_assoc| |done].
      destruct cf0 as [[] ? ?]. simpl in *. by subst. }
  apply (H (close cf)); reflexivity.
Qed.

Lemma soundReport_snoc name cs u err :
  (∀ u' err', serviceCb u' err' ∈ cs → soundReport name u' err') →
  soundReport name u err →
  ∀ u' err', serviceCb u' err' ∈ cs ++ [serviceCb u err] →
             soundReport name u' err'.
Proof.
  intros Hcs Hu u' err' [Hin|Hin%list_elem_of_singleton]%elem_of_app.
  - by apply Hcs.
  - by injection Hin as -> ->.
Qed.

Lemma soundWatcher_react name st cf :
  soundWatcher name cf → soundWatcher name (react cf st).
Proof.
  intros (Hname & Hvh & Hcalls).
  destruct st as [update err|update err|]; simpl.
  - unfold handleLDSResp. cbv zeta.
    destruct (closed (watcher cf)); [done|].
    destruct err as [e|].
    + destruct (bool_decide _); [destruct (rdsCancel (watcher cf))|].
      * split_and!; [done|done|]. simpl. intros u' err' Hin.
        apply elem_of_app in Hin as [Hin|Hin]; [by apply Hcalls|].
        apply elem_of_cons in Hin as [Hin|Hin%list_elem_of_singleton];
          [done|]. by injection Hin as -> ->.
      * split_and!; [done|done|]. by apply soundReport_snoc.
      * split_and!; [done|done|]. by apply soundReport_snoc.
    + destruct (String.eqb _ _).
      * split_and!; [done|done|]. by apply soundReport_snoc.
      * split_and!; [done|done|]. simpl. intros u' err' Hin.
        apply elem_of_app in Hin as [Hin|Hin]; [by apply Hcalls|].
        apply elem_of_app in Hin as [Hin|Hin%list_elem_of_singleton];
          [|done].
        destruct (rdsCancel (watcher cf));
          [by apply list_elem_of_singleton in Hin|by apply elem_of_nil in Hin].
  - unfold handleRDSResp. cbv zeta.
    destruct (closed (watcher cf)); [done|].
    destruct (rdsCancel (watcher cf)); [|done].
    destruct err as [e|].
    + split_and!; [done|done|]. by apply soundReport_snoc.
    + destruct (findBestMatchingVirtualHost _ _) as [vh|] eqn:Hbest.
      * apply findBestMatchingVirtualHost_Some in Hbest as (_ & Hd & _).
        rewrite Hname in Hd.
        split_and!; [done|by intros ? [= <-]|].
        apply soundReport_snoc; [done|]. by intros ? [= <-].
      * split_and!; [done|done|]. by apply soundReport_snoc.
  - unfold close. cbv zeta. split_and!; [done|done|]. simpl.
    intros u' err' Hin.
    apply elem_of_app in Hin as [Hin|Hin]; [by apply Hcalls|].
    apply elem_of_cons in Hin as [Hin|Hin]; [done|].
    destruct (rdsCancel (watcher cf));
      [by apply list_elem_of_singleton in Hin|by apply elem_of_nil in Hin].
Qed.

(** X4.  Whatever the xDS client delivers and in whatever order, every
    report of the watcher to the service callback is sound: a report with an
    error carries the zero update, and a report without an error carries no
    virtual host or a virtual host with a domain pattern that matches the
    name of the service. *)
Theorem watcher_reports_are_sound name sts u err :
  serviceCb u err ∈ calls (reactAll sts (watchService name)) →
  soundReport name u err.
Proof.
  assert (H : ∀ cf, soundWatcher name cf →
                    soundWatcher name (reactAll sts cf)).
  { induction sts as [|st sts IH]; intros cf Hcf; [done|].
    apply (IH (react cf st)). by apply soundWatcher_react. }
  intros Hin. eapply H; [|exact Hin].
  split_and!; [done|done|].
  intros u' err' Hin'. by apply list_elem_of_singleton in Hin'.
Qed.

Lemma watcher_reports_are_sound_witness :
  let vh := {| Domains := ["*.bar.com"]; Routes := [] |} in
  let lds := {| RouteConfigName := "route-a"; MaxStreamDuration := 5;
                HTTPFilters := [] |} in
  let rds := {| VirtualHosts := [vh] |} in
  let u := {| virtualHost := Some vh;
              su_ldsConfig := {| maxStreamDuration := 5;
                                 httpFilterConfig := [] |} |} in
  calls (reactAll [deliverLDS lds None; deliverRDS rds None]
           (watchService "foo.bar.com"))
  = [WatchListener "foo.bar.com"; WatchRouteConfig "route-a";
     serviceCb u None]
  ∧ soundReport "foo.bar.com" u None.
Proof.
  intros vh lds rds u. split; [reflexivity|].
  apply (watcher_reports_are_sound "foo.bar.com"
           [deliverLDS lds None; deliverRDS rds None] u None).
  apply list_elem_of_further, list_elem_of_further, list_elem_of_here.
Defined.

(** X5.  When the listener is reported as not found, the RDS callbacks that
    arrive afterwards are dropped: the watcher does not change and makes no
    call, whether or not an RDS watch was outstanding and whatever the RDS
    callback carries. *)
Theorem handleRDSResp_after_listener_removed lds e rds err cf :
  ErrType e = ErrorTypeResourceNotFound →
  handleRDSResp rds err (handleLDSResp lds (Some e) cf)
  = handleLDSResp lds (Some e) cf.
Proof.
  intros He. unfold handleLDSResp. cbv zeta.
  destruct (closed (watcher cf)) eqn:Hc.
  { by apply handleRDSResp_on_closed. }
  rewrite bool_decide_eq_true_2 by done.
  destruct (rdsCancel (watcher cf)) as [k|] eqn:Hk.
  - unfold handleRDSResp. simpl. by rewrite ?Hc.
  - unfold handleRDSResp. simpl. by rewrite ?Hc, ?Hk.
Qed.

Lemma handleRDSResp_after_listener_removed_witness :
  let lds := {| RouteConfigName := "route-a"; MaxStreamDuration := 5;
                HTTPFilters := [] |} in
  let rds := {| VirtualHosts := [{| Domains := ["*"]; Routes := [] |}] |} in
  let notFound := XdsError ErrorTypeResourceNotFound "gone" in
  let cf := handleLDSResp lds None (watchService "svc") in
  rdsCancel (watcher cf) = Some 0
  ∧ handleRDSResp rds None (handleLDSResp lds (Some notFound) cf)
    = handleLDSResp lds (Some notFound) cf.
Proof.
  intros lds rds notFound cf. split; [reflexivity|].
  apply (handleRDSResp_after_listener_removed lds notFound rds None cf).
  reflexivity.
Defined.

End WatcherMore.

(** * The cache lookups: how they compose *)

Section CacheMore.
Import xdsclient cache cachefind.

(** The cluster that the [range] with its [break] picks. *)
Lemma first_key_spec (ro : rangeOrder) (m : gmap string N) :
  rangeOrder_valid ro →
  ∃ cluster,
    match ro _ (map_to_list m) with
    | (key, _) :: _ => key
    | [] => ""
    end = cluster
    ∧ if decide (m = ∅) then cluster = "" else is_Some (m !! cluster).
Proof.
  intros Hro. destruct (ro _ (map_to_list m)) as [|[key w] rest] eqn:Hl.
  - exists "". split; [done|].
    assert (map_to_list m = []) as Hm%map_to_list_empty_iff.
    { apply Permutation_nil_r. rewrite <- Hl. symmetry. apply Hro. }
    by rewrite decide_True.
  - exists key. split; [done|].
    assert (Hin : (key, w) ∈ map_to_list m).
    { rewrite <- (Hro _ (map_to_list m)), Hl. left. }
    apply elem_of_map_to_list in Hin.
    rewrite decide_False; [by exists w|]. intros ->.
    by rewrite lookup_empty in Hin.
Qed.

(** X6.  When the listener and its route configuration are found and the
    first virtual host has a first route, [FindEndpointsByListenerName] is
    the chain of the lookups by name: it looks up one of the clusters of
    that route ([range] decides which one; the cluster with the empty name
    when the route has none) as [FindClusterByName] does, and then the
    service of that cluster as [FindEndpointsByName] does. *)
Theorem FindEndpointsByListenerName_chain ro u name ls rt vh vhs route routes :
  rangeOrder_valid ro →
  FindListenerByName u name = (Some ls, None) →
  FindRouteByName u (RouteConfigName ls) = (Some rt, None) →
  VirtualHosts rt = vh :: vhs →
  Routes vh = route :: routes →
  ∃ cluster,
    (if decide (WeightedClusters route = ∅) then cluster = ""
     else is_Some (WeightedClusters route !! cluster))
    ∧ FindEndpointsByListenerName ro u name
      = Returns (match FindClusterByName u cluster with
                 | (Some cs, _) => FindEndpointsByName u (ServiceName cs)
                 | (None, err) => (None, err)
                 end).
Proof.
  intros Hro Hl Hr Hv Hrt.
  unfold FindListenerByName in Hl. unfold FindRouteByName in Hr.
  destruct (LDSCache u !! name) as [ls'|] eqn:Hls; [|done].
  injection Hl as ->.
  destruct (RDSCache u !! RouteConfigName ls) as [rt'|] eqn:Hrs; [|done].
  injection Hr as ->.
  destruct (first_key_spec ro (WeightedClusters route) Hro)
    as (cluster & Hc & Hin).
  exists cluster. split; [done|].
  unfold FindEndpointsByListenerName, noRoutes, index.
  rewrite Hls, Hrs, Hv. simpl. rewrite Hrt. simpl. rewrite Hc.
  unfold FindClusterByName, FindEndpointsByName.
  destruct (CDSCache u !! cluster) as [cs|]; [|done].
  by destruct (EDSCache u !! ServiceName cs).
Qed.

Lemma FindEndpointsByListenerName_chain_witness :
  let lis := {| RouteConfigName := "r"; MaxStreamDuration := 0;
                HTTPFilters := [] |} in
  let route := {| WeightedClusters := {[ "c" := 1%N ]} |} in
  let vh := {| Domains := ["*"]; Routes := [route] |} in
  let rt := {| VirtualHosts := [vh] |} in
  let u := {| LDSCache := {[ "l" := lis ]};
              RDSCache := {[ "r" := rt ]};
              CDSCache := {[ "c" := {| ServiceName := "s" |} ]};
              EDSCache := {[ "s" := EndpointsUpdate_zero ]} |} in
  rangeOrder_valid rangeOrder_id
  ∧ FindListenerByName u "l" = (Some lis, None)
  ∧ FindRouteByName u "r" = (Some rt, None)
  ∧ ∃ cluster,
      (if decide (WeightedClusters route = ∅) then cluster = ""
       else is_Some (WeightedClusters route !! cluster))
      ∧ FindEndpointsByListenerName rangeOrder_id u "l"
        = Returns (match FindClusterByName u cluster with
                   | (Some cs, _) => FindEndpointsByName u (ServiceName cs)
                   | (None, err) => (None, err)
                   end).
Proof.
  intros lis route vh rt u.
  assert (Hl : FindListenerByName u "l" = (Some lis, None)) by reflexivity.
  assert (Hr : FindRouteByName u "r" = (Some rt, None)) by reflexivity.
  split_and!; [apply rangeOrder_id_valid|exact Hl|exact Hr|].
  exact (FindEndpointsByListenerName_chain rangeOrder_id u "l" lis rt vh []
           route [] rangeOrder_id_valid Hl Hr eq_refl eq_refl).
Defined.

(** X7.  When [FindEndpointsByListenerName] returns, it returns one of two
    things: nil with the error [errResourceNotFound], or, without an error,
    an update that the EDS cache holds.  It returns no other error and never
    nil without an error. *)
Theorem FindEndpointsByListenerName_outcomes ro u name r err :
  FindEndpointsByListenerName ro u name = Returns (r, err) →
  (r = None ∧ err = Some errResourceNotFound)
  ∨ (err = None ∧ ∃ k es, r = Some es ∧ EDSCache u !! k = Some es).
Proof.
  unfold FindEndpointsByListenerName.
  destruct (LDSCache u !! name) as [ls|]; [|intros [= <- <-]; by left].
  destruct (RDSCache u !! RouteConfigName ls) as [rt|];
    [|intros [= <- <-]; by left].
  destruct (noRoutes rt) as [[]|]; [intros [= <- <-]; by left| |done].
  destruct (index (VirtualHosts rt) 0) as [vh|]; [|done].
  destruct (index (Routes vh) 0) as [route|]; [|done].
  destruct (CDSCache u !! _) as [cs|]; [|intros [= <- <-]; by left].
  destruct (EDSCache u !! ServiceName cs) as [es|] eqn:Hes;
    [|intros [= <- <-]; by left].
  intros [= <- <-]. right. split; [done|]. by exists (ServiceName cs), es.
Qed.

Lemma FindEndpointsByListenerName_outcomes_witness :
  let u := {| LDSCache := ∅; RDSCache := ∅; CDSCache := ∅;
              EDSCache := ∅ |} in
  FindEndpointsByListenerName rangeOrder_id u "l"
  = Returns (None, Some errResourceNotFound)
  ∧ ((@None EndpointsUpdate = None
      ∧ Some errResourceNotFound = Some errResourceNotFound)
     ∨ (Some errResourceNotFound = None
        ∧ ∃ k es, @None EndpointsUpdate = Some es
                  ∧ EDSCache u !! k = Some es)).
Proof.
  intros u.
  assert (H : FindEndpointsByListenerName rangeOrder_id u "l"
              = Returns (None, Some errResourceNotFound)) by reflexivity.
  split; [exact H|].
  exact (FindEndpointsByListenerName_outcomes rangeOrder_id u "l" None
           (Some errResourceNotFound) H).
Defined.

End CacheMore.

(** * From a drop policy to a dropper *)

Section DropPolicyMore.
Import xdsclient xdspb edsparse edsbalancer.





End DropPolicyMore.

(** * The EDS balancer: what a response leaves behind *)

Section EDSMore.
Import xdsclient edsbalancer eds_spec edsops eds_life.
Context {I : Type}.
Variable ToString : LocalityID -> option string.

Lemma visitPriority_fields ro p ls (pl : priorityLoop) :
  pl_priorityLowest (visitPriority (I:=I) ToString ro (p, ls) pl).1
  = (if negb (isSet (pl_priorityLowest pl))
        || higherThan (pl_priorityLowest pl) p
     then p else pl_priorityLowest pl)
  ∧ pl_priorityChanged (visitPriority (I:=I) ToString ro (p, ls) pl).1
    = match priorityToLocalities (pl_impl pl) !! p with
      | Some _ => pl_priorityChanged pl
      | None => true
      end
  ∧ (∃ bgwc',
       pl_impl (visitPriority (I:=I) ToString ro (p, ls) pl).1
       = set_priorityToLocalities
           (<[p := bgwc']> (priorityToLocalities (pl_impl pl))) (pl_impl pl)).
Proof.
  unfold visitPriority.
  destruct (priorityToLocalities (pl_impl pl) !! p) as [bgwc|].
  - destruct (handleEDSResponsePerPriority _ _ _ _ _ _) as [bgwc' ev].
    split_and!; [done|done|by exists bgwc'].
  - destruct (handleEDSResponsePerPriority _ _ _ _ _ _) as [bgwc' ev].
    split_and!; [done|done|by exists bgwc'].
Qed.

Lemma rangePriorities_cons ro entry L (pl : priorityLoop) :
  (rangePriorities (I:=I) ToString ro (entry :: L) pl).1
  = (rangePriorities ToString ro L (visitPriority ToString ro entry pl).1).1.
Proof.
  cbn [rangePriorities].
  destruct (visitPriority ToString ro entry pl) as [pl1 ev1]. simpl.
  by destruct (rangePriorities ToString ro L pl1) as [pl2 ev2].
Qed.

(** The loop over the new priorities ends with the lowest of them. *)
Lemma rangePriorities_lowest ro (L : list (priorityType * list Locality))
    (pl : priorityLoop) seen :
  (∀ p, p ∈ L.*1 → isSet p = true) →
  lowestOf seen (pl_priorityLowest pl) →
  lowestOf (seen ++ L.*1)
    (pl_priorityLowest (rangePriorities (I:=I) ToString ro L pl).1).
Proof.
  revert pl seen. induction L as [|[p ls] L IH]; intros pl seen Hset Hlow.
  { simpl. by rewrite app_nil_r. }
  rewrite rangePriorities_cons.
  rewrite fmap_cons, (cons_middle _ seen), (assoc_L (++)).
  apply IH.
  { intros q Hq. apply Hset. rewrite fmap_cons. by right. }
  destruct (visitPriority_fields ro p ls pl) as (-> & _ & _).
  assert (Hp : isSet p = true) by (apply Hset; rewrite fmap_cons; left).
  right. destruct Hlow as [[-> ->]|(Hs & Hin & Hmax)].
  - simpl. split_and!; [done|set_solver|].
    intros q ->%list_elem_of_singleton. lia.
  - rewrite Hs. simpl. unfold higherThan.
    destruct (N.ltb_spec (priority_p (pl_priorityLowest pl)) (priority_p p)).
    + split_and!; [done|set_solver|].
      intros q [Hq| ->%list_elem_of_singleton]%elem_of_app; [|lia].
      specialize (Hmax q Hq). lia.
    + split_and!; [done|set_solver|].
      intros q [Hq| ->%list_elem_of_singleton]%elem_of_app; [|lia].
      by apply Hmax.
Qed.

(** The loop reports a change exactly when it meets a priority that the
    balancer does not know. *)
Lemma rangePriorities_changed ro (L : list (priorityType * list Locality))
    (pl : priorityLoop) :
  NoDup L.*1 →
  pl_priorityChanged (rangePriorities (I:=I) ToString ro L pl).1 = true
  ↔ pl_priorityChanged pl = true
    ∨ ∃ p, p ∈ L.*1 ∧ priorityToLocalities (pl_impl pl) !! p = None.
Proof.
  revert pl. induction L as [|[p ls] L IH]; intros pl Hnd.
  { simpl. split; [by left|]. intros [?|(p & Hp & _)]; [done|].
    by apply elem_of_nil in Hp. }
  rewrite fmap_cons in Hnd. apply NoDup_cons in Hnd as [Hp Hnd].
  rewrite rangePriorities_cons, (IH _ Hnd).
  destruct (visitPriority_fields ro p ls pl) as (_ & -> & bgwc' & ->).
  change (priorityToLocalities (set_priorityToLocalities ?m ?e0)) with m.
  rewrite fmap_cons. split.
  - intros [Hc|(q & Hq & Hnone)].
    + destruct (priorityToLocalities (pl_impl pl) !! p) eqn:Hlp;
        [by left|].
      right. exists p. split; [left|done].
    + right. exists q. split; [by right|].
      rewrite lookup_insert_ne in Hnone; [done|]. by intros ->.
  - intros [Hc|(q & Hq & Hnone)].
    + left. by destruct (priorityToLocalities (pl_impl pl) !! p).
    + apply elem_of_cons in Hq as [Heq|Hq].
      * simpl in Heq. subst q. left. by rewrite Hnone.
      * right. exists q. split; [done|].
        rewrite lookup_insert_ne; [done|]. by intros ->.
Qed.

Lemma rangePriorities_untouched ro (L : list (priorityType * list Locality))
    (pl : priorityLoop) :
  untouched (pl_impl (rangePriorities (I:=I) ToString ro L pl).1)
  = untouched (pl_impl pl)
  ∧ dropConfig (pl_impl (rangePriorities (I:=I) ToString ro L pl).1)
    = dropConfig (pl_impl pl)
  ∧ drops (pl_impl (rangePriorities (I:=I) ToString ro L pl).1)
    = drops (pl_impl pl).
Proof.
  revert pl. induction L as [|[p ls] L IH]; intros pl; [done|].
  rewrite rangePriorities_cons.
  destruct (IH (visitPriority ToString ro (p, ls) pl).1) as (-> & -> & ->).
  by destruct (visitPriority_fields ro p ls pl) as (_ & _ & bgwc' & ->).
Qed.

Lemma rangeOldPriorities_cons (new : gmap priorityType (list Locality))
    p ps (st : edsBalancerImpl I * bool) :
  (rangeOldPriorities new (p :: ps) st).1
  = (rangeOldPriorities new ps (visitOldPriority new p st).1).1.
Proof.
  cbn [rangeOldPriorities].
  destruct (visitOldPriority new p st) as [st1 ev1]. simpl.
  by destruct (rangeOldPriorities new ps st1) as [st2 ev2].
Qed.

(** The loop over the old priorities reports a change exactly when it meets
    a priority that the response does not have. *)
Lemma rangeOldPriorities_changed (new : gmap priorityType (list Locality))
    (ps : list priorityType) (st : edsBalancerImpl I * bool) :
  (rangeOldPriorities new ps st).1.2 = true
  ↔ st.2 = true ∨ ∃ p, p ∈ ps ∧ new !! p = None.
Proof.
  revert st. induction ps as [|p ps IH]; intros st.
  { simpl. split; [by left|]. intros [?|(p & Hp & _)]; [done|].
    by apply elem_of_nil in Hp. }
  rewrite rangeOldPriorities_cons, IH. unfold visitOldPriority.
  destruct (new !! p) eqn:Hp; simpl.
  - split.
    + intros [?|(q & Hq & Hn)]; [by left|]. right. exists q.
      split; [by right|done].
    + intros [?|(q & Hq & Hn)]; [by left|].
      apply elem_of_cons in Hq as [->|Hq]; [congruence|].
      right. by exists q.
  - split; [|by left]. intros _. right. exists p. split; [left|done].
Qed.

Lemma rangeOldPriorities_untouched
    (new : gmap priorityType (list Locality))
    (ps : list priorityType) (st : edsBalancerImpl I * bool) :
  untouched (rangeOldPriorities new ps st).1.1 = untouched st.1
  ∧ priorityLowest (rangeOldPriorities new ps st).1.1 = priorityLowest st.1
  ∧ drops (rangeOldPriorities new ps st).1.1 = drops st.1.
Proof.
  revert st. induction ps as [|p ps IH]; intros st; [done|].
  rewrite rangeOldPriorities_cons.
  destruct (IH (visitOldPriority new p st).1) as (-> & -> & ->).
  unfold visitOldPriority. by destruct (new !! p).
Qed.

Lemma updateDrops_fields dc (e : edsBalancerImpl I) :
  untouched (updateDrops dc e).1 = untouched e
  ∧ priorityToLocalities (updateDrops dc e).1 = priorityToLocalities e
  ∧ priorityLowest (updateDrops dc e).1 = priorityLowest e
  ∧ respReceived (updateDrops dc e).1 = respReceived e
  ∧ dropConfig (updateDrops dc e).1 = dc
  ∧ (drops e = newDropper <$> dropConfig e →
     drops (updateDrops dc e).1 = newDropper <$> dc).
Proof.
  unfold updateDrops. case_bool_decide as Hdc.
  { subst dc. done. }
  rewrite (fold_left_snoc_map newDropper).
  by destruct (StatePicker (innerState _)).
Qed.

Lemma handleEDSResponse_core hpc ro edsResp (e : edsBalancerImpl I) :
  handleEDSResponse ToString hpc ro edsResp e
  = if (responseCore ToString ro edsResp e).1.2
    then (set_priorityFields
            (hpc (responseCore ToString ro edsResp e).1.1).1
            (responseCore ToString ro edsResp e).1.1,
          (responseCore ToString ro edsResp e).2
          ++ (hpc (responseCore ToString ro edsResp e).1.1).2)
    else ((responseCore ToString ro edsResp e).1.1,
          (responseCore ToString ro edsResp e).2).
Proof.
  unfold handleEDSResponse, responseCore.
  destruct (updateDrops _ _) as [e1 ev1].
  destruct (rangePriorities _ _ _ _) as [pl ev2].
  destruct (rangeOldPriorities _ _ _) as [[e3 changed] ev3].
  destruct changed; [|done]. simpl.
  destruct (hpc e3) as [pf ev4]. simpl. by rewrite <- !app_assoc.
Qed.

Lemma newLocalitiesWithPriority_Some edsResp p :
  is_Some (newLocalitiesWithPriority edsResp !! p)
  ↔ ∃ l, l ∈ Localities edsResp ∧ inBucket p l.
Proof.
  unfold newLocalitiesWithPriority. rewrite bucket_fold, lookup_empty.
  destruct (filter (inBucket p) (Localities edsResp)) as [|l ls] eqn:Hf.
  - split; [by intros [? ?]|]. intros (l & Hl & Hb).
    assert (Hin : l ∈ filter (inBucket p) (Localities edsResp))
      by (by apply list_elem_of_filter).
    rewrite Hf in Hin. by apply elem_of_nil in Hin.
  - split; [|by eexists]. intros _. exists l.
    assert (Hin : l ∈ filter (inBucket p) (Localities edsResp))
      by (rewrite Hf; left).
    apply list_elem_of_filter in Hin as [? ?]. done.
Qed.

(** What the response leaves behind, before [handlePriorityChange]. *)
Lemma responseCore_facts ro edsResp (e : edsBalancerImpl I) :
  rangeOrder_valid ro →
  untouched (responseCore ToString ro edsResp e).1.1 = untouched e
  ∧ lowestOf (ro _ (map_to_list (newLocalitiesWithPriority edsResp))).*1
      (priorityLowest (responseCore ToString ro edsResp e).1.1)
  ∧ ((responseCore ToString ro edsResp e).1.2 = true
     ↔ dom (priorityToLocalities e)
       ≠ dom (newLocalitiesWithPriority edsResp))
  ∧ (drops e = newDropper <$> dropConfig e →
     drops (responseCore ToString ro edsResp e).1.1
     = newDropper <$> Drops edsResp).
Proof.
  intros Hro. unfold responseCore.
  set (new := newLocalitiesWithPriority edsResp).
  destruct (updateDrops_fields (Drops edsResp) (set_respReceived true e))
    as (Hu1 & Hptl1 & _ & _ & _ & Hd1).
  destruct (updateDrops (Drops edsResp) (set_respReceived true e))
    as [e1 ev1]. simpl in Hu1, Hptl1, Hd1.
  set (pl0 := {| pl_impl := e1; pl_priorityLowest := newPriorityTypeUnset;
                 pl_priorityChanged := false |}).
  set (L := ro _ (map_to_list new)).
  assert (Hnd : NoDup L.*1) by (by apply range_NoDup_keys).
  pose proof (rangePriorities_lowest ro L pl0 []) as Hlow.
  pose proof (rangePriorities_changed ro L pl0 Hnd) as Hch.
  pose proof (rangePriorities_untouched ro L pl0) as (Hu2 & _ & Hd2).
  destruct (rangePriorities_post ToString ro L pl0 Hro Hnd)
    as (pl & ev2 & m' & Heq & Himpl & Hall & Hrest).
  rewrite Heq in Hlow, Hch, Hu2, Hd2 |- *. simpl in Hlow, Hch, Hu2, Hd2.
  unfold pl0 in Himpl, Hrest. simpl in Himpl, Hrest.
  match goal with
  | |- context [rangeOldPriorities new ?ps ?st0] =>
      pose proof (rangeOldPriorities_changed new ps st0) as Hch3;
      pose proof (rangeOldPriorities_untouched new ps st0) as (Hu3 & Hl3 & Hd3);
      destruct (rangeOldPriorities new ps st0) as [[e3 changed] ev3]
  end.
  simpl in Hch3, Hu3, Hl3, Hd3 |- *.
  assert (Hkeys : ∀ p, p ∈ L.*1 ↔ is_Some (new !! p))
    by (intros p; by apply range_keys).
  split_and!.
  - rewrite Hu3.
    change (untouched (set_priorityLowest ?p ?e0)) with (untouched e0).
    by rewrite Hu2, Hu1.
  - rewrite Hl3. apply Hlow; [|by left].
    intros p [l [_ [_ <-]]]%Hkeys%newLocalitiesWithPriority_Some. done.
  - rewrite Hch3, Hch. simpl. rewrite Hptl1.
    assert (Hm' : ∀ p, is_Some (m' !! p)
                       ↔ is_Some (new !! p)
                         ∨ is_Some (priorityToLocalities e !! p)).
    { intros p. destruct (new !! p) as [ls|] eqn:Hp.
      - destruct (Hall p ls) as (bgwc & -> & _); [by apply range_entries|].
        split; [by left|by eexists].
      - rewrite Hrest, Hptl1; [|rewrite Hkeys, Hp; by intros [? ?]].
        split; [by right|]. by intros [[? ?]|]. }
    split.
    + intros [[?|(p & Hp & Hnone)]|(p & Hp & Hnone)] Hdom; [done| |].
      * apply Hkeys, elem_of_dom in Hp. rewrite <- Hdom in Hp.
        apply elem_of_dom in Hp. rewrite Hnone in Hp. by destruct Hp.
      * apply range_keys in Hp; [|done]. rewrite Himpl in Hp.
        simpl in Hp. apply Hm' in Hp as [Hp|Hp];
          [rewrite Hnone in Hp; by destruct Hp|].
        apply elem_of_dom in Hp. rewrite Hdom in Hp.
        apply elem_of_dom in Hp. rewrite Hnone in Hp. by destruct Hp.
    + intros Hdom.
      destruct (decide (Forall (fun p => is_Some (priorityToLocalities e !! p))
                          L.*1)) as [Hold|Hold].
      2:{ left. right. apply not_Forall_Exists in Hold; [|apply _].
          apply Exists_exists in Hold as (p & Hp & Hnone).
          exists p. split; [done|]. simpl in Hnone.
          by apply eq_None_not_Some. }
      rewrite Forall_forall in Hold. right.
      destruct (decide (Forall (fun p => is_Some (new !! p))
                          (elements (dom (priorityToLocalities e)))))
        as [Hnew|Hnew].
      * exfalso. apply Hdom. apply set_eq. intros p.
        rewrite Forall_forall in Hnew. rewrite !elem_of_dom. split.
        -- intros Hp. apply Hnew, elem_of_elements. by apply elem_of_dom.
        -- intros Hp%Hkeys. by apply Hold.
      * apply not_Forall_Exists in Hnew; [|apply _].
        apply Exists_exists in Hnew as (p & Hp & Hnone).
        exists p. split; [|by apply eq_None_not_Some].
        apply range_keys; [done|]. rewrite Himpl. simpl. apply Hm'.
        right. apply elem_of_dom. by apply elem_of_elements.
  - intros Hinv. rewrite Hd3, Hd2. by apply Hd1.
Qed.

(** The response decides which priorities and which localities the balancer
    knows. *)
Lemma handleEDSResponse_settled_keys hpc ro edsResp (e : edsBalancerImpl I) :
  rangeOrder_valid ro →
  (∀ p, is_Some (priorityToLocalities
                   (handleEDSResponse ToString hpc ro edsResp e).1 !! p)
        ↔ ∃ l, l ∈ Localities edsResp ∧ inBucket p l)
  ∧ (∀ p bgwc lid,
       priorityToLocalities
         (handleEDSResponse ToString hpc ro edsResp e).1 !! p = Some bgwc →
       is_Some (ToString lid) →
       (is_Some (configs bgwc !! lid)
        ↔ ∃ l, l ∈ Localities edsResp ∧ inBucket p l ∧ ID l = lid)).
Proof.
  intros Hro.
  destruct (handleEDSResponse_settles ToString hpc ro edsResp e Hro)
    as ([Hkeys Hcfg] & _ & _).
  split.
  - intros p. by rewrite Hkeys, newLocalitiesWithPriority_Some.
  - intros p bgwc lid Hp Hlid.
    assert (Hnew : is_Some (newLocalitiesWithPriority edsResp !! p))
      by (apply Hkeys; by eexists).
    destruct Hnew as [ls Hls].
    destruct (Hcfg p ls bgwc Hls Hp) as [Hin Hout].
    pose proof (newLocalitiesWithPriority_lookup edsResp p ls Hls) as ->.
    assert (Hok : lid ∈ okLids ToString
                          (filter (inBucket p) (Localities edsResp))
                  ↔ ∃ l, l ∈ Localities edsResp ∧ inBucket p l ∧ ID l = lid).
    { rewrite elem_of_okLids. split.
      - intros (_ & l & [Hb Hl]%list_elem_of_filter & Hid). by exists l.
      - intros (l & Hl & Hb & Hid). split; [done|]. exists l.
        split; [|done]. by apply list_elem_of_filter. }
    rewrite <- Hok. split; [intros Hs; by apply Hout|apply Hin].
Qed.

(** X9.  After [handleEDSResponse] the balancer knows exactly the
    priorities that have, in the response, a locality of non-zero weight:
    the localities of weight zero are ignored, and a priority without any
    other locality is not kept.  Under each priority it holds a config for
    exactly the localities of non-zero weight of that priority (for the
    locality IDs that [ToString] accepts). *)
Theorem handleEDSResponse_knows hpc ro edsResp (e : edsBalancerImpl I) :
  rangeOrder_valid ro →
  (∀ p, is_Some (priorityToLocalities
                   (handleEDSResponse ToString hpc ro edsResp e).1 !! p)
        ↔ ∃ l, l ∈ Localities edsResp ∧ Weight l ≠ 0%N
               ∧ newPriorityType (Priority l) = p)
  ∧ (∀ p bgwc lid,
       priorityToLocalities
         (handleEDSResponse ToString hpc ro edsResp e).1 !! p = Some bgwc →
       is_Some (ToString lid) →
       (is_Some (configs bgwc !! lid)
        ↔ ∃ l, l ∈ Localities edsResp ∧ Weight l ≠ 0%N
               ∧ newPriorityType (Priority l) = p ∧ ID l = lid)).
Proof.
  intros Hro.
  destruct (handleEDSResponse_settled_keys hpc ro edsResp e Hro)
    as [Hkeys Hcfg].
  split.
  - intros p. rewrite Hkeys. unfold inBucket. naive_solver.
  - intros p bgwc lid Hp Hlid. rewrite (Hcfg p bgwc lid Hp Hlid).
    unfold inBucket. naive_solver.
Qed.

Lemma handleEDSResponse_untouched hpc ro edsResp (e : edsBalancerImpl I) :
  rangeOrder_valid ro →
  untouched (handleEDSResponse ToString hpc ro edsResp e).1 = untouched e
  ∧ priorityLowest (handleEDSResponse ToString hpc ro edsResp e).1
    = priorityLowest (responseCore ToString ro edsResp e).1.1
  ∧ (drops e = newDropper <$> dropConfig e →
     drops (handleEDSResponse ToString hpc ro edsResp e).1
     = newDropper <$> Drops edsResp).
Proof.
  intros Hro.
  destruct (responseCore_facts ro edsResp e Hro) as (Hu & _ & _ & Hd).
  rewrite handleEDSResponse_core.
  destruct ((responseCore ToString ro edsResp e).1.2); simpl; done.
Qed.

(** X10.  After a response in which no two localities of the same priority
    share an ID, the config that the balancer holds for a locality of
    non-zero weight has the weight of the locality, and its addresses are
    those of the endpoints of the locality that are Healthy or Unknown, in
    order, built under the child policy that is in place. *)
Theorem handleEDSResponse_configs hpc ro edsResp (e : edsBalancerImpl I) l :
  rangeOrder_valid ro →
  uniqueIDs edsResp →
  l ∈ Localities edsResp →
  Weight l ≠ 0%N →
  is_Some (ToString (ID l)) →
  ∃ bgwc cfg,
    priorityToLocalities (handleEDSResponse ToString hpc ro edsResp e).1
      !! newPriorityType (Priority l) = Some bgwc
    ∧ configs bgwc !! ID l = Some cfg
    ∧ weight cfg = Weight l
    ∧ addrs cfg = newAddrsOf (subBalancerBuilder e) l
    ∧ forwardedOK (subBalancerBuilder e) l (addrs cfg).
Proof.
  intros Hro Hids Hl Hw Hlid.
  set (p := newPriorityType (Priority l)).
  destruct (handleEDSResponse_settled_keys hpc ro edsResp e Hro)
    as [Hkeys _].
  assert (Hb : inBucket p l) by done.
  destruct (proj2 (Hkeys p)) as [bgwc Hbgwc]; [by exists l|].
  destruct (proj2 (newLocalitiesWithPriority_Some edsResp p)) as [ls Hls];
    [by exists l|].
  pose proof (handleEDSResponse_exact ToString hpc ro edsResp e Hro Hids
                p ls bgwc Hls Hbgwc l) as Hex.
  destruct (handleEDSResponse_untouched hpc ro edsResp e Hro) as (Hu & _ & _).
  assert (Hbuilder :
            subBalancerBuilder (handleEDSResponse ToString hpc ro edsResp e).1
            = subBalancerBuilder e) by (by injection Hu).
  rewrite Hbuilder in Hex.
  exists bgwc, (exactCfg (subBalancerBuilder e) l).
  split_and!; [done| |done|done|apply newAddrsOf_forwardedOK].
  apply Hex; [|done].
  rewrite (newLocalitiesWithPriority_lookup edsResp p ls Hls).
  by apply list_elem_of_filter.
Qed.

(** X11.  [handleEDSResponse] calls [handlePriorityChange] exactly when
    the set of the priorities changes, that is when the priorities of the
    response are not the priorities that the balancer knew.  It calls it
    once and last, on the balancer as the response left it; what was done
    before does not depend on [handlePriorityChange]. *)
Theorem handleEDSResponse_priority_change ro edsResp (e : edsBalancerImpl I) :
  rangeOrder_valid ro →
  ∃ e1 evs,
    ∀ hpc,
      handleEDSResponse ToString hpc ro edsResp e
      = if bool_decide (dom (priorityToLocalities e)
                        = dom (newLocalitiesWithPriority edsResp))
        then (e1, evs)
        else (set_priorityFields (hpc e1).1 e1, evs ++ (hpc e1).2).
Proof.
  intros Hro.
  exists (responseCore ToString ro edsResp e).1.1,
    (responseCore ToString ro edsResp e).2.
  intros hpc. rewrite handleEDSResponse_core.
  destruct (responseCore_facts ro edsResp e Hro) as (_ & _ & Hch & _).
  case_bool_decide as Hdom.
  - destruct ((responseCore ToString ro edsResp e).1.2); [|done].
    by destruct (proj1 Hch eq_refl).
  - by rewrite (proj2 Hch Hdom).
Qed.

Lemma handleEDSResponse_lowestKnown hpc ro edsResp
    (e : edsBalancerImpl I) :
  rangeOrder_valid ro →
  lowestKnown (handleEDSResponse ToString hpc ro edsResp e).1.
Proof.
  intros Hro.
  destruct (responseCore_facts ro edsResp e Hro) as (_ & Hlow & _ & _).
  destruct (handleEDSResponse_untouched hpc ro edsResp e Hro)
    as (_ & Hl & _).
  destruct (handleEDSResponse_settles ToString hpc ro edsResp e Hro)
    as ([Hkeys _] & _ & _).
  set (e' := (handleEDSResponse ToString hpc ro edsResp e).1) in *.
  assert (Hk : ∀ p, is_Some (priorityToLocalities e' !! p)
                    ↔ p ∈ (ro _ (map_to_list
                                   (newLocalitiesWithPriority edsResp))).*1).
  { intros p. rewrite Hkeys. symmetry. by apply range_keys. }
  unfold lowestKnown. rewrite Hl.
  destruct Hlow as [[Hnil ->]|(Hs & Hin & Hmax)].
  - left. split; [|done]. apply map_empty. intros p.
    apply eq_None_not_Some. rewrite Hk, Hnil. apply not_elem_of_nil.
  - right. split_and!; [done|by apply Hk|].
    intros p Hp. by apply Hmax, Hk.
Qed.

(** The operations other than [handleEDSResponse] leave the priorities, the
    lowest priority and the drop policies as they are. *)
Section Life.
Variable handlePriorityChange :
  edsBalancerImpl I -> priorityFields I * list (event I).
Variable balancer_Get : string -> option string.
Variable CircuitBreakingSupport : bool.
Variable handlePriorityWithNewState :
  edsBalancerImpl I -> priorityType -> balancerState I ->
  (priorityFields I * list (event I)) * bool.

Local Abbreviation after :=
  (after ToString handlePriorityChange balancer_Get CircuitBreakingSupport
     handlePriorityWithNewState).
Local Abbreviation afterAll :=
  (afterAll ToString handlePriorityChange balancer_Get
     CircuitBreakingSupport handlePriorityWithNewState).

Lemma after_other_kept (e : edsBalancerImpl I) (o : op) :
  (∀ ro edsResp, o ≠ HandleEDSResponse ro edsResp) →
  priorityToLocalities (after e o) = priorityToLocalities e
  ∧ priorityLowest (after e o) = priorityLowest e
  ∧ dropConfig (after e o) = dropConfig e
  ∧ drops (after e o) = drops e.
Proof.
  intros Hne. destruct o as [ro r|ro name|name max|p s|sc s|p a r]; simpl.
  - by destruct (Hne ro r).
  - unfold handleChildPolicy. destruct (String.eqb _ _); [done|].
    by destruct (balancer_Get name).
  - unfold updateServiceRequestsConfig.
    destruct (negb CircuitBreakingSupport); [done|].
    destruct (serviceRequestsCounter e) as [c|];
      [destruct (negb (String.eqb c name))|];
      destruct (negb (bool_decide _));
      simpl; by destruct (StatePicker (innerState e)).
  - unfold updateState. destruct (priorityToLocalities e !! p); [|done].
    destruct (handlePriorityWithNewState e p s) as [[pf ev] []]; done.
  - unfold handleSubConnStateChange.
    destruct (subConnToPriority e !! sc) as [p|]; [|done].
    destruct (priorityToLocalities e !! p); by destruct s.
  - unfold newSubConn. by destruct r.
Qed.

Lemma afterAll_snoc ops o (e : edsBalancerImpl I) :
  afterAll (ops ++ [o]) e = after (afterAll ops e) o.
Proof. unfold eds_life.afterAll. by rewrite fold_left_app. Qed.

Lemma lastDrops_snoc (ops : list (op (I:=I))) o :
  lastDrops (ops ++ [o])
  = match o with
    | HandleEDSResponse _ edsResp => Drops edsResp
    | _ => lastDrops ops
    end.
Proof. unfold lastDrops. by rewrite fold_left_app. Qed.

(** X12.  The droppers follow the drop policies.  Whatever operations are
    applied to a new balancer, its droppers are the droppers of the drop
    policies of the last response, one for each policy and in their order
    (none before the first response): no other operation changes them. *)
Theorem droppers_follow_last_response lr ops :
  Forall fairOp ops →
  dropConfig (afterAll ops (newEDSBalancerImpl lr)) = lastDrops ops
  ∧ drops (afterAll ops (newEDSBalancerImpl lr))
    = newDropper <$> lastDrops ops.
Proof.
  induction ops as [|o ops IH] using rev_ind; intros Hfair; [done|].
  apply Forall_app in Hfair as [Hfair Ho%Forall_inv].
  destruct (IH Hfair) as [Hdc Hd].
  rewrite afterAll_snoc, lastDrops_snoc.
  set (e := afterAll ops (newEDSBalancerImpl lr)) in *.
  destruct o as [ro r|ro name|name max|p s|sc s|p a r].
  { simpl in Ho |- *.
    destruct (handleEDSResponse_settles ToString handlePriorityChange ro r e
                Ho) as (_ & _ & ->).
    split; [done|].
    apply (handleEDSResponse_untouched handlePriorityChange ro r e Ho).
    by rewrite Hd, Hdc. }
  all: match goal with
       | |- context [after ?e0 ?o] =>
           destruct (after_other_kept e0 o ltac:(done)) as (_ & _ & -> & ->)
       end; done.
Qed.

(** X13.  The lowest priority is kept.  Whatever operations are applied to
    a new balancer, [priorityLowest] is unset exactly when the balancer
    knows no priority, and otherwise it is the priority that the balancer
    knows with the largest number. *)
Theorem priorityLowest_is_lowest lr ops :
  Forall fairOp ops →
  lowestKnown (afterAll ops (newEDSBalancerImpl lr)).
Proof.
  induction ops as [|o ops IH] using rev_ind; intros Hfair.
  { by left. }
  apply Forall_app in Hfair as [Hfair Ho%Forall_inv].
  specialize (IH Hfair). rewrite afterAll_snoc.
  set (e := afterAll ops (newEDSBalancerImpl lr)) in *.
  destruct o as [ro r|ro name|name max|p s|sc s|p a r];
    [by apply handleEDSResponse_lowestKnown|..];
    (match goal with
     | |- lowestKnown (after e ?o) =>
         destruct (after_other_kept e o ltac:(done)) as (Hptl & Hl & _ & _)
     end;
     unfold lowestKnown; by rewrite Hptl, Hl).
Qed.

End Life.

(** ** The picker that is published *)

(** X14.  [updateServiceRequestsConfig] does nothing when circuit breaking
    is not supported.  When it is, the balancer afterwards counts the
    requests of the service under the given maximum, 1024 when none is
    given; a state is published exactly when the counter or the maximum
    changed and the inner state has a picker, and it is the state built
    from the new counter and maximum; nothing else changes.  So the same
    configuration a second time is not published again. *)
Theorem updateServiceRequestsConfig_effect name max
    (e : edsBalancerImpl I) :
  updateServiceRequestsConfig false name max e = (e, [])
  ∧ updateServiceRequestsConfig true name max e
    = (set_serviceRequests (Some name)
         (default defaultServiceRequestCountMax max) e,
       if bool_decide
            (serviceRequestsCounter e = Some name
             ∧ serviceRequestCountMax e
               = default defaultServiceRequestCountMax max)
       then []
       else published
              (set_serviceRequests (Some name)
                 (default defaultServiceRequestCountMax max) e))
  ∧ updateServiceRequestsConfig true name max
      (updateServiceRequestsConfig true name max e).1
    = ((updateServiceRequestsConfig true name max e).1, []).
Proof.
  assert (H : ∀ e0 : edsBalancerImpl I,
            updateServiceRequestsConfig true name max e0
            = (set_serviceRequests (Some name)
                 (default defaultServiceRequestCountMax max) e0,
               if bool_decide
                    (serviceRequestsCounter e0 = Some name
                     ∧ serviceRequestCountMax e0
                       = default defaultServiceRequestCountMax max)
               then []
               else published
                      (set_serviceRequests (Some name)
                         (default defaultServiceRequestCountMax max) e0))).
  { intros e0. unfold updateServiceRequestsConfig, published. simpl.
    destruct (serviceRequestsCounter e0) as [c|] eqn:Hc.
    - destruct (String.eqb_spec c name) as [->|Hne]; simpl;
        case_bool_decide as Hmax; simpl;
        case_bool_decide as Hboth;
        try (exfalso; naive_solver);
        rewrite <- ?Hmax; by destruct (StatePicker (innerState e0)).
    - case_bool_decide as Hmax; simpl;
        rewrite <- ?Hmax; by destruct (StatePicker (innerState e0)). }
  split_and!; [done|apply H|].
  rewrite (H e). simpl. rewrite H. simpl.
  rewrite bool_decide_eq_true_2 by done. done.
Qed.

(** X15.  The inner picker is remembered and the droppers are not reset by
    a state change.  When the state of a known priority is forwarded, the
    balancer keeps it as its inner state and publishes its picker inside a
    drop picker with the droppers it has; and a later change of the drop
    policies publishes the same picker and connectivity state again, inside
    a drop picker with the droppers of the new policies. *)
Theorem updateState_then_updateDrops hpwns priority s pk dc pf ev
    (e : edsBalancerImpl I) :
  is_Some (priorityToLocalities e !! priority) →
  hpwns e priority s = (pf, ev, true) →
  StatePicker s = Some pk →
  dc ≠ dropConfig e →
  (updateState hpwns priority s e).1
  = set_innerState s (set_priorityFields pf e)
  ∧ (updateState hpwns priority s e).2
    = (edsEvent <$> ev)
      ++ [edsEvent
            (ccUpdateState
               {| ConnectivityState := ConnectivityState s;
                  StatePicker :=
                    Some (DropPicker
                            (newDropPicker pk (drops e) (loadReporter e)
                               (serviceRequestsCounter e)
                               (serviceRequestCountMax e))) |})]
  ∧ (updateDrops dc (updateState hpwns priority s e).1).2
    = [ccUpdateState
         {| ConnectivityState := ConnectivityState s;
            StatePicker :=
              Some (DropPicker
                      (newDropPicker pk (newDropper <$> dc) (loadReporter e)
                         (serviceRequestsCounter e)
                         (serviceRequestCountMax e))) |}].
Proof.
  intros [bgwc Hp] Hh Hpk Hdc.
  assert (Hst : updateState hpwns priority s e
                = (set_innerState s (set_priorityFields pf e),
                   (edsEvent <$> ev)
                   ++ [edsEvent
                         (ccUpdateState
                            {| ConnectivityState := ConnectivityState s;
                               StatePicker :=
                                 Some (DropPicker
                                         (newDropPicker pk (drops e)
                                            (loadReporter e)
                                            (serviceRequestsCounter e)
                                            (serviceRequestCountMax e))) |})])).
  { unfold updateState. rewrite Hp, Hh. simpl. by rewrite Hpk. }
  rewrite Hst. split_and!; [done|done|]. simpl.
  unfold updateDrops. simpl. rewrite bool_decide_eq_false_2 by done.
  simpl. rewrite Hpk. by rewrite (fold_left_snoc_map newDropper).
Qed.

(** ** The child policy *)

Lemma flat_map_split {A B} (f : A → list B) (l : list A) x :
  x ∈ l → ∃ pre post, flat_map f l = pre ++ f x ++ post.
Proof.
  intros (l1 & l2 & ->)%list_elem_of_split.
  exists (flat_map f l1), (flat_map f l2).
  by rewrite flat_map_app.
Qed.

Lemma elem_of_flat_map {A B} (f : A → list B) (l : list A) y :
  y ∈ flat_map f l ↔ ∃ x, x ∈ l ∧ y ∈ f x.
Proof.
  rewrite list_elem_of_In, in_flat_map. setoid_rewrite list_elem_of_In.
  done.
Qed.

(** The calls of [handleChildPolicy] when it changes the builder. *)
Lemma handleChildPolicy_events Get ro name b (e : edsBalancerImpl I) :
  rangeOrder_valid ro →
  subBalancerBuilder e ≠ name →
  Get name = Some b →
  (handleChildPolicy ToString Get ro name e).1 = set_subBalancerBuilder b e
  ∧ (∀ p bgwc lid cfg id,
       priorityToLocalities e !! p = Some bgwc →
       configs bgwc !! lid = Some cfg →
       ToString lid = Some id →
       ∃ pre post,
         (handleChildPolicy ToString Get ro name e).2
         = pre ++ [bgRemove p id; bgAdd p id b;
                   bgUpdateClientConnState p id (addrs cfg)] ++ post)
  ∧ (∀ ev, ev ∈ (handleChildPolicy ToString Get ro name e).2 →
       ∃ p bgwc lid cfg id,
         priorityToLocalities e !! p = Some bgwc
         ∧ configs bgwc !! lid = Some cfg
         ∧ ToString lid = Some id
         ∧ ev ∈ [bgRemove p id; bgAdd p id b;
                 bgUpdateClientConnState p id (addrs cfg)]).
Proof.
  intros Hro Hne Hget. unfold handleChildPolicy.
  destruct (String.eqb_spec (subBalancerBuilder e) name) as [?|_]; [done|].
  rewrite Hget. simpl. split_and!; [done| |].
  - intros p bgwc lid cfg id Hp Hlid Hid.
    destruct (flat_map_split (visitChildPriority (I:=I) ToString ro b)
                (ro _ (map_to_list (priorityToLocalities e))) (p, bgwc))
      as (pre1 & post1 & ->); [by apply range_entries|].
    destruct (flat_map_split (visitChildConfig (I:=I) ToString b p)
                (ro _ (map_to_list (configs bgwc))) (lid, cfg))
      as (pre2 & post2 & Hin); [by apply range_entries|].
    unfold visitChildPriority. simpl. rewrite Hin.
    unfold visitChildConfig at 1. simpl. rewrite Hid.
    exists (pre1 ++ pre2), (post2 ++ post1).
    by rewrite <- !app_assoc.
  - intros ev Hev.
    apply elem_of_flat_map in Hev as ([p bgwc] & Hp & Hev).
    apply range_entries in Hp; [|done].
    unfold visitChildPriority in Hev. simpl in Hev.
    apply elem_of_flat_map in Hev as ([lid cfg] & Hlid & Hev).
    apply range_entries in Hlid; [|done].
    unfold visitChildConfig in Hev. simpl in Hev.
    destruct (ToString lid) as [id|] eqn:Hid;
      [|by apply elem_of_nil in Hev].
    by exists p, bgwc, lid, cfg, id.
Qed.

(** X16.  [handleChildPolicy] does nothing when the policy has the name of
    the one in place, or when no builder is registered under that name.
    Otherwise it changes the builder and nothing else in the balancer, and
    it rebuilds every child: for every locality of every priority (whose ID
    [ToString] accepts) it removes the child, adds it again with the new
    builder and hands it the addresses that the balancer holds for the
    locality, in this order; and it makes no other call. *)
Theorem handleChildPolicy_rebuilds Get ro name (e : edsBalancerImpl I) :
  rangeOrder_valid ro →
  (subBalancerBuilder e = name ∨ Get name = None →
   handleChildPolicy ToString Get ro name e = (e, []))
  ∧ (∀ b, subBalancerBuilder e ≠ name → Get name = Some b →
       (handleChildPolicy ToString Get ro name e).1
       = set_subBalancerBuilder b e
       ∧ (∀ p bgwc lid cfg id,
            priorityToLocalities e !! p = Some bgwc →
            configs bgwc !! lid = Some cfg →
            ToString lid = Some id →
            ∃ pre post,
              (handleChildPolicy ToString Get ro name e).2
              = pre ++ [bgRemove p id; bgAdd p id b;
                        bgUpdateClientConnState p id (addrs cfg)] ++ post)
       ∧ (∀ ev, ev ∈ (handleChildPolicy ToString Get ro name e).2 →
            ∃ p bgwc lid cfg id,
              priorityToLocalities e !! p = Some bgwc
              ∧ configs bgwc !! lid = Some cfg
              ∧ ToString lid = Some id
              ∧ ev ∈ [bgRemove p id; bgAdd p id b;
                      bgUpdateClientConnState p id (addrs cfg)])).
Proof.
  intros Hro. split.
  - intros [Heq|Hnone]; unfold handleChildPolicy.
    + by rewrite (proj2 (String.eqb_eq _ _) Heq).
    + destruct (String.eqb _ _); [done|]. by rewrite Hnone.
  - intros b Hne Hget. by apply handleChildPolicy_events.
Qed.

Lemma forwardedOK_no_weight b l addresses :
  forwardedOK b l addresses →
  b ≠ weightedroundrobin_Name →
  Forall (fun a => Attributes a = None ∧ Metadata a = None) addresses.
Proof.
  unfold forwardedOK. intros Hok Hnw.
  induction Hok as [|ep a eps addrs0 (_ & Hattr & _ & _) _ IH]; [done|].
  constructor; [|done].
  destruct (Attributes a) eqn:Ha, (Metadata a) eqn:Hm; try done;
    exfalso; (destruct (proj1 Hattr) as [? _]; [|done]);
    (by left) || (by right).
Qed.

(** X17.  A change of the child policy after a response hands the new
    children the addresses that were built under the old policy.  After a
    response in which no two localities of the same priority share an ID,
    every address list that [handleChildPolicy] hands to a child is the list
    of the healthy endpoints of a locality of the response as the policy in
    place at the response built it: when that policy was not weighted round
    robin, the addresses carry no weight even if the new policy is weighted
    round robin. *)
Theorem handleChildPolicy_after_response hpc Get ro1 ro2 edsResp name
    (e : edsBalancerImpl I) p id addresses :
  rangeOrder_valid ro1 →
  rangeOrder_valid ro2 →
  uniqueIDs edsResp →
  bgUpdateClientConnState p id addresses
    ∈ (handleChildPolicy ToString Get ro2 name
         (handleEDSResponse ToString hpc ro1 edsResp e).1).2 →
  (∃ l, l ∈ Localities edsResp ∧ Weight l ≠ 0%N
        ∧ newPriorityType (Priority l) = p
        ∧ ToString (ID l) = Some id
        ∧ addresses = newAddrsOf (subBalancerBuilder e) l
        ∧ forwardedOK (subBalancerBuilder e) l addresses)
  ∧ (subBalancerBuilder e ≠ weightedroundrobin_Name →
     Forall (fun a => Attributes a = None ∧ Metadata a = None) addresses).
Proof.
  intros Hro1 Hro2 Hids Hin.
  set (e1 := (handleEDSResponse ToString hpc ro1 edsResp e).1) in *.
  assert (Hb1 : subBalancerBuilder e1 = subBalancerBuilder e).
  { destruct (handleEDSResponse_untouched hpc ro1 edsResp e Hro1)
      as (Hu & _ & _). by injection Hu. }
  assert (Hl : ∃ l, l ∈ Localities edsResp ∧ Weight l ≠ 0%N
                    ∧ newPriorityType (Priority l) = p
                    ∧ ToString (ID l) = Some id
                    ∧ addresses = newAddrsOf (subBalancerBuilder e) l).
  { unfold handleChildPolicy in Hin.
    destruct (String.eqb_spec (subBalancerBuilder e1) name) as [?|Hne];
      [by apply elem_of_nil in Hin|].
    destruct (Get name) as [b|] eqn:Hget; [|by apply elem_of_nil in Hin].
    destruct (handleChildPolicy_events Get ro2 name b e1 Hro2 Hne Hget)
      as (_ & _ & Hall).
    unfold handleChildPolicy in Hall.
    destruct (String.eqb_spec (subBalancerBuilder e1) name) as [?|_];
      [done|].
    rewrite Hget in Hall.
    destruct (Hall _ Hin)
      as (p' & bgwc & lid & cfg & id' & Hp & Hlid & Hid & Hev).
    assert (Heq : p' = p ∧ id' = id ∧ addrs cfg = addresses).
    { rewrite !elem_of_cons, elem_of_nil in Hev.
      destruct Hev as [?|[?|[Heq|[]]]]; try done. by injection Heq. }
    destruct Heq as (-> & -> & <-).
    destruct (handleEDSResponse_settled_keys hpc ro1 edsResp e Hro1)
      as [_ Hcfg].
    destruct (proj1 (Hcfg p bgwc lid Hp ltac:(by eexists)))
      as (l & Hl & Hb & <-); [by eexists|].
    destruct (proj2 (newLocalitiesWithPriority_Some edsResp p))
      as [ls Hls]; [by exists l|].
    pose proof (handleEDSResponse_exact ToString hpc ro1 edsResp e Hro1 Hids
                  p ls bgwc Hls Hp l) as Hex.
    fold e1 in Hex. rewrite Hb1 in Hex.
    rewrite Hex in Hlid.
    + injection Hlid as <-. destruct Hb as [Hw Hpr].
      exists l. by split_and!.
    + rewrite (newLocalitiesWithPriority_lookup edsResp p ls Hls).
      by apply list_elem_of_filter.
    + by eexists. }
  destruct Hl as (l & Hl & Hw & Hp & Hid & ->).
  pose proof (newAddrsOf_forwardedOK (subBalancerBuilder e) l) as Hok.
  split; [exists l; by split_and!|].
  intros Hnw. by eapply forwardedOK_no_weight.
Qed.

(** ** SubConns *)

(** X18.  The life of a SubConn.  A SubConn that [newSubConn] created for a
    priority is remembered with that priority: a change of its state is
    handed to the balancer group of the priority when the balancer knows
    the priority, and is dropped otherwise.  A change other than Shutdown
    leaves the balancer as it is; after Shutdown the SubConn is forgotten
    and further changes of its state are dropped.  A SubConn that the
    balancer does not remember is ignored, and a failing [cc.NewSubConn]
    leaves the balancer as it is. *)
Theorem subConn_life priority addresses sc s (e : edsBalancerImpl I) :
  (handleSubConnStateChange sc s
     (newSubConn priority addresses (inl sc) e).1.2).2
  = match priorityToLocalities e !! priority with
    | Some _ => [bgUpdateSubConnState priority sc s]
    | None => []
    end
  ∧ (s ≠ Shutdown →
     (handleSubConnStateChange sc s
        (newSubConn priority addresses (inl sc) e).1.2).1
     = (newSubConn priority addresses (inl sc) e).1.2)
  ∧ (∀ s',
       handleSubConnStateChange sc s'
         (handleSubConnStateChange sc Shutdown
            (newSubConn priority addresses (inl sc) e).1.2).1
       = ((handleSubConnStateChange sc Shutdown
             (newSubConn priority addresses (inl sc) e).1.2).1, []))
  ∧ (subConnToPriority e !! sc = None →
     handleSubConnStateChange sc s e = (e, []))
  ∧ (∀ err, newSubConn priority addresses (inr err) e
            = ((None, Some err), e, [ccNewSubConn addresses])).
Proof.
  split_and!.
  - unfold handleSubConnStateChange, newSubConn. simpl.
    rewrite lookup_insert_eq.
    by destruct (priorityToLocalities e !! priority).
  - intros Hs. unfold handleSubConnStateChange, newSubConn. simpl.
    rewrite lookup_insert_eq.
    destruct (priorityToLocalities e !! priority); by destruct s.
  - intros s'.
    assert (Hsd : (handleSubConnStateChange sc Shutdown
                     (newSubConn priority addresses (inl sc) e).1.2).1
                  = set_subConnToPriority
                      (delete sc (<[sc:=priority]> (subConnToPriority e))) e).
    { unfold handleSubConnStateChange, newSubConn. simpl.
      rewrite lookup_insert_eq.
      by destruct (priorityToLocalities e !! priority). }
    rewrite Hsd. unfold handleSubConnStateChange. simpl.
    by rewrite lookup_delete_eq.
  - intros Hnone. unfold handleSubConnStateChange. by rewrite Hnone.
  - done.
Qed.

(** ** Closing *)

(** X19.  [close] after a response stops and closes exactly the priorities
    of the response: for each priority that has a locality of non-zero
    weight in the response, once, it stops the aggregator and then closes
    the balancer group; it makes no other call. *)
Theorem close_after_response hpc ro1 ro2 edsResp (e : edsBalancerImpl I) :
  rangeOrder_valid ro1 →
  rangeOrder_valid ro2 →
  ∃ ps,
    NoDup ps
    ∧ (∀ p, p ∈ ps ↔ ∃ l, l ∈ Localities edsResp ∧ Weight l ≠ 0%N
                          ∧ newPriorityType (Priority l) = p)
    ∧ close ro2 (handleEDSResponse ToString hpc ro1 edsResp e).1
      = flat_map (fun p => [aggregatorStop p; edsEvent (bgClose p)]) ps.
Proof.
  intros Hro1 Hro2.
  set (e1 := (handleEDSResponse ToString hpc ro1 edsResp e).1).
  exists (ro2 _ (map_to_list (priorityToLocalities e1))).*1.
  split_and!.
  - by apply range_NoDup_keys.
  - intros p. rewrite range_keys by done.
    destruct (handleEDSResponse_settled_keys hpc ro1 edsResp e Hro1)
      as [Hkeys _].
    fold e1 in Hkeys. rewrite Hkeys. unfold inBucket. naive_solver.
  - unfold close.
    induction (ro2 _ (map_to_list (priorityToLocalities e1)))
      as [|[p bgwc] L IH]; [done|].
    simpl. by rewrite IH.
Qed.

End EDSMore.

Section EDSMoreWitnesses.
Import xdsclient edsbalancer eds_spec edsops eds_life fixtures more_fixtures.

Lemma uniqueIDs_update : uniqueIDs update.
Proof.
  apply uniqueIDs_of_NoDup. simpl.
  repeat (apply NoDup_cons; split; [set_solver|]). apply NoDup_nil_2.
Qed.

Lemma handleEDSResponse_knows_witness :
  rangeOrder_valid rangeOrder_id
  ∧ is_Some (priorityToLocalities updated !! newPriorityType 1)
  ∧ ¬ is_Some (priorityToLocalities updated !! newPriorityType 2).
Proof.
  pose proof (handleEDSResponse_knows joinID keepPriority rangeOrder_id
                update (newEDSBalancerImpl None) rangeOrder_id_valid)
    as [Hkeys _].
  split_and!; [exact rangeOrder_id_valid| |].
  - apply Hkeys.
    exists (locality "b" 1 2
              [endpoint "2.2.2.2:80" EndpointHealthStatusHealthy 0]).
    split_and!; [|done|done]. simpl. set_solver.
  - intros (l & Hl & Hw & Hp)%Hkeys. simpl in Hl.
    rewrite !elem_of_cons, elem_of_nil in Hl.
    destruct Hl as [->|[->|[->|[]]]]; discriminate Hp.
Defined.

Lemma handleEDSResponse_configs_witness :
  let a := locality "a" 0 1
             [endpoint "1.1.1.1:80" EndpointHealthStatusHealthy 3;
              endpoint "1.1.1.2:80" EndpointHealthStatusUnhealthy 3;
              endpoint "1.1.1.3:80" EndpointHealthStatusUnknown 0] in
  rangeOrder_valid rangeOrder_id
  ∧ uniqueIDs update
  ∧ ∃ bgwc cfg,
      priorityToLocalities updated !! newPriorityType 0 = Some bgwc
      ∧ configs bgwc !! ID a = Some cfg
      ∧ weight cfg = 1%N
      ∧ addrs cfg
        = [{| Addr := "1.1.1.1:80"; Attributes := None; Metadata := None |};
           {| Addr := "1.1.1.3:80"; Attributes := None; Metadata := None |}].
Proof.
  intros a.
  destruct (handleEDSResponse_configs joinID keepPriority rangeOrder_id
              update (newEDSBalancerImpl None) a rangeOrder_id_valid
              uniqueIDs_update)
    as (bgwc & cfg & Hp & Hcfg & Hw & Ha & _).
  { simpl. set_solver. }
  { done. }
  { by eexists. }
  split_and!; [exact rangeOrder_id_valid|exact uniqueIDs_update|].
  exists bgwc, cfg. split_and!; [exact Hp|exact Hcfg|exact Hw|exact Ha].
Defined.

Lemma handleEDSResponse_priority_change_witness :
  rangeOrder_valid rangeOrder_id
  ∧ ∃ e1 evs,
      ∀ hpc,
        handleEDSResponse joinID hpc rangeOrder_id update
          (newEDSBalancerImpl (I:=unit) None)
        = if bool_decide
               (dom (priorityToLocalities (newEDSBalancerImpl (I:=unit) None))
                = dom (newLocalitiesWithPriority update))
          then (e1, evs)
          else (set_priorityFields (hpc e1).1 e1, evs ++ (hpc e1).2).
Proof.
  split; [exact rangeOrder_id_valid|].
  exact (handleEDSResponse_priority_change joinID rangeOrder_id update
           (newEDSBalancerImpl None) rangeOrder_id_valid).
Defined.

Lemma fairOp_life :
  Forall (fairOp (I:=unit)) life.
Proof.
  repeat constructor; exact rangeOrder_id_valid.
Qed.

Lemma droppers_follow_last_response_witness :
  Forall (fairOp (I:=unit)) life
  ∧ lastDrops life = []
  ∧ drops (afterAll joinID keepPriority registry true forwardState life
             (newEDSBalancerImpl None))
    = newDropper <$> lastDrops life.
Proof.
  split_and!; [exact fairOp_life|reflexivity|].
  exact (proj2 (droppers_follow_last_response joinID keepPriority registry
                  true forwardState None life fairOp_life)).
Defined.

Lemma priorityLowest_is_lowest_witness :
  Forall (fairOp (I:=unit)) life
  ∧ lowestKnown (afterAll joinID keepPriority registry true forwardState life
                   (newEDSBalancerImpl None)).
Proof.
  split; [exact fairOp_life|].
  exact (priorityLowest_is_lowest joinID keepPriority registry true
           forwardState None life fairOp_life).
Defined.

Lemma updateState_then_updateDrops_witness :
  let p0 := newPriorityType 0 in
  let pf := (forwardState updated p0 readyState).1.1 in
  let ev := (forwardState updated p0 readyState).1.2 in
  is_Some (priorityToLocalities updated !! p0)
  ∧ dropConfig updated = [throttle]
  ∧ (updateState forwardState p0 readyState updated).1
    = set_innerState readyState (set_priorityFields pf updated)
  ∧ (updateDrops [] (updateState forwardState p0 readyState updated).1).2
    = [ccUpdateState
         {| ConnectivityState := Ready;
            StatePicker :=
              Some (DropPicker
                      (newDropPicker readyPicker [] None None 1024)) |}].
Proof.
  intros p0 pf ev.
  assert (Hp : is_Some (priorityToLocalities updated !! p0))
    by (vm_compute; by eexists).
  assert (Hdc : dropConfig updated = [throttle]) by reflexivity.
  destruct (updateState_then_updateDrops forwardState p0 readyState
              readyPicker [] pf ev updated Hp eq_refl eq_refl)
    as (He & _ & Hev).
  { rewrite Hdc. discriminate. }
  split_and!; [exact Hp|exact Hdc|exact He|exact Hev].
Defined.

Lemma handleChildPolicy_rebuilds_witness :
  rangeOrder_valid rangeOrder_id
  ∧ handleChildPolicy joinID registry rangeOrder_id "round_robin" updated
    = (updated, [])
  ∧ handleChildPolicy joinID registry rangeOrder_id "pick_first" updated
    = (updated, []).
Proof.
  pose proof (handleChildPolicy_rebuilds joinID registry rangeOrder_id
                "round_robin" updated rangeOrder_id_valid) as [Hsame _].
  pose proof (handleChildPolicy_rebuilds joinID registry rangeOrder_id
                "pick_first" updated rangeOrder_id_valid) as [Hnone _].
  split_and!; [exact rangeOrder_id_valid| |].
  - apply Hsame. left. reflexivity.
  - apply Hnone. right. reflexivity.
Defined.

Lemma handleChildPolicy_after_response_witness :
  let addresses :=
    [{| Addr := "1.1.1.1:80"; Attributes := None; Metadata := None |};
     {| Addr := "1.1.1.3:80"; Attributes := None; Metadata := None |}] in
  rangeOrder_valid rangeOrder_id
  ∧ uniqueIDs update
  ∧ bgUpdateClientConnState (newPriorityType 0) "a/z/s" addresses
      ∈ (handleChildPolicy joinID registry rangeOrder_id
           weightedroundrobin_Name updated).2
  ∧ Forall (fun a => Attributes a = None ∧ Metadata a = None) addresses.
Proof.
  intros addresses.
  assert (Hin : bgUpdateClientConnState (newPriorityType 0) "a/z/s" addresses
                  ∈ (handleChildPolicy joinID registry rangeOrder_id
                       weightedroundrobin_Name updated).2).
  { apply list_elem_of_In. vm_compute.
    repeat (first [left; reflexivity|right]). }
  split_and!; [exact rangeOrder_id_valid|exact uniqueIDs_update|exact Hin|].
  refine (proj2 (handleChildPolicy_after_response joinID keepPriority registry
                   rangeOrder_id rangeOrder_id update weightedroundrobin_Name
                   (newEDSBalancerImpl None) (newPriorityType 0) "a/z/s"
                   addresses rangeOrder_id_valid rangeOrder_id_valid
                   uniqueIDs_update Hin) _).
  discriminate.
Defined.

Lemma close_after_response_witness :
  rangeOrder_valid rangeOrder_id
  ∧ ∃ ps,
      NoDup ps
      ∧ (∀ p, p ∈ ps ↔ ∃ l, l ∈ Localities update ∧ Weight l ≠ 0%N
                            ∧ newPriorityType (Priority l) = p)
      ∧ close rangeOrder_id updated
        = flat_map (fun p => [aggregatorStop p; edsEvent (bgClose p)]) ps.
Proof.
  split; [exact rangeOrder_id_valid|].
  exact (close_after_response joinID keepPriority rangeOrder_id
           rangeOrder_id update (newEDSBalancerImpl None)
           rangeOrder_id_valid rangeOrder_id_valid).
Defined.

End EDSMoreWitnesses.
